(** * geoh5py / geoh5io: property groups, curve cells, entity copy and the
      concatenated (drillhole) storage.

    The development has four parts:

    - [PropertyGroupModel]: the [PropertyGroup] class of
      [geoh5io/groups/property_group.py], with Python's attribute
      dictionary and [setattr] dispatch written out;
    - [CurveModel]: the [cells] setter of [geoh5py/objects/curve.py] over a
      small model of numpy arrays (dtype, shape, flat integer data), and
      [CurveGeom]: the getters of [cells] and [parts], the setter of
      [parts] and [remove_cells];
    - [CopyModel]: [NoTypeObject.copy] of [geoh5py/objects/notype_object.py];
    - [Concat]: the concatenated store, its index tables and the depth and
      interval mergers, whose implementation ([geoh5py.shared.concatenation])
      is outside the sources at hand and is modelled from the specification
      and from the calls of [tests/drillhole_v4_0_test.py]. *)

From Stdlib Require Import ZArith QArith Qabs List String Ascii Bool Lia Lqa Sorted.
From stdpp Require Import gmap strings list fin_maps.

Set Default Proof Using "Type".
Set Warnings "-register-all".

(** ** Results of fallible calls *)

Inductive result (E A : Type) : Type :=
| Ok (a : A)
| Err (e : E).
Arguments Ok {E A} a.
Arguments Err {E A} e.

Definition bind {E A B} (r : result E A) (k : A -> result E B) : result E B :=
  match r with
  | Ok a => k a
  | Err e => Err e
  end.

Notation "x <- r ;; k" := (bind r (fun x => k))
  (at level 100, r at next level, right associativity).

(* ===================================================================== *)
(** ** geoh5io.groups.property_group.PropertyGroup *)
(* ===================================================================== *)

Module PropertyGroupModel.

(** Exceptions the class can raise. *)
Inductive PyExc := AttributeError | ValueError | TypeError | AssertionError.

Section WithEnum.

(** [DataAssociationEnum] is declared in [geoh5io.data], [uuid.UUID] in
    Python's library: both are taken as parameters, with the one member the
    class names ([VERTEX]), the lookup of a member by its upper-cased name
    ([getattr(DataAssociationEnum, value.upper())]) and the parser
    [uuid.UUID(str)]. *)
Context {DataAssociationEnum UUID : Type}.
Variable VERTEX : DataAssociationEnum.
Variable enum_getattr_upper : string -> option DataAssociationEnum.
Variable uuid_of_string : string -> option UUID.

(** Python values that reach the class: [None], strings, members of the
    enumeration, identifiers, entities (by their identifier), lists,
    dictionaries with string keys (the list of their items, a key being
    looked up at its first item) and values of other kinds (numbers, say),
    which are no string, no dictionary, no class, and cannot be iterated. *)
Inductive PyVal : Type :=
| PNone
| PStr (s : string)
| PAssoc (a : DataAssociationEnum)
| PUuid (u : UUID)
| PEntity (uid : UUID)
| PList (l : list PyVal)
| PDict (d : list (string * PyVal))
| POther (tag : nat).

(** An instance is its attribute dictionary ([__dict__]). *)
Abbreviation Instance := (gmap string PyVal).

(** The class attribute [_attribute_map]. *)
Definition class_attribute_map : list (string * PyVal) :=
  [ ("Association", PStr "association");
    ("Group Name", PStr "group_name");
    ("ID", PStr "uid");
    ("Properties", PStr "properties");
    ("Property Group Type", PStr "property_group_type") ]%string.

Fixpoint assoc_get (k : string) (l : list (string * PyVal)) : option PyVal :=
  match l with
  | [] => None
  | (k', v) :: l' => if String.eqb k k' then Some v else assoc_get k l'
  end.

(** [self._attribute_map]: the instance dictionary shadows the class. *)
Definition _attribute_map (self : Instance) : PyVal :=
  match self !! "_attribute_map"%string with
  | Some v => v
  | None => PDict class_attribute_map
  end.

(** The [association] getter: [return self._association]. *)
Definition association (self : Instance) : option PyVal :=
  self !! "_association"%string.

(** [parent.setter] *)
Definition set_parent (self : Instance) (parent : PyVal) : result PyExc Instance :=
  let parent := match parent with PEntity u => PUuid u | _ => parent end in
  Ok (<["_parent"%string := parent]> self).

(** [uid.setter] *)
Definition set_uid (self : Instance) (uid : PyVal) : result PyExc Instance :=
  match uid with
  | PStr s =>
      match uuid_of_string s with
      | Some u => Ok (<["_uid"%string := PUuid u]> self)
      | None => Err ValueError
      end
  | _ => Ok (<["_uid"%string := uid]> self)
  end.

(** [group_name.setter] *)
Definition set_group_name (self : Instance) (v : PyVal) : result PyExc Instance :=
  Ok (<["_group_name"%string := v]> self).

(** [association.setter]: the body runs only when [_association] is
    [None]. *)
Definition set_association (self : Instance) (value : PyVal) : result PyExc Instance :=
  match self !! "_association"%string with
  | None => Err AttributeError
  | Some PNone =>
      value <- match value with
               | PStr s =>
                   match enum_getattr_upper s with
                   | Some a => Ok (PAssoc a)
                   | None => Err AttributeError
                   end
               | _ => Ok value
               end ;;
      match value with
      | PAssoc _ => Ok (<["_association"%string := value]> self)
      | _ => Err AssertionError
      end
  | Some _ => Ok self
  end.

(** The loop of [properties.setter]: strings are parsed, anything else is
    appended as it is. *)
Fixpoint convert_uids (uids : list PyVal) : result PyExc (list PyVal) :=
  match uids with
  | [] => Ok []
  | uid :: rest =>
      uid' <- match uid with
              | PStr s =>
                  match uuid_of_string s with
                  | Some u => Ok (PUuid u)
                  | None => Err ValueError
                  end
              | _ => Ok uid
              end ;;
      rest' <- convert_uids rest ;;
      Ok (uid' :: rest')
  end.

(** Iterating a Python value: lists yield their items, a string its
    characters, a dictionary its keys; nothing else is iterable. *)
Definition py_iter (v : PyVal) : result PyExc (list PyVal) :=
  match v with
  | PList l => Ok l
  | PStr s => Ok (map (fun c => PStr (String c EmptyString)) (list_ascii_of_string s))
  | PDict d => Ok (map (fun kv => PStr (fst kv)) d)
  | _ => Err TypeError
  end.

(** [properties.setter]: [self._properties += properties]. *)
Definition set_properties (self : Instance) (uids : PyVal) : result PyExc Instance :=
  items <- py_iter uids ;;
  properties <- convert_uids items ;;
  match self !! "_properties"%string with
  | Some (PList old) => Ok (<["_properties"%string := PList (old ++ properties)]> self)
  | Some _ => Err TypeError
  | None => Err AttributeError
  end.

(** [property_group_type.setter] *)
Definition set_property_group_type (self : Instance) (v : PyVal) : result PyExc Instance :=
  Ok (<["_property_group_type"%string := v]> self).

(** [setattr(self, attr, item)]: the data descriptors of the class come
    first. A property with a setter runs it and the read-only property
    [attribute_map] raises [AttributeError]. The descriptors every class
    without slots has are [__dict__], whose assignment replaces the whole
    instance dictionary by the dictionary given ([TypeError] for any
    other value), [__class__], which takes a class only ([TypeError] for
    every value of [PyVal]), and [__weakref__], which is not writable
    ([AttributeError]). Any other name is written into the instance
    dictionary. *)
Definition setattr (self : Instance) (attr : string) (item : PyVal) : result PyExc Instance :=
  if String.eqb attr "parent" then set_parent self item
  else if String.eqb attr "uid" then set_uid self item
  else if String.eqb attr "group_name" then set_group_name self item
  else if String.eqb attr "association" then set_association self item
  else if String.eqb attr "properties" then set_properties self item
  else if String.eqb attr "property_group_type" then set_property_group_type self item
  else if String.eqb attr "attribute_map" then Err AttributeError
  else if String.eqb attr "__dict__" then
    match item with
    | PDict d => Ok (list_to_map d)
    | _ => Err TypeError
    end
  else if String.eqb attr "__class__" then Err TypeError
  else if String.eqb attr "__weakref__" then Err AttributeError
  else Ok (<[attr := item]> self).

(** One turn of the loop in [__init__]: the body of the [try], then
    [except AttributeError: continue]. *)
Definition init_step (self : Instance) (kw : string * PyVal) : result PyExc Instance :=
  let '(attr, item) := kw in
  let body :=
    match _attribute_map self with
    | PDict m =>
        match assoc_get attr m with
        | Some (PStr attr') => setattr self attr' item
        | Some _ => Err TypeError
        | None => setattr self attr item
        end
    | _ => Err AttributeError
    end in
  match body with
  | Err AttributeError => Ok self
  | r => r
  end.

Fixpoint init_loop (self : Instance) (kwargs : list (string * PyVal)) : result PyExc Instance :=
  match kwargs with
  | [] => Ok self
  | kw :: rest => self' <- init_step self kw ;; init_loop self' rest
  end.

(** [PropertyGroup.__init__] with its keyword arguments; [uid4] is the value drawn by
    [uuid.uuid4()]. *)
Definition __init__ (uid4 : UUID) (kwargs : list (string * PyVal)) : result PyExc Instance :=
  let self : Instance :=
    <["_parent"%string := PNone]>
    (<["_property_group_type"%string := PStr "multi-element"]>
    (<["_properties"%string := PList []]>
    (<["_association"%string := PAssoc VERTEX]>
    (<["_uid"%string := PUuid uid4]>
    (<["_group_name"%string := PStr "prop_group"]> ∅))))) in
  init_loop self kwargs.

(** A sequence of attribute assignments [group.attr = item] made by a
    client after construction; the first exception ends it. *)
Fixpoint assign_all (self : Instance) (stmts : list (string * PyVal)) : result PyExc Instance :=
  match stmts with
  | [] => Ok self
  | (attr, item) :: rest => self' <- setattr self attr item ;; assign_all self' rest
  end.

(** Names that reach the state behind the [association] property without
    going through it: the private slot, the entry that shadows the class
    attribute map, the instance dictionary as a whole and the class of the
    instance. *)
Definition bypasses_property (attr : string) : bool :=
  String.eqb attr "_association" || String.eqb attr "_attribute_map"
  || String.eqb attr "__dict__" || String.eqb attr "__class__".

Definition public_names (kwargs : list (string * PyVal)) : Prop :=
  Forall (fun kw => bypasses_property (fst kw) = false) kwargs.

(** The invariant behind the claim. *)
Definition vertex_inv (self : Instance) : Prop :=
  self !! "_association"%string = Some (PAssoc VERTEX) /\
  self !! "_attribute_map"%string = None.

End WithEnum.

(** Concrete runs: the members of the enumeration by name, identifiers as
    their text. *)
Inductive Association := UNKNOWN | OBJECT | CELL | VERTEX.

Definition upper_ascii (c : ascii) : ascii :=
  let n := nat_of_ascii c in
  if (97 <=? n) && (n <=? 122) then ascii_of_nat (n - 32) else c.

Fixpoint upper (s : string) : string :=
  match s with
  | EmptyString => EmptyString
  | String c s' => String (upper_ascii c) (upper s')
  end.

Definition association_by_name (s : string) : option Association :=
  let u := upper s in
  if String.eqb u "UNKNOWN" then Some UNKNOWN
  else if String.eqb u "OBJECT" then Some OBJECT
  else if String.eqb u "CELL" then Some CELL
  else if String.eqb u "VERTEX" then Some VERTEX
  else None.

Definition uuid_text (s : string) : option string :=
  if String.length s =? 36 then Some s else None.

Definition file_kwargs : list (string * @PyVal Association string) :=
  [ ("Association", PStr "Cell");
    ("Group Name", PStr "assays");
    ("association", PAssoc OBJECT) ]%string.

Definition later_assignments : list (string * @PyVal Association string) :=
  [ ("group_name", PStr "renamed");
    ("association", PStr "cell") ]%string.

End PropertyGroupModel.

(* ===================================================================== *)
(** ** geoh5py.objects.curve.Curve: the [cells] setter *)
(* ===================================================================== *)

Module CurveModel.

Inductive PyExc := ValueError | IndexError | AttributeError.

(** numpy element types. *)
Inductive dtype :=
| int8 | int16 | int32 | int64
| uint8 | uint16 | uint32 | uint64
| float32 | float64 | bool_ | object_.

(** [np.issubdtype(d, np.integer)] *)
Definition is_integer (d : dtype) : bool :=
  match d with
  | int8 | int16 | int32 | int64 | uint8 | uint16 | uint32 | uint64 => true
  | float32 | float64 | bool_ | object_ => false
  end.

(** An array: element type, shape and the elements in row-major order.
    Elements are integers; for the other element types the list is an
    encoding the setter never reads (such arrays are refused). *)
Record ndarray := mk_ndarray {
  arr_dtype : dtype;
  arr_shape : list nat;
  arr_data : list Z
}.

(** [a.shape[k]], an [IndexError] when [a] has no axis [k]. *)
Definition shape_at (a : ndarray) (k : nat) : result PyExc nat :=
  match nth_error (arr_shape a) k with
  | Some n => Ok n
  | None => Err IndexError
  end.

(** Conversion of one integer to a signed 32-bit one (two's complement
    wrap-around). *)
Definition wrap_int32 (z : Z) : Z :=
  ((z + 2 ^ 31) mod 2 ^ 32 - 2 ^ 31)%Z.

(** [a.astype(np.int32)] on an array of integers. *)
Definition astype_int32 (a : ndarray) : ndarray :=
  {| arr_dtype := int32;
     arr_shape := arr_shape a;
     arr_data := map wrap_int32 (arr_data a) |}.

(** [np.atleast_2d] *)
Definition atleast_2d (a : ndarray) : ndarray :=
  match arr_shape a with
  | [] => {| arr_dtype := arr_dtype a; arr_shape := [1; 1]; arr_data := arr_data a |}
  | [n] => {| arr_dtype := arr_dtype a; arr_shape := [1; n]; arr_data := arr_data a |}
  | _ => a
  end.

Definition list_nat_eqb (l1 l2 : list nat) : bool :=
  if decide (l1 = l2) then true else false.

Section WithPromotion.

(** numpy's type promotion table ([np.promote_types]) belongs to the
    library and is a parameter. *)
Variable promote_types : dtype -> dtype -> dtype.

(** Stacking [b] below [acc] along the first axis: the trailing
    dimensions must agree. *)
Definition stack_two (acc b : ndarray) : result PyExc ndarray :=
  match arr_shape acc, arr_shape b with
  | n :: tl, m :: tl' =>
      if list_nat_eqb tl tl'
      then Ok {| arr_dtype := promote_types (arr_dtype acc) (arr_dtype b);
                 arr_shape := (n + m) :: tl;
                 arr_data := arr_data acc ++ arr_data b |}
      else Err ValueError
  | _, _ => Err ValueError
  end.

Fixpoint stack_all (acc : ndarray) (rest : list ndarray) : result PyExc ndarray :=
  match rest with
  | [] => Ok acc
  | b :: rest' => acc' <- stack_two acc (atleast_2d b) ;; stack_all acc' rest'
  end.

(** [np.vstack(arrays)]: a [ValueError] for an empty sequence or for
    arrays whose trailing dimensions differ. *)
Definition vstack (arrays : list ndarray) : result PyExc ndarray :=
  match arrays with
  | [] => Err ValueError
  | a :: rest => stack_all (atleast_2d a) rest
  end.

(** What a client may assign to [cells]. *)
Inductive indices_arg :=
| ANone
| AArray (a : ndarray)
| AList (items : list ndarray).

(** The attributes of a [Curve] the setter touches; [updated] records the
    calls [workspace.update_attribute(self, name)], latest first. *)
Record Curve := mk_Curve {
  _cells : option ndarray;
  _parts : option ndarray;
  updated : list string
}.

(** [Curve.cells.setter]. The result is the instance after the call and
    the exception raised, if any. *)
Definition set_cells (self : Curve) (indices : indices_arg) : Curve * option PyExc :=
  (* if isinstance(indices, list): indices = np.vstack(indices) *)
  match (match indices with
         | AList items => a <- vstack items ;; Ok (Some a)
         | AArray a => Ok (Some a)
         | ANone => Ok None
         end) with
  | Err e => (self, Some e)
  | Ok indices =>
      (* if self._cells is not None and
            (indices is None or indices.shape[0] < self._cells.shape[0]) *)
      let guard : result PyExc bool :=
        match _cells self with
        | None => Ok false
        | Some current =>
            match indices with
            | None => Ok true
            | Some a =>
                rows <- shape_at a 0 ;;
                current_rows <- shape_at current 0 ;;
                Ok (rows <? current_rows)
            end
        end in
      match guard with
      | Err e => (self, Some e)
      | Ok true => (self, Some ValueError)
      | Ok false =>
          match indices with
          | None => (self, Some AttributeError)
          | Some a =>
              (* if indices.shape[1] != 2 *)
              match shape_at a 1 with
              | Err e => (self, Some e)
              | Ok columns =>
                  if negb (columns =? 2) then (self, Some ValueError)
                  (* if not np.issubdtype(indices.dtype, np.integer) *)
                  else if negb (is_integer (arr_dtype a)) then (self, Some ValueError)
                  else
                    ({| _cells := Some (astype_int32 a);
                        _parts := None;
                        updated := "cells"%string :: updated self |}, None)
              end
          end
      end
  end.

End WithPromotion.

(** The shape the docstring and the error message of the setter ask for:
    two axes, the second of length 2. *)
Definition shape_star_2 (a : ndarray) : Prop :=
  exists n : nat, arr_shape a = [n; 2].

End CurveModel.

(* ===================================================================== *)
(** ** geoh5py.objects.curve.Curve: cells from parts and vertices, parts
       from cells, removal of cells *)
(* ===================================================================== *)

Module CurveGeom.

Import CurveModel.

(** The exceptions of these methods. [Unmodelled] marks the inputs this
    model does not follow: parts that are not a one-axis array, cells that
    are not an array of pairs, parts given as an array of another element
    type than an integer one or as a list with an entry out of the range
    of [int32]. *)
Inductive Exc :=
| Py (e : PyExc)
| AssertionError
| Unmodelled.

(** A curve: the attributes of [CurveModel.Curve], the number of rows of
    [vertices] ([None] when [vertices] is [None]), [on_file], the array
    [workspace.fetch_array_attribute(self)] returns, the warnings issued
    and the calls [remove_children_values(indices, "CELL")]. *)
Record CurveObject := mk_CurveObject {
  core : Curve;
  n_vertices : option nat;
  on_file : bool;
  file_cells : option ndarray;
  warnings : list string;
  removed_cell_values : list (list Z)
}.

Definition with_core (self : CurveObject) (c : Curve) : CurveObject :=
  {| core := c; n_vertices := n_vertices self; on_file := on_file self;
     file_cells := file_cells self; warnings := warnings self;
     removed_cell_values := removed_cell_values self |}.

(** [np.arange(lo, hi)] *)
Definition arange (lo hi : Z) : list Z :=
  map (fun i => (lo + Z.of_nat i)%Z) (seq 0 (Z.to_nat (hi - lo))).

(** An array of shape (k, 2) from its rows. *)
Definition pairs_array (dt : dtype) (rows : list (Z * Z)) : ndarray :=
  {| arr_dtype := dt;
     arr_shape := [length rows; 2];
     arr_data := flat_map (fun r => [fst r; snd r]) rows |}.

(** [np.c_[a, b]] for two one-axis arrays: the rows [(a[i], b[i])]. *)
Definition c_ (a b : list Z) : result PyExc (list (Z * Z)) :=
  if length a =? length b then Ok (combine a b) else Err ValueError.

(** [np.c_[ind[:-1], ind[1:]]] *)
Definition consecutive (ind : list Z) : result PyExc (list (Z * Z)) :=
  c_ (firstn (length ind - 1) ind) (skipn 1 ind).

(** [np.where(parts == part_id)[0]] on a one-axis array, [i] being the
    position of the head. *)
Fixpoint where_eq (part_id : Z) (parts : list Z) (i : Z) : list Z :=
  match parts with
  | [] => []
  | p :: parts' =>
      if Z.eqb p part_id then i :: where_eq part_id parts' (i + 1)
      else where_eq part_id parts' (i + 1)
  end.

(** [np.unique]: the distinct values in ascending order. *)
Fixpoint insert_unique (x : Z) (l : list Z) : list Z :=
  match l with
  | [] => [x]
  | y :: l' =>
      if Z.ltb x y then x :: l
      else if Z.eqb x y then l
      else y :: insert_unique x l'
  end.

Definition unique (l : list Z) : list Z := fold_right insert_unique [] l.

(** [a.astype("uint32")] on an array of integers. *)
Definition astype_uint32 (a : ndarray) : ndarray :=
  {| arr_dtype := uint32;
     arr_shape := arr_shape a;
     arr_data := map (fun z => (z mod 2 ^ 32)%Z) (arr_data a) |}.

(** A one-axis array as the list of its elements. *)
Definition as_vector (a : ndarray) : option (list Z) :=
  match arr_shape a with
  | [n] => if n =? length (arr_data a) then Some (arr_data a) else None
  | _ => None
  end.

Fixpoint pair_up (data : list Z) : list (Z * Z) :=
  match data with
  | x :: y :: data' => (x, y) :: pair_up data'
  | _ => []
  end.

(** An array of shape (k, 2) as the list of its rows. *)
Definition as_pairs (a : ndarray) : option (list (Z * Z)) :=
  match arr_shape a with
  | [k; 2] => if 2 * k =? length (arr_data a) then Some (pair_up (arr_data a)) else None
  | _ => None
  end.

Section WithNumpy.

(** numpy's promotion table and the element type of indices ([np.intp]). *)
Variable promote_types : dtype -> dtype -> dtype.
Variable intp : dtype.
(** The element type of [np.zeros(n, dtype="int")]. *)
Variable default_int : dtype.

(** [self.cells = array]: the setter of [CurveModel], on the core. *)
Definition assign_cells (self : CurveObject) (a : ndarray) : CurveObject * option Exc :=
  let '(c, e) := set_cells promote_types (core self) (AArray a) in
  (with_core self c, option_map Py e).

(** The list the loop of the getter builds: for each part, the segments
    joining its vertices in order. *)
Fixpoint cells_of_parts (ids : list Z) (parts : list Z) : result PyExc (list ndarray) :=
  match ids with
  | [] => Ok []
  | part_id :: ids' =>
      rows <- consecutive (where_eq part_id parts 0) ;;
      rest <- cells_of_parts ids' parts ;;
      Ok (pairs_array intp rows :: rest)
  end.

(** The [cells] getter. *)
Definition get_cells (self : CurveObject) : CurveObject * result Exc (option ndarray) :=
  match _cells (core self) with
  | Some c => (self, Ok (Some c))
  | None =>
      match _parts (core self) with
      | Some parts =>
          match as_vector parts with
          | None => (self, Err Unmodelled)
          | Some p =>
              match (cells <- cells_of_parts (unique p) p ;; vstack promote_types cells) with
              | Err e => (self, Err (Py e))
              | Ok stacked =>
                  match assign_cells self stacked with
                  | (self', Some e) => (self', Err e)
                  | (self', None) => (self', Ok (_cells (core self')))
                  end
              end
          end
      | None =>
          if on_file self then
            (with_core self {| _cells := file_cells self;
                               _parts := _parts (core self);
                               updated := updated (core self) |},
             Ok (file_cells self))
          else
            match n_vertices self with
            | Some n =>
                match c_ (arange 0 (Z.of_nat n - 1)) (arange 1 (Z.of_nat n)) with
                | Err e => (self, Err (Py e))
                | Ok rows =>
                    match assign_cells self (astype_uint32 (pairs_array intp rows)) with
                    | (self', Some e) => (self', Err e)
                    | (self', None) => (self', Ok (_cells (core self')))
                    end
                end
            | None => (self, Ok None)
            end
      end
  end.

(** [parts[i] = count] for one index of a fancy assignment: negative
    indices count from the end, an index out of range raises. *)
Definition assign_at (parts : list Z) (i : Z) (count : Z) : result PyExc (list Z) :=
  let n := Z.of_nat (length parts) in
  if (0 <=? i)%Z && (i <? n)%Z then Ok (<[Z.to_nat i := count]> parts)
  else if (- n <=? i)%Z && (i <? 0)%Z then Ok (<[Z.to_nat (i + n) := count]> parts)
  else Err IndexError.

(** The loop of the [parts] getter over the rows after the first. *)
Fixpoint fill_parts (prev : Z * Z) (rows : list (Z * Z)) (count : Z) (parts : list Z)
  : result PyExc (list Z) :=
  match rows with
  | [] => Ok parts
  | r :: rows' =>
      let count := if Z.eqb (fst r) (snd prev) then count else (count + 1)%Z in
      parts <- assign_at parts (fst r) count ;;
      parts <- assign_at parts (snd r) count ;;
      fill_parts r rows' count parts
  end.

Definition parts_of_cells (n : nat) (rows : list (Z * Z)) : result PyExc (list Z) :=
  match rows with
  | [] => Ok (repeat 0%Z n)
  | r :: rows' => fill_parts r rows' 0 (repeat 0%Z n)
  end.

(** The [parts] getter. *)
Definition get_parts (self : CurveObject) : CurveObject * result Exc (option ndarray) :=
  match _parts (core self) with
  | Some p => (self, Ok (Some p))
  | None =>
      match get_cells self with
      | (self1, Err e) => (self1, Err e)
      | (self1, Ok None) => (self1, Ok (_parts (core self1)))
      | (self1, Ok (Some _)) =>
          match get_cells self1 with
          | (self2, Err e) => (self2, Err e)
          | (self2, Ok None) => (self2, Err (Py AttributeError))
          | (self2, Ok (Some cells)) =>
              match n_vertices self2 with
              | None => (self2, Err (Py AttributeError))
              | Some n =>
                  match as_pairs cells with
                  | None => (self2, Err Unmodelled)
                  | Some rows =>
                      match parts_of_cells n rows with
                      | Err e => (self2, Err (Py e))
                      | Ok parts =>
                          let p := {| arr_dtype := default_int; arr_shape := [n];
                                      arr_data := parts |} in
                          (with_core self2 {| _cells := _cells (core self2);
                                              _parts := Some p;
                                              updated := updated (core self2) |},
                           Ok (Some p))
                      end
                  end
              end
          end
      end
  end.

(** What a client may assign to [parts]: a list of integers or an array. *)
Inductive parts_arg :=
| PartsList (items : list Z)
| PartsArray (a : ndarray).

Definition in_int32 (z : Z) : bool := ((- 2 ^ 31 <=? z) && (z <? 2 ^ 31))%Z.

(** [np.asarray(indices, dtype="int32")] for a list, [indices.astype("int32")]
    for an array. *)
Definition parts_as_int32 (indices : parts_arg) : result Exc ndarray :=
  match indices with
  | PartsList items =>
      if forallb in_int32 items
      then Ok {| arr_dtype := int32; arr_shape := [length items]; arr_data := items |}
      else Err Unmodelled
  | PartsArray a =>
      if is_integer (arr_dtype a) then Ok (astype_int32 a) else Err Unmodelled
  end.

(** The [parts] setter. *)
Definition set_parts (self : CurveObject) (indices : parts_arg) : CurveObject * option Exc :=
  match n_vertices self with
  | None => (self, None)
  | Some n =>
      match parts_as_int32 indices with
      | Err e => (self, Some e)
      | Ok a =>
          if list_nat_eqb (arr_shape a) [n]
          then (with_core self {| _cells := None;
                                  _parts := Some a;
                                  updated := "cells"%string :: updated (core self) |},
                None)
          else (self, Some AssertionError)
      end
  end.

(** [np.max(indices)] of a list of integers; a [ValueError] when it is
    empty. *)
Definition np_max (indices : list Z) : result PyExc Z :=
  match indices with
  | [] => Err ValueError
  | i :: rest => Ok (fold_left Z.max rest i)
  end.

(** The rows [np.delete] drops: each index counted from the end when it
    is negative, an [IndexError] when it is out of bounds. *)
Fixpoint normalize_indices (k : nat) (indices : list Z) : result PyExc (list nat) :=
  match indices with
  | [] => Ok []
  | i :: rest =>
      let n := Z.of_nat k in
      i' <- (if (0 <=? i)%Z && (i <? n)%Z then Ok (Z.to_nat i)
             else if (- n <=? i)%Z && (i <? 0)%Z then Ok (Z.to_nat (i + n))
             else Err IndexError) ;;
      rest' <- normalize_indices k rest ;;
      Ok (i' :: rest')
  end.

Definition stride (a : ndarray) : nat := fold_right Nat.mul 1 (List.tl (arr_shape a)).

(** The elements of the rows from row [i] on that are not dropped. *)
Fixpoint keep_rows (st : nat) (dropped : list nat) (i : nat) (k : nat) (data : list Z)
  : list Z :=
  match k with
  | 0 => []
  | S k' =>
      let row := firstn st data in
      let rest := keep_rows st dropped (S i) k' (skipn st data) in
      if existsb (Nat.eqb i) dropped then rest else row ++ rest
  end.

Fixpoint count_kept (dropped : list nat) (i k : nat) : nat :=
  match k with
  | 0 => 0
  | S k' =>
      (if existsb (Nat.eqb i) dropped then 0 else 1) + count_kept dropped (S i) k'
  end.

(** [np.delete(a, indices, axis=0)] *)
Definition np_delete (a : ndarray) (indices : list Z) : result PyExc ndarray :=
  match arr_shape a with
  | [] => Err IndexError
  | k :: tl =>
      dropped <- normalize_indices k indices ;;
      Ok {| arr_dtype := arr_dtype a;
            arr_shape := count_kept dropped 0 k :: tl;
            arr_data := keep_rows (stride a) dropped 0 k (arr_data a) |}
  end.

(** [Curve.remove_cells(indices)] *)
Definition remove_cells (self : CurveObject) (indices : list Z) : CurveObject * option Exc :=
  match _cells (core self) with
  | None =>
      ({| core := core self; n_vertices := n_vertices self; on_file := on_file self;
          file_cells := file_cells self;
          warnings := "No cells to be removed."%string :: warnings self;
          removed_cell_values := removed_cell_values self |}, None)
  | Some cells =>
      match (m <- np_max indices ;;
             k <- shape_at cells 0 ;;
             if (Z.of_nat k - 1 <? m)%Z then Err ValueError
             else np_delete cells indices) with
      | Err e => (self, Some (Py e))
      | Ok remaining =>
          let cleared := with_core self {| _cells := None;
                                           _parts := _parts (core self);
                                           updated := updated (core self) |} in
          match assign_cells cleared remaining with
          | (self', Some e) => (self', Some e)
          | (self', None) =>
              ({| core := core self'; n_vertices := n_vertices self';
                  on_file := on_file self'; file_cells := file_cells self';
                  warnings := warnings self';
                  removed_cell_values := indices :: removed_cell_values self' |}, None)
          end
      end
  end.

(** [Curve.unique_parts] *)
Definition unique_parts (self : CurveObject) : CurveObject * result Exc (option (list Z)) :=
  match get_parts self with
  | (self', Err e) => (self', Err e)
  | (self', Ok None) => (self', Ok None)
  | (self', Ok (Some p)) =>
      match as_vector p with
      | Some l => (self', Ok (Some (unique l)))
      | None => (self', Err Unmodelled)
      end
  end.

End WithNumpy.

End CurveGeom.

(* ===================================================================== *)
(** ** geoh5py.objects.notype_object.NoTypeObject.copy *)
(* ===================================================================== *)

Module CopyModel.

Definition uid := nat.

(** A property group of an object: a name and the identifiers of its
    member data. *)
Record PropertyGroup := mk_PropertyGroup {
  pg_name : string;
  pg_properties : list uid
}.

(** An entity with what a copy carries over: its attribute blob (the
    attributes other than the identifier, the parent and the metadata),
    its array attributes, its property groups and its children. *)
Inductive Entity : Type :=
  mk_Entity (e_uid : uid) (e_parent : option uid) (e_name : string)
            (e_blob : list (string * string))
            (e_arrays : list (string * list Q))
            (e_property_groups : list PropertyGroup)
            (e_children : list Entity).

Definition e_uid (e : Entity) : uid :=
  match e with mk_Entity u _ _ _ _ _ _ => u end.
Definition e_parent (e : Entity) : option uid :=
  match e with mk_Entity _ p _ _ _ _ _ => p end.
Definition e_name (e : Entity) : string :=
  match e with mk_Entity _ _ n _ _ _ _ => n end.
Definition e_blob (e : Entity) : list (string * string) :=
  match e with mk_Entity _ _ _ b _ _ _ => b end.
Definition e_arrays (e : Entity) : list (string * list Q) :=
  match e with mk_Entity _ _ _ _ a _ _ => a end.
Definition e_property_groups (e : Entity) : list PropertyGroup :=
  match e with mk_Entity _ _ _ _ _ g _ => g end.
Definition e_children (e : Entity) : list Entity :=
  match e with mk_Entity _ _ _ _ _ _ c => c end.

(** The optional arguments of [copy] that it hands on to
    [Workspace.copy_to_parent]: [clear_cache] and the keyword arguments.
    The two other optional arguments, [mask] and [cell_mask], are
    accepted by [NoTypeObject.copy] and not used. *)
Record Options := mk_Options {
  clear_cache : bool;
  kwargs : list (string * string)
}.

(** A call that gives neither: [clear_cache=False], no keyword. *)
Definition default_options : Options := mk_Options false [].

Definition is_default (options : Options) : bool :=
  negb (clear_cache options) &&
  match kwargs options with [] => true | _ :: _ => false end.

(** Rewriting one reference through the identifier map; a reference the
    map does not know stays. *)
Definition remap (children_map : gmap uid uid) (u : uid) : uid :=
  match children_map !! u with
  | Some u' => u'
  | None => u
  end.

(** Modelled from the spec: [Workspace.copy_property_groups], which is
    outside the sources: it "recreates property-group membership in the
    target using the same column names", the references to the original
    children rewritten with the identifier map. *)
Definition copy_property_groups
    (groups : list PropertyGroup) (children_map : gmap uid uid) : list PropertyGroup :=
  map (fun g => {| pg_name := pg_name g;
                   pg_properties := map (remap children_map) (pg_properties g) |})
      groups.

Section WithWorkspace.

(** [Workspace.copy_to_parent] is outside the sources, and two of its
    decisions are left open as parameters. The first is the identifier of
    the copy: the specification has a new identifier allocated, while the
    tests find the copy made into another workspace under the identifier
    of the original ([workspace_copy.get_entity(obj.uid)], and
    [compare_entities], which is not told to ignore [_uid]);
    [keeps_uid u] tells whether the copy of the entity [u] keeps this
    identifier. The second is what [clear_cache] and the keyword
    arguments do to the copy. *)
Variable keeps_uid : uid -> bool.
Variable with_options : Options -> Entity -> Entity.

(** The identifier of the copy; [fresh] is the one [uuid.uuid4()] would
    draw. *)
Definition new_uid (entity : Entity) (fresh : uid) : uid :=
  if keeps_uid (e_uid entity) then e_uid entity else fresh.

(** Modelled from the spec: [Workspace.copy_to_parent] as the store-level
    copy of the specification: it "duplicates an object's attribute blob
    and all of its array slices" under the target parent; the children
    and the property groups are the caller's work. *)
Definition copy_to_parent (entity : Entity) (parent : uid) (options : Options) (fresh : uid)
  : Entity :=
  let copied :=
    mk_Entity (new_uid entity fresh) (Some parent) (e_name entity) (e_blob entity)
              (e_arrays entity) [] [] in
  if is_default options then copied else with_options options copied.

(** [NoTypeObject.copy(parent, copy_children, clear_cache, **kwargs)].
    [next] is the supply of identifiers; the result is the copy and the
    supply after the call. The inner loop is [for child in self.children],
    building [children_map]; a child is copied with
    [child.copy(parent=new_entity, copy_children=True)], without the
    options. *)
Fixpoint copy (self : Entity) (parent : uid) (copy_children : bool) (options : Options)
    (next : uid) : Entity * uid :=
  let new_entity := copy_to_parent self parent options next in
  if copy_children then
    let loop :=
      fix loop (children : list Entity) (children_map : gmap uid uid) (next : uid)
        : list Entity * gmap uid uid * uid :=
        match children with
        | [] => ([], children_map, next)
        | child :: rest =>
            let '(child_copy, next1) :=
              copy child (e_uid new_entity) true default_options next in
            let children_map := <[e_uid child := e_uid child_copy]> children_map in
            let '(copies, children_map, next2) := loop rest children_map next1 in
            (child_copy :: copies, children_map, next2)
        end in
    let '(copies, children_map, next') := loop (e_children self) ∅ (S next) in
    let groups :=
      match e_property_groups self with
      | [] => e_property_groups new_entity
      | gs => e_property_groups new_entity ++ copy_property_groups gs children_map
      end in
    (mk_Entity (e_uid new_entity) (e_parent new_entity) (e_name new_entity)
               (e_blob new_entity) (e_arrays new_entity) groups
               (e_children new_entity ++ copies),
     next')
  else (new_entity, S next).

(** The loop of [copy], as a function of its own. *)
Fixpoint copy_loop (new_entity_uid : uid) (children : list Entity)
    (children_map : gmap uid uid) (next : uid) : list Entity * gmap uid uid * uid :=
  match children with
  | [] => ([], children_map, next)
  | child :: rest =>
      let '(child_copy, next1) := copy child new_entity_uid true default_options next in
      let children_map := <[e_uid child := e_uid child_copy]> children_map in
      let '(copies, children_map, next2) := copy_loop new_entity_uid rest children_map next1 in
      (child_copy :: copies, children_map, next2)
  end.

(** What the comparison of a copy with its original asks of the
    original, [bound] being the supply of identifiers at the copy: the
    children of an entity have distinct identifiers, an identifier that
    is kept was drawn before the copy started, and so was every member of
    a property group that is not a child. *)
Fixpoint copyable (bound : uid) (e : Entity) : Prop :=
  match e with
  | mk_Entity _ _ _ _ _ groups children =>
      List.NoDup (map e_uid children) /\
      Forall (fun v => keeps_uid v = true -> v < bound) (map e_uid children) /\
      Forall (fun g => Forall (fun u => In u (map e_uid children) \/ u < bound)
                         (pg_properties g)) groups /\
      (fix all (l : list Entity) : Prop :=
         match l with
         | [] => True
         | c :: l' => copyable bound c /\ all l'
         end) children
  end.

End WithWorkspace.

(** Equality up to identity and parent: an entity with the identifiers
    taken out. A member of a property group is named by the position of
    the child it refers to. *)
Inductive Shape : Type :=
  mk_Shape (name : string) (blob : list (string * string))
           (arrays : list (string * list Q))
           (groups : list (string * list (option nat)))
           (children : list Shape).

Fixpoint index_of (u : uid) (l : list uid) : option nat :=
  match l with
  | [] => None
  | v :: l' => if Nat.eqb u v then Some 0 else option_map S (index_of u l')
  end.

Fixpoint erase (e : Entity) : Shape :=
  match e with
  | mk_Entity _ _ name blob arrays groups children =>
      mk_Shape name blob arrays
        (map (fun g => (pg_name g,
                        map (fun u => index_of u (map e_uid children)) (pg_properties g)))
             groups)
        (map erase children)
  end.

(** All identifiers of an entity and its descendants. *)
Fixpoint uids (e : Entity) : list uid :=
  match e with
  | mk_Entity u _ _ _ _ _ children => u :: flat_map uids children
  end.


(** Well-formed entities: children have distinct identifiers and the
    property groups list children only. *)
Fixpoint well_formed (e : Entity) : Prop :=
  match e with
  | mk_Entity _ _ _ _ _ groups children =>
      List.NoDup (map e_uid children) /\
      Forall (fun g => Forall (fun u => In u (map e_uid children)) (pg_properties g)) groups /\
      (fix all (l : list Entity) : Prop :=
         match l with
         | [] => True
         | c :: l' => well_formed c /\ all l'
         end) children
  end.

End CopyModel.

(* ===================================================================== *)
(** ** The concatenated store *)
(* ===================================================================== *)

(** The implementation ([geoh5py.shared.concatenation]) is outside the
    sources: the definitions of this module follow the specification, and
    the calls of [tests/drillhole_v4_0_test.py] where they show what the
    program accepts. *)

Module Concat.

Definition oid := nat.

(** Error kinds (specification, section 7). *)
Inductive Error :=
| UnknownObjectError
| DuplicateColumnError
| DuplicateRangeError
| MissingSupportError
| MissingAttributeError
| InvalidToleranceError
| NonTerminalExtendError
| ShapeMismatchError.

(** An entry of a shared array: a data value or a depth coordinate, the
    bounds of an interval, or the missing-value sentinel. *)
Inductive elt :=
| Missing
| Value (v : Q)
| Bounds (from to : Q).

(** Names of the shared arrays: the depth support, the from-to support and
    one array of values per column name. *)
Inductive attr :=
| ADepth
| AFromTo
| AData (name : string).

#[global] Instance attr_eq_dec : EqDecision attr.
Proof. solve_decision. Defined.

#[global] Instance attr_countable : Countable attr.
Proof.
  refine (inj_countable'
    (fun a => match a with
              | ADepth => inl false
              | AFromTo => inl true
              | AData n => inr n
              end)
    (fun x => match x with
              | inl false => ADepth
              | inl true => AFromTo
              | inr n => AData n
              end) _).
  intros []; reflexivity.
Defined.

(** *** IndexTable (specification, sections 3 and 4.1) *)

Module IndexTable.

(** Modelled from the spec: "Sequence of (object_id, offset, count)
    triples, one per (object, attribute) pair that has data". *)
Record range := mk_range {
  rng_oid : oid;
  rng_offset : nat;
  rng_count : nat
}.

Definition t := list range.

(** Modelled from the spec: [lookup(object_id) -> (offset, count) | absent]. *)
Fixpoint lookup (o : oid) (tbl : t) : option (nat * nat) :=
  match tbl with
  | [] => None
  | r :: tbl' =>
      if Nat.eqb (rng_oid r) o then Some (rng_offset r, rng_count r)
      else lookup o tbl'
  end.

(** The end of the backing array as the table sees it: the sum of the
    counts. *)
Fixpoint total (tbl : t) : nat :=
  match tbl with
  | [] => 0
  | r :: tbl' => rng_count r + total tbl'
  end.

(** Modelled from the spec: [append(object_id, count) -> offset] "appends a
    new range at the current end of the backing array; fails with
    DuplicateRangeError if object_id already has a range". *)
Definition append (o : oid) (count : nat) (tbl : t) : result Error (nat * t) :=
  match lookup o tbl with
  | Some _ => Err DuplicateRangeError
  | None => Ok (total tbl, tbl ++ [mk_range o (total tbl) count])
  end.

Definition shift_down (off cnt : nat) (r : range) : range :=
  if off <? rng_offset r
  then mk_range (rng_oid r) (rng_offset r - cnt) (rng_count r)
  else r.

(** The table without the range of [o], the ranges above [off] moved
    down by [cnt]. *)
Definition remove_at (o : oid) (off cnt : nat) (tbl : t) : t :=
  map (shift_down off cnt)
      (List.filter (fun r => negb (Nat.eqb (rng_oid r) o)) tbl).

(** Modelled from the spec: [remove(object_id)] "deletes the range for
    object_id; all ranges whose offset exceeds the removed range's offset
    are shifted down by the removed count". *)
Definition remove (o : oid) (tbl : t) : t :=
  match lookup o tbl with
  | None => tbl
  | Some (off, cnt) => remove_at o off cnt tbl
  end.

(** No range of the table starts above [off]. *)
Definition is_last (off : nat) (tbl : t) : bool :=
  forallb (fun r => rng_offset r <=? off) tbl.

(** Modelled from the spec: [extend(object_id, added_count)] "grows an
    existing object's range in place only if it is the last range in
    offset order; otherwise fails with NonTerminalExtendError". *)
Definition extend (o : oid) (added : nat) (tbl : t) : result Error t :=
  match lookup o tbl with
  | None => Err MissingAttributeError
  | Some (off, cnt) =>
      if is_last off tbl
      then Ok (map (fun r => if Nat.eqb (rng_oid r) o
                             then mk_range o off (cnt + added) else r) tbl)
      else Err NonTerminalExtendError
  end.

(** Modelled from the spec, the invariant of a table over an array of
    length [len]: offsets non-decreasing in insertion order, ranges that do
    not overlap, no empty range, counts that sum to the length: the ranges
    follow one another from [start]. *)
Fixpoint contiguous (start : nat) (tbl : t) : Prop :=
  match tbl with
  | [] => True
  | r :: tbl' =>
      rng_offset r = start /\ 0 < rng_count r /\
      contiguous (start + rng_count r) tbl'
  end.

Definition well_formed (len : nat) (tbl : t) : Prop :=
  contiguous 0 tbl /\ total tbl = len /\ List.NoDup (map rng_oid tbl).

End IndexTable.

(** *** Objects, columns and property groups (specification, section 3) *)

Inductive SupportKind := depth | interval | none.

Definition SupportKind_eqb (a b : SupportKind) : bool :=
  match a, b with
  | depth, depth | interval, interval | none, none => true
  | _, _ => false
  end.

(** The support array of a kind. *)
Definition support_attr (k : SupportKind) : option attr :=
  match k with
  | depth => Some ADepth
  | interval => Some AFromTo
  | none => None
  end.

(** Modelled from the spec: ConcatenatedData, "name: column name, unique
    per owning object", "support_kind: one of {depth, interval, none}". *)
Record Column := mk_Column {
  col_name : string;
  col_kind : SupportKind
}.

(** Modelled from the spec: ConcatenatedPropertyGroup, a support kind, the
    support slice the group is bound to and the ordered members; [pg_rows]
    are the rows of the object's support the slice was written to. *)
Record PropertyGroup := mk_PropertyGroup {
  pg_kind : SupportKind;
  pg_support : list elt;
  pg_rows : list nat;
  pg_members : list string
}.

(** Modelled from the spec: the attribute blob of an object, as the typed
    block the design notes ask for. [default_collocation_distance] is the
    tolerance of a call that gives none (the attribute the test lists among
    those of a drillhole). *)
Record Blob := mk_Blob {
  default_collocation_distance : Q;
  columns : list Column;
  property_groups : list PropertyGroup
}.

(** Modelled from the spec: ConcatenatedStore. *)
Record Store := mk_Store {
  object_ids : list oid;
  attributes : gmap oid Blob;
  arrays : gmap attr (list elt);
  index : gmap attr IndexTable.t
}.

Definition empty_store : Store :=
  {| object_ids := []; attributes := ∅; arrays := ∅; index := ∅ |}.

Definition array_of (s : Store) (a : attr) : list elt :=
  match arrays s !! a with Some arr => arr | None => [] end.

Definition table_of (s : Store) (a : attr) : IndexTable.t :=
  match index s !! a with Some tbl => tbl | None => [] end.

Definition slice (off cnt : nat) (arr : list elt) : list elt :=
  firstn cnt (skipn off arr).

(** Modelled from the spec: [register_object() -> object_id] "allocates a
    new identifier, adds it to object_ids and attributes with an empty
    blob". The identifier is one above those in use. *)
Definition fresh_oid (s : Store) : oid :=
  S (fold_right Nat.max 0 (object_ids s)).

Definition register_object (default_tolerance : Q) (s : Store) : Store * oid :=
  let o := fresh_oid s in
  ({| object_ids := object_ids s ++ [o];
      attributes := <[o := mk_Blob default_tolerance [] []]> (attributes s);
      arrays := arrays s;
      index := index s |}, o).

Definition registered (s : Store) (o : oid) : bool :=
  existsb (Nat.eqb o) (object_ids s).

(** Modelled from the spec: [fetch_index(object_id, attribute_name) ->
    (offset, count)]. *)
Definition fetch_index (s : Store) (o : oid) (a : attr) : result Error (nat * nat) :=
  match IndexTable.lookup o (table_of s a) with
  | Some r => Ok r
  | None => Err MissingAttributeError
  end.

(** Modelled from the spec: [read_array(attribute_name, object_id) ->
    slice] "returns the object's (offset, count) view; fails with
    MissingAttributeError if the object has no range for that attribute". *)
Definition read_array (a : attr) (o : oid) (s : Store) : result Error (list elt) :=
  r <- fetch_index s o a ;;
  Ok (slice (fst r) (snd r) (array_of s a)).

Definition find_column (name : string) (cols : list Column) : option Column :=
  List.find (fun c => String.eqb (col_name c) name) cols.

(** The number of support rows of an object for a kind. *)
Definition support_length (s : Store) (o : oid) (k : SupportKind) : option nat :=
  match support_attr k with
  | None => None
  | Some a =>
      match IndexTable.lookup o (table_of s a) with
      | Some (_, cnt) => Some cnt
      | None => Some 0
      end
  end.

(** The length a write must have: the values of a listed column are
    written against the support of the column's kind. *)
Definition expected_length (s : Store) (a : attr) (o : oid) : option nat :=
  match a with
  | AData name =>
      match attributes s !! o with
      | Some blob =>
          match find_column name (columns blob) with
          | Some c => support_length s o (col_kind c)
          | None => None
          end
      | None => None
      end
  | _ => None
  end.

(** Validation of a write. *)
Definition validate_write (s : Store) (a : attr) (o : oid) (values : list elt)
  : result Error unit :=
  if negb (registered s o) then Err UnknownObjectError
  else match expected_length s a o with
       | Some n => if length values =? n then Ok tt else Err ShapeMismatchError
       | None => Ok tt
       end.

(** Relocation: "remove, re-append at the end, and copy forward". *)
Definition relocate (o : oid) (off cnt : nat) (values : list elt)
    (arr : list elt) (tbl : IndexTable.t) : result Error (list elt * IndexTable.t) :=
  let arr1 := firstn off arr ++ skipn (off + cnt) arr in
  let tbl1 := IndexTable.remove o tbl in
  r <- IndexTable.append o (length values) tbl1 ;;
  Ok (arr1 ++ values, snd r).

(** The staged copy of one attribute: the array and the table after the
    write, computed aside. *)
Definition stage (o : oid) (values : list elt)
    (arr : list elt) (tbl : IndexTable.t) : result Error (list elt * IndexTable.t) :=
  match IndexTable.lookup o tbl with
  | None =>
      match values with
      | [] => Ok (arr, tbl)
      | _ =>
          r <- IndexTable.append o (length values) tbl ;;
          Ok (arr ++ values, snd r)
      end
  | Some (off, cnt) =>
      if length values =? cnt
      then Ok (firstn off arr ++ values ++ skipn (off + cnt) arr, tbl)
      else
        match values with
        | [] => Ok (firstn off arr ++ skipn (off + cnt) arr, IndexTable.remove o tbl)
        | _ =>
            if cnt <? length values then
              match IndexTable.extend o (length values - cnt) tbl with
              | Ok tbl' => Ok (firstn off arr ++ values ++ skipn (off + cnt) arr, tbl')
              | Err NonTerminalExtendError => relocate o off cnt values arr tbl
              | Err e => Err e
              end
            else relocate o off cnt values arr tbl
        end
  end.

(** Modelled from the spec: [write_array(attribute_name, object_id,
    values)], "updates arrays[attribute_name] and index[attribute_name]
    together ... an in-memory staging copy is committed only after
    validation". The result is the store after the call and the outcome. *)
Definition write_array (a : attr) (o : oid) (values : list elt) (s : Store)
  : Store * result Error unit :=
  match (_ <- validate_write s a o values ;;
         stage o values (array_of s a) (table_of s a)) with
  | Err e => (s, Err e)
  | Ok (arr', tbl') =>
      ({| object_ids := object_ids s;
          attributes := attributes s;
          arrays := <[a := arr']> (arrays s);
          index := <[a := tbl']> (index s) |}, Ok tt)
  end.

(** The invariant of the store for one attribute, and for all. *)
Definition wf_attr (s : Store) (a : attr) : Prop :=
  IndexTable.well_formed (length (array_of s a)) (table_of s a).

Definition wf_store (s : Store) : Prop := forall a, wf_attr s a.

(** *** DepthMerger (specification, section 4.4) *)

(** [|x - e| <= t] *)
Definition within (t x e : Q) : bool := Qle_bool (Qabs (x - e)) t.

(** Modelled from the spec: the "two-pointer scan over E and N". [i] is
    the row of the head of [E], [next] the row the next unmatched sample is
    appended at. A sample within the tolerance of the row under the pointer
    takes it and both pointers advance; a sample below the row is
    unmatched; a row below the sample is passed. The result is the
    placement vector. *)
Fixpoint depth_scan (t : Q) (N : list Q) : list Q -> nat -> nat -> list nat :=
  match N with
  | [] => fun _ _ _ => []
  | x :: N' =>
      fix scan_existing (E : list Q) (i next : nat) : list nat :=
        match E with
        | [] => next :: depth_scan t N' [] i (S next)
        | e :: E' =>
            if within t x e then i :: depth_scan t N' E' (S i) next
            else if Qle_bool e x then scan_existing E' (S i) next
            else next :: depth_scan t N' E i (S next)
        end
  end.

(** The samples whose row is not a row of the existing support, in the
    order of arrival. *)
Fixpoint unmatched {A : Type} (m : nat) (N : list A) (place : list nat) : list A :=
  match N, place with
  | x :: N', r :: place' =>
      if m <=? r then x :: unmatched m N' place' else unmatched m N' place'
  | _, _ => []
  end.

(** Modelled from the spec: "Output: combined support array (E followed by
    appended unmatched N entries), and a placement vector of length n
    giving, for each input sample, the row index it was written to". *)
Definition depth_merge (E N : list Q) (t : Q) : list Q * list nat :=
  let place := depth_scan t N E 0 (length E) in
  (E ++ unmatched (length E) N place, place).

(** *** IntervalMerger (specification, section 4.5) *)

Definition pair_eqb (p q : Q * Q) : bool :=
  Qeq_bool (fst p) (fst q) && Qeq_bool (snd p) (snd q).

(** The first row of [E] equal to [p] in both bounds. *)
Fixpoint find_pair (p : Q * Q) (E : list (Q * Q)) (i : nat) : option nat :=
  match E with
  | [] => None
  | e :: E' => if pair_eqb p e then Some i else find_pair p E' (S i)
  end.

(** Modelled from the spec: "A new (from, to) pair is considered identical
    to an existing one only on exact equality of both bounds (no
    tolerance). Non-identical new pairs are appended as new rows." *)
Fixpoint interval_scan (E N : list (Q * Q)) (next : nat) : list nat :=
  match N with
  | [] => []
  | p :: N' =>
      match find_pair p E 0 with
      | Some i => i :: interval_scan E N' next
      | None => next :: interval_scan E N' (S next)
      end
  end.

Definition interval_merge (E N : list (Q * Q)) : list (Q * Q) * list nat :=
  let place := interval_scan E N (length E) in
  (E ++ unmatched (length E) N place, place).

(** *** ConcatenatedObject (specification, section 4.3) *)

Definition depth_of (e : elt) : option Q :=
  match e with Value v => Some v | _ => None end.

Definition bounds_of (e : elt) : option (Q * Q) :=
  match e with Bounds f t => Some (f, t) | _ => None end.

Definition make_bounds (p : Q * Q) : elt := Bounds (fst p) (snd p).

(** The values an object holds under an attribute; none when it has no
    range. *)
Definition values_of (s : Store) (o : oid) (a : attr) : list elt :=
  match read_array a o s with
  | Ok vs => vs
  | Err _ => []
  end.

(** The support rows of an object for a kind. *)
Definition support_of (s : Store) (o : oid) (k : SupportKind) : list elt :=
  match support_attr k with
  | Some a => values_of s o a
  | None => []
  end.

(** How a call places its values: on depth coordinates, on from-to
    intervals, on the rows of an existing property group (the call of the
    test that gives [property_group=] and values only), or on no support. *)
Inductive Placement :=
| ByDepth (coordinates : option (list Q))
| ByInterval (from_to : option (list (Q * Q)))
| ByGroup (group : nat)
| Unplaced.

Definition elt_eqb (a b : elt) : bool :=
  match a, b with
  | Missing, Missing => true
  | Value x, Value y => Qeq_bool x y
  | Bounds f t, Bounds f' t' => Qeq_bool f f' && Qeq_bool t t'
  | _, _ => false
  end.

Fixpoint slice_eqb (l1 l2 : list elt) : bool :=
  match l1, l2 with
  | [], [] => true
  | a :: l1', b :: l2' => elt_eqb a b && slice_eqb l1' l2'
  | _, _ => false
  end.

(** The group of a kind bound to a support slice. *)
Definition group_matches (k : SupportKind) (support : list elt) (g : PropertyGroup) : bool :=
  SupportKind_eqb (pg_kind g) k && slice_eqb (pg_support g) support.

Fixpoint find_group (k : SupportKind) (support : list elt)
    (groups : list PropertyGroup) (i : nat) : option nat :=
  match groups with
  | [] => None
  | g :: groups' =>
      if group_matches k support g then Some i
      else find_group k support groups' (S i)
  end.

(** Modelled from the spec: [find_or_create_property_group(support_kind)
    -> group] "returns the existing group matching support_kind if one
    exists with an identical support slice, otherwise creates a new empty
    group bound to that support". The result is the position of the group
    and the groups after the call. *)
Definition find_or_create_property_group
    (k : SupportKind) (support : list elt) (rows : list nat)
    (groups : list PropertyGroup) : nat * list PropertyGroup :=
  match find_group k support groups 0 with
  | Some i => (i, groups)
  | None => (length groups, groups ++ [mk_PropertyGroup k support rows []])
  end.

Definition add_member (name : string) (g : PropertyGroup) : PropertyGroup :=
  mk_PropertyGroup (pg_kind g) (pg_support g) (pg_rows g) (pg_members g ++ [name]).

Fixpoint add_member_at (i : nat) (name : string) (groups : list PropertyGroup)
  : list PropertyGroup :=
  match groups, i with
  | [], _ => []
  | g :: groups', 0 => add_member name g :: groups'
  | g :: groups', S i' => g :: add_member_at i' name groups'
  end.

(** The position of the first group that lists a column. *)
Fixpoint group_of (name : string) (groups : list PropertyGroup) : option nat :=
  match groups with
  | [] => None
  | g :: groups' =>
      if existsb (String.eqb name) (pg_members g) then Some 0
      else option_map S (group_of name groups')
  end.

(** The values of a column over [len] rows: [values[j]] at row
    [place[j]], the sentinel elsewhere. *)
Fixpoint scatter (place : list nat) (values : list elt) (acc : list elt) : list elt :=
  match place, values with
  | r :: place', v :: values' => scatter place' values' (<[r := v]> acc)
  | _, _ => acc
  end.

Definition column_values (len : nat) (place : list nat) (values : list elt) : list elt :=
  scatter place values (repeat Missing len).

Definition pad (len : nat) (values : list elt) : list elt :=
  values ++ repeat Missing (len - length values).

(** What the validation of a call leaves to the writes. *)
Record Plan := mk_Plan {
  plan_kind : SupportKind;
  plan_support : option (list elt);   (* the combined support, when it is written *)
  plan_key : option (list elt);       (* the support slice of the property group *)
  plan_group : option nat;            (* the group named by the call *)
  plan_place : list nat;
  plan_values : list elt
}.

(** The checks on the support and on the shapes, and the merge. A depth
    call may give fewer values than coordinates (the test writes 30 values
    on 50 depths and reads 50 back): the column is filled with the
    sentinel. *)
Definition plan_of (s : Store) (o : oid) (blob : Blob) (placement : Placement)
    (values : list elt) (t : Q) : result Error Plan :=
  match placement with
  | ByDepth None => Err MissingSupportError
  | ByDepth (Some N) =>
      if length N <? length values then Err ShapeMismatchError
      else
        let E := omap depth_of (support_of s o depth) in
        let '(combined, place) := depth_merge E N t in
        Ok (mk_Plan depth (Some (map Value combined)) (Some (map Value N)) None
                    place (pad (length N) values))
  | ByInterval None => Err MissingSupportError
  | ByInterval (Some N) =>
      if negb (length values =? length N) then Err ShapeMismatchError
      else
        let E := omap bounds_of (support_of s o interval) in
        let '(combined, place) := interval_merge E N in
        Ok (mk_Plan interval (Some (map make_bounds combined))
                    (Some (map make_bounds N)) None place values)
  | ByGroup g =>
      match nth_error (property_groups blob) g with
      | None => Err MissingSupportError
      | Some grp =>
          if negb (length values =? length (pg_rows grp)) then Err ShapeMismatchError
          else Ok (mk_Plan (pg_kind grp) None None (Some g) (pg_rows grp) values)
      end
  | Unplaced =>
      Ok (mk_Plan none None None None (seq 0 (length values)) values)
  end.

(** Sequencing of writes: the first failure ends the sequence. *)
Definition then_write (r : result Error Store) (w : Store -> Store * result Error unit)
  : result Error Store :=
  s <- r ;;
  match w s with
  | (s', Ok _) => Ok s'
  | (_, Err e) => Err e
  end.

(** The columns of a kind other than [name]. *)
Definition siblings (k : SupportKind) (name : string) (cols : list Column) : list string :=
  map col_name
    (List.filter (fun c => SupportKind_eqb (col_kind c) k
                           && negb (String.eqb (col_name c) name)) cols).

(** "All columns previously aligned to E receive the missing-value
    sentinel for these new rows." *)
Definition pad_column (o : oid) (len : nat) (c : string) (s : Store)
  : Store * result Error unit :=
  write_array (AData c) o (pad len (values_of s o (AData c))) s.

Definition set_blob (o : oid) (blob : Blob) (s : Store) : Store :=
  {| object_ids := object_ids s;
     attributes := <[o := blob]> (attributes s);
     arrays := arrays s;
     index := index s |}.

(** The blob once the column is listed and has joined its group. *)
Definition blob_with_column (blob : Blob) (name : string) (p : Plan) : Blob :=
  let groups :=
    match plan_group p, plan_key p with
    | Some g, _ => add_member_at g name (property_groups blob)
    | None, Some key =>
        let '(g, groups) :=
          find_or_create_property_group (plan_kind p) key (plan_place p)
            (property_groups blob) in
        add_member_at g name groups
    | None, None => property_groups blob
    end in
  mk_Blob (default_collocation_distance blob)
          (columns blob ++ [mk_Column name (plan_kind p)])
          groups.

(** The writes of a call: the support, the columns it shares the support
    with, the blob, the new column. *)
Definition run_plan (o : oid) (name : string) (blob : Blob) (p : Plan) (s : Store)
  : result Error Store :=
  let s1 :=
    match plan_support p, support_attr (plan_kind p) with
    | Some rows, Some a => then_write (Ok s) (write_array a o rows)
    | _, _ => Ok s
    end in
  let len := fun s' =>
    match support_attr (plan_kind p) with
    | Some _ => length (support_of s' o (plan_kind p))
    | None => length (plan_values p)
    end in
  let s2 :=
    fold_left (fun acc c => s' <- acc ;; then_write (Ok s') (pad_column o (len s') c))
              (siblings (plan_kind p) name (columns blob)) s1 in
  s3 <- s2 ;;
  let s4 := set_blob o (blob_with_column blob name p) s3 in
  then_write (Ok s4)
    (write_array (AData name) o (column_values (len s4) (plan_place p) (plan_values p))).

(** Modelled from the spec: [add_data(name, support_coordinates, values,
    support_kind, tolerance=None)], with its failures ("DuplicateColumnError
    if name already exists on the object, MissingSupportError if
    support_kind=depth and no coordinates are supplied,
    InvalidToleranceError if tolerance <= 0") checked before any write, the
    tolerance first. A failed call leaves the store as it was. *)
Definition add_data (o : oid) (name : string) (placement : Placement)
    (values : list elt) (tolerance : option Q) (s : Store)
  : Store * result Error unit :=
  let outcome :=
    if negb (registered s o) then Err UnknownObjectError
    else match attributes s !! o with
    | None => Err UnknownObjectError
    | Some blob =>
        let t := match tolerance with
                 | Some t => t
                 | None => default_collocation_distance blob
                 end in
        if Qle_bool t 0 then Err InvalidToleranceError
        else if existsb (fun c => String.eqb (col_name c) name) (columns blob)
        then Err DuplicateColumnError
        else
          p <- plan_of s o blob placement values t ;;
          run_plan o name blob p s
    end in
  match outcome with
  | Ok s' => (s', Ok tt)
  | Err e => (s, Err e)
  end.

(** The names of the columns of an object, as a reload of the store lists
    them. *)
Definition get_data_list (s : Store) (o : oid) : list string :=
  match attributes s !! o with
  | Some blob => map col_name (columns blob)
  | None => []
  end.

Definition remove_member (name : string) (g : PropertyGroup) : PropertyGroup :=
  mk_PropertyGroup (pg_kind g) (pg_support g) (pg_rows g)
    (List.filter (fun m => negb (String.eqb m name)) (pg_members g)).

(** The blob without a column; a group left without members goes too. *)
Definition blob_without_column (blob : Blob) (name : string) : Blob :=
  mk_Blob (default_collocation_distance blob)
    (List.filter (fun c => negb (String.eqb (col_name c) name)) (columns blob))
    (List.filter (fun g => negb (length (pg_members g) =? 0))
       (map (remove_member name) (property_groups blob))).

(** Modelled from the spec: [remove_data(name)] "clears the column's value
    slice; if no other column references the same support rows, the
    support rows themselves are also removed (full compaction); otherwise
    only the value slice is cleared (rows remain, values become
    sentinel)". *)
Definition remove_data (o : oid) (name : string) (s : Store)
  : Store * result Error unit :=
  let outcome :=
    if negb (registered s o) then Err UnknownObjectError
    else match attributes s !! o with
    | None => Err UnknownObjectError
    | Some blob =>
        match find_column name (columns blob) with
        | None => Err MissingAttributeError
        | Some c =>
            let s1 := set_blob o (blob_without_column blob name) s in
            match support_attr (col_kind c), siblings (col_kind c) name (columns blob) with
            | Some _, _ :: _ =>
                then_write (Ok s1)
                  (write_array (AData name) o
                     (repeat Missing (length (values_of s o (AData name)))))
            | Some a, [] =>
                then_write
                  (then_write (Ok s1) (write_array (AData name) o []))
                  (write_array a o [])
            | None, _ =>
                then_write (Ok s1) (write_array (AData name) o [])
            end
        end
    end in
  match outcome with
  | Ok s' => (s', Ok tt)
  | Err e => (s, Err e)
  end.

(** A store with one registered drillhole, as the tests start. *)
Definition one_well (default_tolerance : Q) : Store * oid :=
  register_object default_tolerance empty_store.

(** [np.arange(start, start + n)] *)
Fixpoint arange (start : Q) (n : nat) : list Q :=
  match n with
  | 0 => []
  | S n' => start :: arange (start + 1) n'
  end.

End Concat.

(* ===================================================================== *)
(** * Properties *)
(* ===================================================================== *)

(** ** PropertyGroup: the association stays VERTEX behind its property *)

Section PropertyGroupFacts.

Import PropertyGroupModel.

Context {DataAssociationEnum UUID : Type}.
Variable VERTEX : DataAssociationEnum.
Variable enum_getattr_upper : string -> option DataAssociationEnum.
Variable uuid_of_string : string -> option UUID.

Abbreviation PyVal := (@PyVal DataAssociationEnum UUID).
Abbreviation Instance := (gmap string PyVal).
Abbreviation setattr := (setattr enum_getattr_upper uuid_of_string).
Abbreviation set_association := (set_association enum_getattr_upper).
Abbreviation init_step := (init_step enum_getattr_upper uuid_of_string).
Abbreviation init_loop := (init_loop enum_getattr_upper uuid_of_string).
Abbreviation __init__ := (__init__ VERTEX enum_getattr_upper uuid_of_string).
Abbreviation assign_all := (assign_all enum_getattr_upper uuid_of_string).
Abbreviation vertex_inv := (vertex_inv VERTEX).

Lemma bypass_false (attr : string) :
  bypasses_property attr = false ->
  attr <> "_association"%string /\ attr <> "_attribute_map"%string /\
  attr <> "__dict__"%string /\ attr <> "__class__"%string.
Proof.
  unfold bypasses_property. intros H.
  apply orb_false_iff in H as [H H4]. apply orb_false_iff in H as [H H3].
  apply orb_false_iff in H as [H1 H2].
  apply String.eqb_neq in H1, H2, H3, H4. auto.
Qed.

Lemma vertex_inv_insert (self : Instance) (k : string) (v : PyVal) :
  k <> "_association"%string -> k <> "_attribute_map"%string ->
  vertex_inv self -> vertex_inv (<[k := v]> self).
Proof.
  intros H1 H2 [Ha Hm]. split.
  - rewrite lookup_insert_ne; auto.
  - rewrite lookup_insert_ne; auto.
Qed.

(** The setter leaves an instance whose association is set as it is. *)
Lemma set_association_noop (self : Instance) (v : PyVal) :
  vertex_inv self -> set_association self v = Ok self.
Proof.
  intros [Ha _]. unfold PropertyGroupModel.set_association. rewrite Ha. reflexivity.
Qed.

Lemma setattr_inv (self self' : Instance) (attr : string) (item : PyVal) :
  bypasses_property attr = false ->
  vertex_inv self ->
  setattr self attr item = Ok self' ->
  vertex_inv self'.
Proof.
  intros Hb Hinv. apply bypass_false in Hb as (Hb1 & Hb2 & Hb3 & Hb4).
  unfold PropertyGroupModel.setattr.
  repeat match goal with
  | |- context [String.eqb attr ?s] => destruct (String.eqb attr s) eqn:?
  end.
  - unfold set_parent. intros [= <-]. apply vertex_inv_insert; auto; discriminate.
  - unfold set_uid. destruct item; try (intros [= <-]; apply vertex_inv_insert; auto; discriminate).
    destruct (uuid_of_string s); [|discriminate].
    intros [= <-]. apply vertex_inv_insert; auto; discriminate.
  - unfold set_group_name. intros [= <-]. apply vertex_inv_insert; auto; discriminate.
  - rewrite set_association_noop by assumption. intros [= <-]. assumption.
  - unfold set_properties.
    destruct (py_iter item) as [items|]; [|discriminate]. cbn.
    destruct (convert_uids uuid_of_string items) as [props|]; [|discriminate]. cbn.
    destruct (self !! "_properties"%string) as [[]|]; try discriminate.
    intros [= <-]. apply vertex_inv_insert; auto; discriminate.
  - unfold set_property_group_type. intros [= <-]. apply vertex_inv_insert; auto; discriminate.
  - discriminate.
  - match goal with H : String.eqb attr "__dict__" = true |- _ =>
      apply String.eqb_eq in H; congruence end.
  - discriminate.
  - discriminate.
  - intros [= <-]. apply vertex_inv_insert; auto.
Qed.

Lemma class_map_public (attr : string) (v : PyVal) :
  assoc_get attr class_attribute_map = Some v ->
  exists attr', v = PStr attr' /\ bypasses_property attr' = false.
Proof.
  unfold class_attribute_map. cbn.
  repeat match goal with
  | |- context [String.eqb attr ?s] => destruct (String.eqb attr s)
  end; intros [= <-]; eexists; split; reflexivity.
Qed.

Lemma init_step_inv (self self' : Instance) (kw : string * PyVal) :
  bypasses_property (fst kw) = false ->
  vertex_inv self ->
  init_step self kw = Ok self' ->
  vertex_inv self'.
Proof.
  destruct kw as [attr item]. cbn [fst]. intros Hb Hinv.
  unfold PropertyGroupModel.init_step, _attribute_map.
  destruct Hinv as [Ha Hm]. rewrite Hm.
  destruct (assoc_get attr class_attribute_map) as [v|] eqn:Hget.
  - apply class_map_public in Hget as (attr' & -> & Hb').
    destruct (setattr self attr' item) as [s1|e] eqn:Hs.
    + intros [= <-]. eapply setattr_inv; eauto. split; assumption.
    + destruct e; try discriminate. intros [= <-]. split; assumption.
  - destruct (setattr self attr item) as [s1|e] eqn:Hs.
    + intros [= <-]. eapply setattr_inv; eauto. split; assumption.
    + destruct e; try discriminate. intros [= <-]. split; assumption.
Qed.

Lemma init_loop_inv (kwargs : list (string * PyVal)) :
  forall self self' : Instance,
  public_names kwargs ->
  vertex_inv self ->
  init_loop self kwargs = Ok self' ->
  vertex_inv self'.
Proof.
  induction kwargs as [|kw rest IH]; intros self self' Hpub Hinv; cbn.
  - intros [= <-]. assumption.
  - inversion Hpub as [|? ? Hkw Hrest]; subst.
    destruct (init_step self kw) as [s1|e] eqn:Hstep; cbn; [|discriminate].
    intros Hloop. apply (IH s1 self' Hrest); [|exact Hloop].
    exact (init_step_inv _ _ _ Hkw Hinv Hstep).
Qed.

Lemma assign_all_inv (stmts : list (string * PyVal)) :
  forall self self' : Instance,
  public_names stmts ->
  vertex_inv self ->
  assign_all self stmts = Ok self' ->
  vertex_inv self'.
Proof.
  induction stmts as [|[attr item] rest IH]; intros self self' Hpub Hinv; cbn.
  - intros [= <-]. assumption.
  - inversion Hpub as [|? ? Hkw Hrest]; subst. cbn [fst] in Hkw.
    destruct (setattr self attr item) as [s1|e] eqn:Hset; cbn; [|discriminate].
    intros Hloop. apply (IH s1 self' Hrest); [|exact Hloop].
    exact (setattr_inv _ _ _ _ Hkw Hinv Hset).
Qed.

Lemma init_fresh_inv (uid4 : UUID) (kwargs : list (string * PyVal)) (self : Instance) :
  public_names kwargs ->
  __init__ uid4 kwargs = Ok self ->
  vertex_inv self.
Proof.
  intros Hpub. unfold PropertyGroupModel.__init__.
  apply init_loop_inv; [assumption|].
  split; reflexivity.
Qed.

(** C9 (as amended). A [PropertyGroup] built by the constructor from
    keyword arguments none of which names the private slot [_association],
    the entry [_attribute_map], the instance dictionary [__dict__] or
    [__class__], has association [VERTEX]; it keeps it through every later
    sequence of attribute assignments with the same restriction, and every
    assignment [group.association = v], for all [v], directly or as a
    constructor keyword, returns without an exception and leaves the
    instance as it was. *)
Theorem association_always_vertex
    (uid4 : UUID) (kwargs stmts : list (string * PyVal)) (g g' : Instance) :
  public_names kwargs ->
  public_names stmts ->
  __init__ uid4 kwargs = Ok g ->
  assign_all g stmts = Ok g' ->
  association g = Some (PAssoc VERTEX) /\
  association g' = Some (PAssoc VERTEX) /\
  (forall v : PyVal,
     setattr g' "association" v = Ok g' /\
     init_step g' ("Association"%string, v) = Ok g' /\
     init_step g' ("association"%string, v) = Ok g').
Proof.
  intros Hk Hs Hinit Hassign.
  pose proof (init_fresh_inv _ _ _ Hk Hinit) as Hg.
  pose proof (assign_all_inv _ _ _ Hs Hg Hassign) as Hg'.
  split; [apply Hg|]. split; [apply Hg'|].
  intros v.
  assert (Hset : setattr g' "association" v = Ok g').
  { unfold PropertyGroupModel.setattr. cbn. apply set_association_noop; assumption. }
  split; [exact Hset|].
  destruct Hg' as [Ha Hm].
  unfold PropertyGroupModel.init_step, _attribute_map. rewrite Hm.
  change (assoc_get "Association" class_attribute_map)
    with (Some (PStr "association" : PyVal)).
  change (assoc_get "association" class_attribute_map) with (@None PyVal).
  cbv beta iota. rewrite Hset. split; reflexivity.
Qed.

End PropertyGroupFacts.

(** A group as the constructor leaves it without keywords, after the
    keyword [Group Name] and after a later assignment of the name. *)
Definition fresh_group : gmap string (@PropertyGroupModel.PyVal PropertyGroupModel.Association string) :=
  <["_parent"%string := PropertyGroupModel.PNone]>
  (<["_property_group_type"%string := PropertyGroupModel.PStr "multi-element"]>
  (<["_properties"%string := PropertyGroupModel.PList []]>
  (<["_association"%string := PropertyGroupModel.PAssoc PropertyGroupModel.VERTEX]>
  (<["_uid"%string := PropertyGroupModel.PUuid "00000000-0000-0000-0000-000000000001"%string]>
  (<["_group_name"%string := PropertyGroupModel.PStr "prop_group"]> ∅))))).

Definition named_group : gmap string (@PropertyGroupModel.PyVal PropertyGroupModel.Association string) :=
  <["_group_name"%string := PropertyGroupModel.PStr "assays"]> fresh_group.

Definition renamed_group : gmap string (@PropertyGroupModel.PyVal PropertyGroupModel.Association string) :=
  <["_group_name"%string := PropertyGroupModel.PStr "renamed"]> named_group.

Lemma file_kwargs_run :
  PropertyGroupModel.__init__ PropertyGroupModel.VERTEX
    PropertyGroupModel.association_by_name PropertyGroupModel.uuid_text
    "00000000-0000-0000-0000-000000000001"%string PropertyGroupModel.file_kwargs
  = Ok named_group.
Proof. reflexivity. Qed.

Lemma later_assignments_run :
  PropertyGroupModel.assign_all
    PropertyGroupModel.association_by_name PropertyGroupModel.uuid_text
    named_group PropertyGroupModel.later_assignments
  = Ok renamed_group.
Proof. reflexivity. Qed.

Lemma association_always_vertex_witness :
  PropertyGroupModel.association renamed_group
  = Some (PropertyGroupModel.PAssoc PropertyGroupModel.VERTEX).
Proof.
  refine (proj1 (proj2 (association_always_vertex PropertyGroupModel.VERTEX
    PropertyGroupModel.association_by_name PropertyGroupModel.uuid_text
    "00000000-0000-0000-0000-000000000001"%string
    PropertyGroupModel.file_kwargs PropertyGroupModel.later_assignments
    named_group renamed_group _ _ file_kwargs_run later_assignments_run))).
  - repeat constructor.
  - repeat constructor.
Defined.

(** C9 (as stated) fails where the claim says "for every PropertyGroup":
    the property is what guards the slot, and a keyword that names the
    slot itself writes it. *)
Example private_slot_bypass :
  (g <- PropertyGroupModel.__init__ PropertyGroupModel.VERTEX
          PropertyGroupModel.association_by_name PropertyGroupModel.uuid_text
          "00000000-0000-0000-0000-000000000001"%string
          [("_association"%string, PropertyGroupModel.PAssoc PropertyGroupModel.CELL)] ;;
   Ok (PropertyGroupModel.association g))
  = Ok (Some (PropertyGroupModel.PAssoc PropertyGroupModel.CELL)).
Proof. vm_compute. reflexivity. Qed.

(** Once the slot holds [None], an assignment through the property is no
    longer ignored. *)
Example association_assigned_after_reset :
  (g <- PropertyGroupModel.__init__ PropertyGroupModel.VERTEX
          PropertyGroupModel.association_by_name PropertyGroupModel.uuid_text
          "00000000-0000-0000-0000-000000000001"%string
          [("_association"%string, PropertyGroupModel.PNone);
           ("association"%string, PropertyGroupModel.PStr "cell")] ;;
   Ok (PropertyGroupModel.association g))
  = Ok (Some (PropertyGroupModel.PAssoc PropertyGroupModel.CELL)).
Proof. vm_compute. reflexivity. Qed.

(** So is it after the instance dictionary was replaced as a whole. *)
Example association_assigned_after_dict :
  (g <- PropertyGroupModel.__init__ PropertyGroupModel.VERTEX
          PropertyGroupModel.association_by_name PropertyGroupModel.uuid_text
          "00000000-0000-0000-0000-000000000001"%string
          [("__dict__"%string,
            PropertyGroupModel.PDict [("_association"%string, PropertyGroupModel.PNone)]);
           ("association"%string, PropertyGroupModel.PStr "cell")] ;;
   Ok (PropertyGroupModel.association g))
  = Ok (Some (PropertyGroupModel.PAssoc PropertyGroupModel.CELL)).
Proof. vm_compute. reflexivity. Qed.

(** ** Curve: assignments to [cells] *)

Section CurveFacts.

Import CurveModel.

Variable promote_types : dtype -> dtype -> dtype.

Abbreviation set_cells := (set_cells promote_types).
Abbreviation vstack := (vstack promote_types).

(** Assigning [None] over existing cells is refused and changes nothing. *)
Lemma set_cells_none_refused (self : Curve) (current : ndarray) :
  _cells self = Some current ->
  set_cells self ANone = (self, Some ValueError).
Proof. intros H. unfold CurveModel.set_cells. cbn. rewrite H. reflexivity. Qed.

(** Assigning an array with fewer rows is refused and changes nothing. *)
Lemma set_cells_fewer_refused (self : Curve) (current a : ndarray) (n m : nat) :
  _cells self = Some current ->
  shape_at current 0 = Ok n ->
  shape_at a 0 = Ok m ->
  m < n ->
  set_cells self (AArray a) = (self, Some ValueError).
Proof.
  intros Hc Hn Hm Hlt. unfold CurveModel.set_cells. cbn -[Nat.ltb].
  rewrite Hc, Hm, Hn. cbn -[Nat.ltb].
  apply Nat.ltb_lt in Hlt. rewrite Hlt. reflexivity.
Qed.

(** The same for a list, which is stacked first; a list that does not
    stack is refused by [np.vstack] itself. *)
Lemma set_cells_list_fewer_refused
    (self : Curve) (current : ndarray) (items : list ndarray) (n : nat) :
  _cells self = Some current ->
  shape_at current 0 = Ok n ->
  (forall a m, vstack items = Ok a -> shape_at a 0 = Ok m -> m < n) ->
  (forall a, vstack items = Ok a -> exists m, shape_at a 0 = Ok m) ->
  set_cells self (AList items) = (self, Some ValueError).
Proof.
  intros Hc Hn Hlt Hrows. unfold CurveModel.set_cells.
  destruct (vstack items) as [a|e] eqn:Hv; cbn -[Nat.ltb].
  - destruct (Hrows a eq_refl) as [m Hm].
    specialize (Hlt a m eq_refl Hm).
    rewrite Hc, Hm, Hn. cbn -[Nat.ltb].
    apply Nat.ltb_lt in Hlt. rewrite Hlt. reflexivity.
  - unfold CurveModel.vstack in Hv. destruct items as [|a0 rest]; cbn in Hv.
    + injection Hv as <-. reflexivity.
    + assert (He : e = ValueError).
      { revert Hv. generalize (atleast_2d a0). induction rest as [|b rest IH]; intros acc; cbn.
        - discriminate.
        - unfold stack_two.
          destruct (arr_shape acc) as [|? ?]; cbn; [intros [= <-]; reflexivity|].
          destruct (arr_shape (atleast_2d b)) as [|? ?]; cbn; [intros [= <-]; reflexivity|].
          destruct (list_nat_eqb _ _); cbn; [apply IH | intros [= <-]; reflexivity]. }
      subst e. reflexivity.
Qed.

(** A raised exception leaves the instance as it was, whatever the
    argument. *)
Lemma set_cells_raise_unchanged (self self' : Curve) (indices : indices_arg) (e : PyExc) :
  set_cells self indices = (self', Some e) -> self' = self.
Proof.
  unfold CurveModel.set_cells.
  repeat match goal with
  | |- context [match ?x with _ => _ end] => destruct x eqn:?
  end; intros [= <- ?]; try reflexivity; discriminate.
Qed.

(** What an accepted assignment guarantees: an array was given (or
    stacked), its element type is an integer type, its second axis has
    length 2, it is stored converted to [int32], [parts] is reset and the
    workspace is told. *)
Lemma set_cells_accepted (self self' : Curve) (indices : indices_arg) :
  set_cells self indices = (self', None) ->
  exists a : ndarray,
    (indices = AArray a \/ exists items, indices = AList items /\ vstack items = Ok a) /\
    is_integer (arr_dtype a) = true /\
    shape_at a 1 = Ok 2 /\
    _cells self' = Some (astype_int32 a) /\
    arr_dtype (astype_int32 a) = int32 /\
    _parts self' = None /\
    updated self' = "cells"%string :: updated self.
Proof.
  unfold CurveModel.set_cells.
  destruct indices as [|a|items]; cbn.
  - destruct (_cells self); cbn; discriminate.
  - intros H. exists a.
    destruct (match _cells self with Some _ => _ | None => _ end) as [[|]|]; try discriminate.
    destruct (shape_at a 1) as [c|] eqn:Hc; [|discriminate].
    destruct (c =? 2) eqn:Hc2; cbn in H; [|discriminate].
    destruct (is_integer (arr_dtype a)) eqn:Hi; cbn in H; [|discriminate].
    injection H as <-. apply Nat.eqb_eq in Hc2. subst c.
    repeat split; auto.
  - destruct (vstack items) as [a|e] eqn:Hv; cbn; [|discriminate].
    intros H. exists a.
    destruct (match _cells self with Some _ => _ | None => _ end) as [[|]|]; try discriminate.
    destruct (shape_at a 1) as [c|] eqn:Hc; [|discriminate].
    destruct (c =? 2) eqn:Hc2; cbn in H; [|discriminate].
    destruct (is_integer (arr_dtype a)) eqn:Hi; cbn in H; [|discriminate].
    injection H as <-. apply Nat.eqb_eq in Hc2. subst c.
    repeat split; eauto.
Qed.

(** Every stored element is in the range of a signed 32-bit integer. *)
Lemma wrap_int32_range (z : Z) :
  (- 2 ^ 31 <= wrap_int32 z < 2 ^ 31)%Z.
Proof.
  unfold wrap_int32.
  pose proof (Z.mod_pos_bound (z + 2 ^ 31) (2 ^ 32) ltac:(lia)). lia.
Qed.

Lemma wrap_int32_id (z : Z) :
  (- 2 ^ 31 <= z < 2 ^ 31)%Z -> wrap_int32 z = z.
Proof.
  intros H. unfold wrap_int32. rewrite Z.mod_small; lia.
Qed.

End CurveFacts.

(** An integer array with three axes, of shape (1, 2, 3). *)
Definition cells_3d : CurveModel.ndarray :=
  CurveModel.mk_ndarray CurveModel.int64 [1; 2; 3] [0; 0; 0; 0; 0; 0]%Z.

(** C10. The checks of the setter stop at the length of the second axis:
    on a curve without cells, an [int64] array of shape (1, 2, 3) is
    accepted and stored, although its shape is not the one the setter asks for (any number of rows, 2 columns). *)
Theorem cells_setter_accepts_three_axes (promote_types : CurveModel.dtype -> CurveModel.dtype -> CurveModel.dtype) :
  let self := CurveModel.mk_Curve None None [] in
  CurveModel.set_cells promote_types self (CurveModel.AArray cells_3d)
    = (CurveModel.mk_Curve (Some (CurveModel.astype_int32 cells_3d)) None ["cells"%string], None) /\
  CurveModel.arr_shape (CurveModel.astype_int32 cells_3d) = [1; 2; 3] /\
  ~ CurveModel.shape_star_2 (CurveModel.astype_int32 cells_3d).
Proof.
  cbn. split; [reflexivity|]. split; [reflexivity|].
  intros [n Hn]. cbn in Hn. discriminate.
Qed.

(** ** NoTypeObject.copy: the copy is the original up to identity *)

Section CopyFacts.

Import CopyModel.

Variable keeps_uid : uid -> bool.
Variable with_options : Options -> Entity -> Entity.

Abbreviation copy := (copy keeps_uid with_options).
Abbreviation copy_loop := (copy_loop keeps_uid with_options).
Abbreviation new_uid := (new_uid keeps_uid).
Abbreviation copyable := (copyable keeps_uid).

#[local] Set Default Proof Using "keeps_uid with_options".

(** Induction over entities that reaches the children. *)
Lemma Entity_children_ind (P : Entity -> Prop) :
  (forall u p n b a g cs, Forall P cs -> P (mk_Entity u p n b a g cs)) ->
  forall e, P e.
Proof using Type.
  intros H. fix IH 1. intros [u p n b a g cs]. apply H.
  induction cs as [|c cs IHcs]; constructor; [apply IH | exact IHcs].
Qed.

Lemma well_formed_children (u : uid) p n b a g (cs : list Entity) :
  well_formed (mk_Entity u p n b a g cs) ->
  List.NoDup (map e_uid cs) /\
  Forall (fun gr => Forall (fun v => In v (map e_uid cs)) (pg_properties gr)) g /\
  Forall well_formed cs.
Proof using Type.
  cbn. intros (Hnd & Hg & Hall). repeat split; auto.
  clear Hnd Hg. induction cs as [|c cs IH]; constructor; destruct Hall; auto.
Qed.

Lemma copyable_children (bound u : uid) p n b a g (cs : list Entity) :
  copyable bound (mk_Entity u p n b a g cs) ->
  List.NoDup (map e_uid cs) /\
  Forall (fun v => keeps_uid v = true -> v < bound) (map e_uid cs) /\
  Forall (fun gr => Forall (fun v => In v (map e_uid cs) \/ v < bound) (pg_properties gr)) g /\
  Forall (copyable bound) cs.
Proof using keeps_uid.
  cbn. intros (Hnd & Hk & Hg & Hall). repeat split; auto.
  clear Hnd Hk Hg. induction cs as [|c cs IH]; constructor; destruct Hall; auto.
Qed.

Lemma copyable_intro (bound u : uid) p n b a g (cs : list Entity) :
  List.NoDup (map e_uid cs) ->
  Forall (fun v => keeps_uid v = true -> v < bound) (map e_uid cs) ->
  Forall (fun gr => Forall (fun v => In v (map e_uid cs) \/ v < bound) (pg_properties gr)) g ->
  Forall (copyable bound) cs ->
  copyable bound (mk_Entity u p n b a g cs).
Proof using keeps_uid.
  intros Hnd Hk Hg Hall. cbn. repeat split; auto.
  clear Hnd Hk Hg. induction Hall as [|c cs Hc _ IH]; [exact I|split; assumption].
Qed.

(** A later supply asks less. *)
Lemma copyable_mono (e : Entity) :
  forall b b', b <= b' -> copyable b e -> copyable b' e.
Proof using keeps_uid.
  induction e as [u p0 nm bl a g cs IH] using Entity_children_ind.
  intros b b' Hle Hc. apply copyable_children in Hc as (Hnd & Hk & Hg & Hall).
  apply copyable_intro; [exact Hnd| | |].
  - eapply List.Forall_impl; [|exact Hk]. cbn beta. intros v Hv Hkeep.
    specialize (Hv Hkeep). lia.
  - eapply List.Forall_impl; [|exact Hg]. cbn beta. intros gr Hgr.
    eapply List.Forall_impl; [|exact Hgr]. cbn beta. intros v [Hv|Hv]; [left; exact Hv|right; lia].
  - rewrite List.Forall_forall in IH, Hall. apply List.Forall_forall. intros c Hin.
    exact (IH c Hin b b' Hle (Hall c Hin)).
Qed.

(** [copy] with [copy_children=True] and no option, its loop named. *)
Lemma copy_unfold (self : Entity) (parent next : uid) :
  copy self parent true default_options next =
  let '(copies, children_map, next') :=
    copy_loop (new_uid self next) (e_children self) ∅ (S next) in
  (mk_Entity (new_uid self next) (Some parent) (e_name self) (e_blob self) (e_arrays self)
     (match e_property_groups self with
      | [] => []
      | gs => copy_property_groups gs children_map
      end) copies, next').
Proof.
  destruct self as [u p n b a g cs].
  cbn [CopyModel.copy copy_to_parent is_default default_options clear_cache kwargs negb andb
       e_uid e_children e_name e_blob e_arrays e_property_groups e_parent app].
  generalize (∅ : gmap uid uid) (S next).
  set (new := CopyModel.new_uid keeps_uid (mk_Entity u p n b a g cs) next).
  assert (Hloop : forall cs' m k,
    (fix loop (children : list Entity) (children_map : gmap uid uid) (next0 : uid)
       : list Entity * gmap uid uid * uid :=
       match children with
       | [] => ([], children_map, next0)
       | child :: rest =>
           let '(child_copy, next1) := copy child new true default_options next0 in
           let children_map0 := <[e_uid child := e_uid child_copy]> children_map in
           let '(copies, children_map1, next2) := loop rest children_map0 next1 in
           (child_copy :: copies, children_map1, next2)
       end) cs' m k = copy_loop new cs' m k).
  { induction cs' as [|c cs' IH]; intros m k; [reflexivity|].
    cbn [CopyModel.copy_loop]. destruct (copy c new true default_options k) as [cc k1].
    rewrite IH. reflexivity. }
  intros m k. rewrite Hloop.
  destruct (copy_loop new cs m k) as [[copies m'] k']. destruct g; reflexivity.
Qed.

(** The copy takes the identifier [copy_to_parent] decides and hangs
    under the target parent; the supply grows. *)
Definition copy_head (e : Entity) : Prop :=
  forall (p n : uid) (c : Entity) (n' : uid),
    copy e p true default_options n = (c, n') ->
    e_uid c = new_uid e n /\ e_parent c = Some p /\ n < n'.

Lemma copy_loop_grows (new : uid) (cs : list Entity) :
  Forall copy_head cs ->
  forall (m0 : gmap uid uid) (n : uid) copies m n',
    copy_loop new cs m0 n = (copies, m, n') -> n <= n'.
Proof.
  induction 1 as [|c cs Hc _ IH]; intros m0 n copies m n'; cbn [CopyModel.copy_loop].
  - intros [= <- <- <-]. lia.
  - destruct (copy c new true default_options n) as [cc n1] eqn:Hcopy.
    destruct (copy_loop new cs _ n1) as [[copies' m'] n2] eqn:Hl.
    intros [= <- <- <-].
    destruct (Hc _ _ _ _ Hcopy) as (_ & _ & Hlt). specialize (IH _ _ _ _ _ Hl). lia.
Qed.

Lemma copy_head_all (e : Entity) : copy_head e.
Proof.
  induction e as [u p0 nm b a g cs IH] using Entity_children_ind.
  intros p n c n'. rewrite copy_unfold. cbn [e_children e_name e_blob e_arrays e_property_groups].
  destruct (copy_loop _ cs ∅ (S n)) as [[copies m] k] eqn:Hl.
  intros [= <- <-]. pose proof (copy_loop_grows _ _ IH _ _ _ _ _ Hl).
  repeat split; lia.
Qed.

Lemma copy_head_children (cs : list Entity) : Forall copy_head cs.
Proof. apply List.Forall_forall. intros c _. apply copy_head_all. Qed.

(** The keys the loop does not meet keep their entry. *)
Lemma copy_loop_other (new : uid) (cs : list Entity) :
  forall (m0 : gmap uid uid) (n : uid) copies m n' (k : uid),
    copy_loop new cs m0 n = (copies, m, n') ->
    ~ In k (map e_uid cs) ->
    m !! k = m0 !! k.
Proof.
  induction cs as [|c cs IH]; intros m0 n copies m n' k; cbn [CopyModel.copy_loop].
  - intros [= _ <- _] _. reflexivity.
  - destruct (copy c new true default_options n) as [cc n1].
    destruct (copy_loop new cs _ n1) as [[copies' m'] n2] eqn:Hl.
    intros [= _ <- _] Hk. cbn in Hk.
    rewrite (IH _ _ _ _ _ k Hl) by tauto.
    apply lookup_insert_ne. tauto.
Qed.

Lemma index_of_In (u : uid) (l : list uid) :
  In u l -> exists i, index_of u l = Some i.
Proof using Type.
  induction l as [|v l IH]; cbn; [intros []|].
  intros [->|H].
  - rewrite Nat.eqb_refl. exists 0. reflexivity.
  - destruct (Nat.eqb u v); [exists 0; reflexivity|].
    destruct (IH H) as [i ->]. cbn. exists (S i). reflexivity.
Qed.

Lemma index_of_Some_In (u : uid) (l : list uid) (i : nat) :
  index_of u l = Some i -> In u l.
Proof using Type.
  revert i. induction l as [|v l IH]; cbn; [discriminate|].
  intros i. destruct (Nat.eqb u v) eqn:E.
  - apply Nat.eqb_eq in E. auto.
  - destruct (index_of u l) as [j|]; [|discriminate]. intros _. right. eapply IH. reflexivity.
Qed.

Lemma index_of_not_In (u : uid) (l : list uid) :
  ~ In u l -> index_of u l = None.
Proof using Type.
  intros H. destruct (index_of u l) as [i|] eqn:E; [|reflexivity].
  exfalso. exact (H (index_of_Some_In _ _ _ E)).
Qed.

(** The identifiers of the copies the loop makes: the kept identifier of
    a child, or a new one from the supply of the loop. *)
Lemma copy_loop_range (new : uid) (cs : list Entity) :
  forall (m0 : gmap uid uid) (n : uid) copies m n',
    copy_loop new cs m0 n = (copies, m, n') ->
    Forall (fun w => (In w (map e_uid cs) /\ keeps_uid w = true) \/ n <= w < n')
           (map e_uid copies).
Proof.
  induction cs as [|c cs IH]; intros m0 n copies m n'; cbn [CopyModel.copy_loop].
  - intros [= <- <- <-]. constructor.
  - destruct (copy c new true default_options n) as [cc n1] eqn:Hcopy.
    destruct (copy_loop new cs _ n1) as [[copies' m'] n2] eqn:Hl.
    intros [= <- <- <-]. cbn [map].
    destruct (copy_head_all c _ _ _ _ Hcopy) as (Huid & _ & Hlt).
    pose proof (copy_loop_grows _ _ (copy_head_children cs) _ _ _ _ _ Hl) as Hle.
    constructor.
    + rewrite Huid. unfold CopyModel.new_uid.
      destruct (keeps_uid (e_uid c)) eqn:Hk; [left; split; [left; reflexivity|exact Hk]|right; lia].
    + eapply List.Forall_impl; [|exact (IH _ _ _ _ _ Hl)]. cbn beta.
      intros w [[Hin Hk]|Hr]; [left; split; [right; exact Hin|exact Hk]|right; lia].
Qed.

(** The copy of a child is none of the copies of the later children. *)
Lemma copy_loop_apart (new : uid) (c : Entity) (cs : list Entity)
    (m0 : gmap uid uid) (n : uid) (cc : Entity) (n1 : uid) copies m n' (bound : uid) :
  copy c new true default_options n = (cc, n1) ->
  copy_loop new cs m0 n1 = (copies, m, n') ->
  bound <= n ->
  ~ In (e_uid c) (map e_uid cs) ->
  (keeps_uid (e_uid c) = true -> e_uid c < bound) ->
  Forall (fun v => keeps_uid v = true -> v < bound) (map e_uid cs) ->
  ~ In (e_uid cc) (map e_uid copies).
Proof.
  intros Hcopy Hl Hb Hnotin Hkc Hkeep Hin.
  destruct (copy_head_all c _ _ _ _ Hcopy) as (Huid & _ & Hlt).
  pose proof (copy_loop_range _ _ _ _ _ _ _ Hl) as Hrange.
  rewrite List.Forall_forall in Hrange. specialize (Hrange _ Hin).
  rewrite Huid in Hrange. unfold CopyModel.new_uid in Hrange.
  destruct (keeps_uid (e_uid c)) eqn:Hk.
  - specialize (Hkc eq_refl). destruct Hrange as [[Hc' _]|Hr]; [contradiction|lia].
  - destruct Hrange as [[Hc' Hk']|Hr]; [|lia].
    rewrite List.Forall_forall in Hkeep. specialize (Hkeep _ Hc' Hk'). lia.
Qed.

(** The position of a remapped member among the copies is the position of
    the member among the children; a member that is no child and was
    drawn before the copy is among neither. *)
Lemma copy_loop_index (new : uid) (cs : list Entity) :
  forall (m0 : gmap uid uid) (n : uid) copies m n' (bound : uid),
    copy_loop new cs m0 n = (copies, m, n') ->
    bound <= n ->
    List.NoDup (map e_uid cs) ->
    Forall (fun v => keeps_uid v = true -> v < bound) (map e_uid cs) ->
    forall u, In u (map e_uid cs) \/ (u < bound /\ m0 !! u = None) ->
      index_of (remap m u) (map e_uid copies) = index_of u (map e_uid cs).
Proof.
  induction cs as [|c cs IH]; intros m0 n copies m n' bound; cbn [CopyModel.copy_loop].
  - intros [= <- <- <-] _ _ _ u _. reflexivity.
  - destruct (copy c new true default_options n) as [cc n1] eqn:Hcopy.
    destruct (copy_loop new cs _ n1) as [[copies' m'] n2] eqn:Hl.
    intros [= <- <- <-] Hb Hnd Hkeep u Hu. cbn [map] in *.
    inversion Hnd as [|? ? Hnotin Hnd']; subst.
    inversion Hkeep as [|? ? Hkc Hkeep']; subst.
    destruct (copy_head_all c _ _ _ _ Hcopy) as (Huid & _ & Hlt).
    pose proof (copy_loop_apart _ _ _ _ _ _ _ _ _ _ bound Hcopy Hl Hb Hnotin Hkc Hkeep')
      as Hhead.
    cbn [index_of]. destruct (Nat.eqb u (e_uid c)) eqn:E.
    + apply Nat.eqb_eq in E. subst u.
      unfold remap. rewrite (copy_loop_other _ _ _ _ _ _ _ _ Hl Hnotin).
      rewrite lookup_insert_eq, Nat.eqb_refl. reflexivity.
    + apply Nat.eqb_neq in E.
      assert (Hrest : index_of (remap m' u) (map e_uid copies') = index_of u (map e_uid cs)).
      { apply (IH _ _ _ _ _ bound Hl); [lia|exact Hnd'|exact Hkeep'|].
        destruct Hu as [[Heq|Hin]|[Hlt' Hnone]]; [congruence|left; exact Hin|].
        right. split; [exact Hlt'|]. rewrite lookup_insert_ne by congruence. exact Hnone. }
      assert (Hne : Nat.eqb (remap m' u) (e_uid cc) = false).
      { apply Nat.eqb_neq. intros Heq.
        destruct (index_of u (map e_uid cs)) as [i|] eqn:Hi.
        - apply Hhead. rewrite <- Heq. exact (index_of_Some_In _ _ _ Hrest).
        - (* [u] is no child: it is not remapped *)
          assert (Hnot : ~ In u (map e_uid cs)).
          { intros Hin. destruct (index_of_In _ _ Hin) as [j Hj]. congruence. }
          destruct Hu as [[Hu|Hu]|[Hlt' Hnone]]; [congruence|contradiction|].
          assert (Hm : m' !! u = None).
          { rewrite (copy_loop_other _ _ _ _ _ _ _ _ Hl Hnot).
            rewrite lookup_insert_ne by congruence. exact Hnone. }
          unfold remap in Heq. rewrite Hm in Heq.
          rewrite Huid in Heq. unfold CopyModel.new_uid in Heq.
          destruct (keeps_uid (e_uid c)); [congruence|lia]. }
      rewrite Hne, Hrest. reflexivity.
Qed.

(** A copy of an entity that can be compared has the shape of the
    entity. *)
Definition copy_shape (e : Entity) : Prop :=
  forall (p n : uid) (c : Entity) (n' bound : uid),
    copy e p true default_options n = (c, n') ->
    bound <= n -> copyable bound e -> erase c = erase e.

Lemma copy_loop_shape (new : uid) (cs : list Entity) :
  Forall copy_shape cs ->
  forall (m0 : gmap uid uid) (n : uid) copies m n' (bound : uid),
    copy_loop new cs m0 n = (copies, m, n') ->
    bound <= n -> Forall (copyable bound) cs ->
    map erase copies = map erase cs.
Proof.
  induction 1 as [|c cs Hc _ IH]; intros m0 n copies m n' bound; cbn [CopyModel.copy_loop].
  - intros [= <- <- <-] _ _. reflexivity.
  - destruct (copy c new true default_options n) as [cc n1] eqn:Hcopy.
    destruct (copy_loop new cs _ n1) as [[copies' m'] n2] eqn:Hl.
    intros [= <- <- <-] Hb Hall. inversion Hall as [|? ? Hcc Hall']; subst.
    destruct (copy_head_all c _ _ _ _ Hcopy) as (_ & _ & Hlt).
    cbn [map]. f_equal.
    + exact (Hc _ _ _ _ bound Hcopy Hb Hcc).
    + apply (IH _ _ _ _ _ bound Hl); [lia|exact Hall'].
Qed.

Lemma copy_shape_all (e : Entity) : copy_shape e.
Proof.
  induction e as [u p0 nm b a g cs IH] using Entity_children_ind.
  intros p n c n' bound. rewrite copy_unfold.
  cbn [e_children e_name e_blob e_arrays e_property_groups].
  destruct (copy_loop _ cs ∅ (S n)) as [[copies m] k] eqn:Hl.
  intros [= <- <-] Hb Hc.
  apply copyable_children in Hc as (Hnd & Hk & Hg & Hall).
  assert (Hgroups :
    map (fun gr => (pg_name gr,
                    map (fun v => index_of v (map e_uid copies)) (pg_properties gr)))
        (copy_property_groups g m) =
    map (fun gr => (pg_name gr,
                    map (fun v => index_of v (map e_uid cs)) (pg_properties gr))) g).
  { unfold copy_property_groups. rewrite List.map_map.
    apply List.map_ext_in. intros gr Hgr. cbn [pg_name pg_properties]. f_equal.
    rewrite List.map_map. apply List.map_ext_in. intros v Hv.
    apply (copy_loop_index _ _ _ _ _ _ _ bound Hl); [lia|exact Hnd|exact Hk|].
    rewrite List.Forall_forall in Hg. specialize (Hg _ Hgr).
    rewrite List.Forall_forall in Hg. destruct (Hg _ Hv) as [Hin|Hlt]; [left; exact Hin|].
    right. split; [exact Hlt|reflexivity]. }
  cbn [erase]. rewrite (copy_loop_shape _ _ IH _ _ _ _ _ bound Hl ltac:(lia) Hall). f_equal.
  destruct g as [|g0 gs]; [reflexivity | exact Hgroups].
Qed.


(** Distinct identifiers throughout the original, all of them and all
    members of property groups drawn before the copy: such an entity can
    be compared with its copy. *)
Lemma uid_in_uids (e : Entity) : In (e_uid e) (uids e).
Proof using Type. destruct e. left. reflexivity. Qed.





End CopyFacts.

(** A drillhole with one log and a property group listing it. *)
Definition well_with_log : CopyModel.Entity :=
  CopyModel.mk_Entity 1 None "well" [("Name", "well")]%string
    [("collar"%string, [0; 10; 10]%Q)]
    [CopyModel.mk_PropertyGroup "depth_0" [2]]
    [CopyModel.mk_Entity 2 (Some 1) "my_log" [] [("values"%string, [1; 2; 3]%Q)] [] []].

(** The two workspaces of the tests and of the specification: a copy
    into another workspace keeps the identifiers, a copy within the
    workspace draws new ones. *)
Definition other_workspace (u : CopyModel.uid) : bool := true.
Definition same_workspace (u : CopyModel.uid) : bool := false.

(** Options that change nothing. *)
Definition no_option (options : CopyModel.Options) (e : CopyModel.Entity) : CopyModel.Entity := e.



(** It fails as well where it has the copy receive a fresh identifier:
    copied into another workspace, the well keeps its own. *)
Example copy_keeps_identifier :
  CopyModel.e_uid
    (fst (CopyModel.copy other_workspace no_option well_with_log 0 true
            CopyModel.default_options 10))
  = CopyModel.e_uid well_with_log.
Proof. reflexivity. Qed.

(** An instance of the second parameter: the keyword [omit_list] names
    attributes that are not copied ([BaseEMSurvey.copy] of
    [surveys/electromagnetics/base.py] passes it on through the keyword
    arguments). *)
Definition omit_listed (options : CopyModel.Options) (e : CopyModel.Entity) : CopyModel.Entity :=
  match e with
  | CopyModel.mk_Entity u p n blob arrays groups children =>
      CopyModel.mk_Entity u p n
        (List.filter
           (fun attribute =>
              negb (existsb (fun kw => String.eqb (fst kw) "omit_list"
                                       && String.eqb (snd kw) (fst attribute))
                            (CopyModel.kwargs options)))
           blob)
        arrays groups children
  end.

(** With a keyword argument of this kind the blob of the copy is not the
    blob of the original: the comparison is one of copies made without
    options. *)
Example copy_with_keyword_differs :
  CopyModel.erase
    (fst (CopyModel.copy other_workspace omit_listed well_with_log 0 true
            (CopyModel.mk_Options false [("omit_list", "Name")]%string) 10))
  <> CopyModel.erase well_with_log.
Proof. cbn. discriminate. Qed.

(** ** IndexTable: the ranges stay contiguous *)

Section IndexTableFacts.

Import Concat.
Import Concat.IndexTable.

Lemma lookup_None_iff (o : oid) (tbl : t) :
  lookup o tbl = None <-> ~ In o (map rng_oid tbl).
Proof.
  induction tbl as [|r tbl IH]; cbn; [tauto|].
  destruct (Nat.eqb (rng_oid r) o) eqn:E.
  - apply Nat.eqb_eq in E. split; [discriminate | tauto].
  - apply Nat.eqb_neq in E. rewrite IH. tauto.
Qed.

Lemma lookup_app (o : oid) (tbl : t) (r : range) :
  lookup o (tbl ++ [r]) =
  match lookup o tbl with
  | Some x => Some x
  | None => if Nat.eqb (rng_oid r) o then Some (rng_offset r, rng_count r) else None
  end.
Proof.
  induction tbl as [|r0 tbl IH]; cbn; [reflexivity|].
  destruct (Nat.eqb (rng_oid r0) o); [reflexivity | exact IH].
Qed.

Lemma total_app (tbl : t) (r : range) :
  total (tbl ++ [r]) = total tbl + rng_count r.
Proof. induction tbl as [|r0 tbl IH]; cbn; lia. Qed.

Lemma contiguous_app (tbl : t) (r : range) :
  forall start,
    contiguous start tbl ->
    rng_offset r = start + total tbl ->
    0 < rng_count r ->
    contiguous start (tbl ++ [r]).
Proof.
  induction tbl as [|r0 tbl IH]; cbn; intros start Hc Hoff Hpos.
  - repeat split; auto; lia.
  - destruct Hc as (H1 & H2 & H3). repeat split; auto.
    apply IH; auto. lia.
Qed.

(** A range of a contiguous table lies inside it. *)
Lemma contiguous_lookup (o : oid) (tbl : t) :
  forall start off cnt,
    contiguous start tbl ->
    lookup o tbl = Some (off, cnt) ->
    start <= off /\ off + cnt <= start + total tbl /\ 0 < cnt.
Proof.
  induction tbl as [|r tbl IH]; cbn; intros start off cnt Hc; [discriminate|].
  destruct Hc as (H1 & H2 & H3).
  destruct (Nat.eqb (rng_oid r) o).
  - intros [= <- <-]. lia.
  - intros Hl. destruct (IH _ _ _ H3 Hl) as (? & ? & ?). lia.
Qed.

Lemma remove_at_oids (o : oid) (off cnt : nat) (tbl : t) :
  map rng_oid (remove_at o off cnt tbl)
  = List.filter (fun x => negb (Nat.eqb x o)) (map rng_oid tbl).
Proof.
  unfold remove_at. induction tbl as [|r tbl IH]; cbn; [reflexivity|].
  destruct (Nat.eqb (rng_oid r) o); cbn; [exact IH|].
  rewrite IH. f_equal. unfold shift_down. destruct (off <? rng_offset r); reflexivity.
Qed.

Lemma shift_down_above (off cnt : nat) (r : range) :
  off < rng_offset r ->
  shift_down off cnt r = mk_range (rng_oid r) (rng_offset r - cnt) (rng_count r).
Proof.
  intros H. unfold shift_down. apply Nat.ltb_lt in H. rewrite H. reflexivity.
Qed.

Lemma shift_down_below (off cnt : nat) (r : range) :
  rng_offset r <= off -> shift_down off cnt r = r.
Proof.
  intros H. unfold shift_down. apply Nat.ltb_ge in H. rewrite H. reflexivity.
Qed.

(** Above the removed range every range moves down. *)
Lemma remove_at_above (o : oid) (off cnt : nat) (tbl : t) :
  forall start,
    contiguous start tbl ->
    off < start -> cnt <= start ->
    ~ In o (map rng_oid tbl) ->
    contiguous (start - cnt) (remove_at o off cnt tbl) /\
    total (remove_at o off cnt tbl) = total tbl.
Proof.
  unfold remove_at.
  induction tbl as [|r tbl IH]; cbn; intros start Hc Hoff Hcnt Hin; [auto|].
  destruct Hc as (H1 & H2 & H3).
  destruct (Nat.eqb (rng_oid r) o) eqn:E.
  - apply Nat.eqb_eq in E. tauto.
  - cbn [negb map contiguous total]. rewrite shift_down_above by lia. cbn.
    destruct (IH (start + rng_count r) H3) as [IH1 IH2]; [lia | lia | tauto |].
    repeat split; try lia.
    match goal with
    | |- contiguous ?k _ => replace k with (start + rng_count r - cnt) by lia
    end.
    exact IH1.
Qed.

(** Removal keeps a table contiguous and takes the count of the removed
    range off the total. *)
Lemma remove_at_contiguous (o : oid) (tbl : t) :
  forall start off cnt,
    contiguous start tbl ->
    List.NoDup (map rng_oid tbl) ->
    lookup o tbl = Some (off, cnt) ->
    contiguous start (remove_at o off cnt tbl) /\
    total (remove_at o off cnt tbl) + cnt = total tbl.
Proof.
  induction tbl as [|r tbl IH]; cbn; intros start off cnt Hc Hnd; [discriminate|].
  destruct Hc as (H1 & H2 & H3).
  inversion Hnd as [|? ? Hnotin Hnd']; subst.
  unfold remove_at. cbn.
  destruct (Nat.eqb (rng_oid r) o) eqn:E; cbn.
  - intros [= <- <-]. apply Nat.eqb_eq in E. subst o.
    destruct (remove_at_above (rng_oid r) (rng_offset r) (rng_count r) tbl
                (rng_offset r + rng_count r) H3) as [Ha Hb]; [lia | lia | exact Hnotin |].
    replace (rng_offset r + rng_count r - rng_count r) with (rng_offset r) in Ha by lia.
    split; [exact Ha | unfold remove_at in Hb; lia].
  - intros Hl.
    destruct (contiguous_lookup _ _ _ _ _ H3 Hl) as (Hge & _ & _).
    destruct (IH _ _ _ H3 Hnd' Hl) as [IH1 IH2].
    cbn [negb map contiguous total].
    rewrite shift_down_below by lia. unfold remove_at in IH1, IH2.
    repeat split; auto. lia.
Qed.

Lemma remove_well_formed (o : oid) (len off cnt : nat) (tbl : t) :
  well_formed len tbl ->
  lookup o tbl = Some (off, cnt) ->
  well_formed (len - cnt) (remove o tbl) /\
  lookup o (remove o tbl) = None /\
  off + cnt <= len.
Proof.
  intros (Hc & Ht & Hnd) Hl. unfold remove. rewrite Hl.
  destruct (remove_at_contiguous _ _ _ _ _ Hc Hnd Hl) as [H1 H2].
  destruct (contiguous_lookup _ _ _ _ _ Hc Hl) as (_ & Hle & _).
  assert (Hoids := remove_at_oids o off cnt tbl).
  split; [|split].
  - split; [exact H1|]. split; [lia|].
    rewrite Hoids. apply List.NoDup_filter. exact Hnd.
  - apply lookup_None_iff. rewrite Hoids. intros Hin.
    apply List.filter_In in Hin as [_ Hin]. rewrite Nat.eqb_refl in Hin. discriminate.
  - lia.
Qed.

Lemma append_well_formed (o : oid) (len cnt : nat) (tbl : t) :
  well_formed len tbl ->
  lookup o tbl = None ->
  0 < cnt ->
  append o cnt tbl = Ok (len, tbl ++ [mk_range o len cnt]) /\
  well_formed (len + cnt) (tbl ++ [mk_range o len cnt]) /\
  lookup o (tbl ++ [mk_range o len cnt]) = Some (len, cnt).
Proof.
  intros (Hc & Ht & Hnd) Hl Hpos. unfold append. rewrite Hl, Ht.
  split; [reflexivity|]. split.
  - split; [|split].
    + apply contiguous_app; cbn; auto; lia.
    + rewrite total_app. cbn. lia.
    + rewrite List.map_app. cbn. apply List.NoDup_app.
      * exact Hnd.
      * constructor; [intros [] | constructor].
      * intros x Hx [<-|[]]. apply lookup_None_iff in Hl. tauto.
  - rewrite lookup_app, Hl. cbn. rewrite Nat.eqb_refl. reflexivity.
Qed.

(** The last range can grow where it is. *)
Lemma extend_contiguous (o : oid) (added : nat) (tbl : t) :
  forall start off cnt,
    contiguous start tbl ->
    lookup o tbl = Some (off, cnt) ->
    is_last off tbl = true ->
    let tbl' := map (fun r => if Nat.eqb (rng_oid r) o
                              then mk_range o off (cnt + added) else r) tbl in
    contiguous start tbl' /\
    total tbl' = total tbl + added /\
    lookup o tbl' = Some (off, cnt + added) /\
    map rng_oid tbl' = map rng_oid tbl /\
    off + cnt = start + total tbl.
Proof.
  induction tbl as [|r tbl IH]; cbn -[Nat.leb]; intros start off cnt Hc; [discriminate|].
  destruct Hc as (H1 & H2 & H3).
  destruct (Nat.eqb (rng_oid r) o) eqn:E.
  - intros [= <- <-] Hlast. apply andb_prop in Hlast as [_ Hlast].
    destruct tbl as [|r1 tbl].
    + cbn. rewrite Nat.eqb_refl. apply Nat.eqb_eq in E.
      repeat split; auto; try lia. cbn. congruence.
    + cbn -[Nat.leb] in Hlast, H3. apply andb_prop in Hlast as [Hle _].
      apply Nat.leb_le in Hle. lia.
  - intros Hl Hlast. apply andb_prop in Hlast as [_ Hlast].
    destruct (IH _ _ _ H3 Hl Hlast) as (I1 & I2 & I3 & I4 & I5).
    cbn. rewrite E. repeat split; auto; try lia. cbn. congruence.
Qed.

End IndexTableFacts.

(** ** The store: staged writes *)

Section StoreFacts.

Import Concat.

Lemma slice_written (off : nat) (values arr rest : list elt) :
  off <= length arr ->
  slice off (length values) (firstn off arr ++ values ++ rest) = values.
Proof.
  intros H. unfold slice.
  rewrite List.skipn_app.
  rewrite List.length_firstn, Nat.min_l by exact H.
  rewrite Nat.sub_diag. cbn [skipn].
  rewrite List.skipn_all2 by (rewrite List.length_firstn; lia). cbn [app].
  change (drop 0 (values ++ rest)) with (values ++ rest).
  rewrite List.firstn_app, Nat.sub_diag. cbn [firstn].
  rewrite List.firstn_all, List.app_nil_r. reflexivity.
Qed.

Lemma slice_appended (values arr : list elt) :
  slice (length arr) (length values) (arr ++ values) = values.
Proof.
  rewrite <- (List.firstn_all arr) at 2.
  rewrite <- (List.app_nil_r values) at 2.
  apply slice_written. lia.
Qed.

Lemma length_spliced (off cnt : nat) (arr : list elt) :
  off + cnt <= length arr ->
  length (firstn off arr ++ skipn (off + cnt) arr) = length arr - cnt.
Proof.
  intros H. rewrite List.length_app, List.length_firstn, List.length_skipn. lia.
Qed.

(** What staging yields on a well-formed attribute: it never fails, the
    pair it computes is well-formed again, and the object reads back the
    values it wrote. *)
Lemma stage_well_formed (o : oid) (values arr : list elt) (tbl : IndexTable.t) :
  IndexTable.well_formed (length arr) tbl ->
  exists arr' tbl',
    stage o values arr tbl = Ok (arr', tbl') /\
    IndexTable.well_formed (length arr') tbl' /\
    match values with
    | [] => IndexTable.lookup o tbl' = None
    | _ => exists off,
        IndexTable.lookup o tbl' = Some (off, length values) /\
        slice off (length values) arr' = values
    end.
Proof.
  intros Hwf. unfold stage.
  destruct (IndexTable.lookup o tbl) as [[off cnt]|] eqn:Hl.
  - destruct (remove_well_formed _ _ _ _ _ Hwf Hl) as (Hrm & Hrl & Hle).
    pose proof Hwf as (Hc & Ht & Hnd).
    destruct (contiguous_lookup _ _ _ _ _ Hc Hl) as (_ & _ & Hpos).
    assert (Hreloc : values <> [] ->
      exists arr' tbl',
        relocate o off cnt values arr tbl = Ok (arr', tbl') /\
        IndexTable.well_formed (length arr') tbl' /\
        exists off', IndexTable.lookup o tbl' = Some (off', length values) /\
                     slice off' (length values) arr' = values).
    { intros Hne. unfold relocate.
      assert (Hlen : 0 < length values) by (destruct values; cbn; [congruence|lia]).
      destruct (append_well_formed o _ (length values) _ Hrm Hrl Hlen) as (Ha & Hw & Hlk).
      rewrite Ha. cbn [bind snd].
      eexists _, _. split; [reflexivity|]. split.
      - rewrite List.length_app, length_spliced by exact Hle. exact Hw.
      - exists (length arr - cnt). split; [exact Hlk|].
        rewrite <- (length_spliced off cnt arr Hle). apply slice_appended. }
    destruct (length values =? cnt) eqn:Heq.
    + apply Nat.eqb_eq in Heq.
      eexists _, _. split; [reflexivity|]. split.
      * rewrite !List.length_app, List.length_firstn, List.length_skipn.
        replace (Nat.min off (length arr) + (length values + (length arr - (off + cnt))))
          with (length arr) by lia.
        exact Hwf.
      * destruct values as [|v values]; [cbn in Heq; lia|].
        exists off. rewrite Heq at 1. split; [exact Hl|].
        apply slice_written. lia.
    + destruct values as [|v values].
      * eexists _, _. split; [reflexivity|]. split; [|exact Hrl].
        rewrite length_spliced by exact Hle. exact Hrm.
      * set (vs := v :: values) in *.
        assert (Hne : vs <> []) by (subst vs; discriminate).
        destruct (cnt <? length vs) eqn:Hlt; [|exact (Hreloc Hne)].
        apply Nat.ltb_lt in Hlt.
        unfold IndexTable.extend. rewrite Hl.
        destruct (IndexTable.is_last off tbl) eqn:Hlast; [|exact (Hreloc Hne)].
        destruct (extend_contiguous o (length vs - cnt) tbl 0 off cnt Hc Hl Hlast)
          as (E1 & E2 & E3 & E4 & E5).
        eexists _, _. split; [reflexivity|]. split.
        { rewrite !List.length_app, List.length_firstn, List.length_skipn.
          split; [exact E1|]. split; [rewrite E2; lia|]. rewrite E4. exact Hnd. }
        exists off.
        split; [rewrite E3; do 2 f_equal; lia|]. apply slice_written. lia.
  - destruct values as [|v values].
    + eexists _, _. split; [reflexivity|]. split; [exact Hwf | exact Hl].
    + set (vs := v :: values) in *.
      assert (Hlen : 0 < length vs) by (subst vs; cbn; lia).
      destruct (append_well_formed o _ (length vs) _ Hwf Hl Hlen) as (Ha & Hw & Hlk).
      rewrite Ha. cbn [bind snd].
      eexists _, _. split; [reflexivity|]. split.
      * rewrite List.length_app. exact Hw.
      * exists (length arr). split; [exact Hlk | apply slice_appended].
Qed.

(** A refused write leaves the store as it is. *)
Lemma write_array_failure (a : attr) (o : oid) (values : list elt) (s s' : Store) (e : Error) :
  write_array a o values s = (s', Err e) -> s' = s.
Proof.
  unfold write_array.
  destruct (_ <- validate_write s a o values ;; stage o values (array_of s a) (table_of s a))
    as [[arr' tbl']|e']; intros H; inversion H; reflexivity.
Qed.

(** An accepted write commits the staged array and table of its
    attribute, both, and nothing else. *)
Lemma write_array_success (a : attr) (o : oid) (values : list elt) (s s' : Store) :
  write_array a o values s = (s', Ok tt) ->
  validate_write s a o values = Ok tt /\
  exists arr' tbl',
    stage o values (array_of s a) (table_of s a) = Ok (arr', tbl') /\
    arrays s' = <[a := arr']> (arrays s) /\
    index s' = <[a := tbl']> (index s) /\
    object_ids s' = object_ids s /\
    attributes s' = attributes s.
Proof.
  unfold write_array.
  destruct (validate_write s a o values) as [[]|e] eqn:Hv; cbn [bind];
    [|intros H; inversion H].
  destruct (stage o values (array_of s a) (table_of s a)) as [[arr' tbl']|e] eqn:Hs;
    [|intros H; inversion H].
  intros [= <-]. split; [reflexivity|]. exists arr', tbl'. cbn. auto.
Qed.

Lemma array_of_insert (s s' : Store) (a a' : attr) (arr' : list elt) :
  arrays s' = <[a := arr']> (arrays s) ->
  array_of s' a' = if decide (a = a') then arr' else array_of s a'.
Proof.
  intros H. unfold array_of. rewrite H, lookup_insert.
  destruct (decide (a = a')); reflexivity.
Qed.

Lemma table_of_insert (s s' : Store) (a a' : attr) (tbl' : IndexTable.t) :
  index s' = <[a := tbl']> (index s) ->
  table_of s' a' = if decide (a = a') then tbl' else table_of s a'.
Proof.
  intros H. unfold table_of. rewrite H, lookup_insert.
  destruct (decide (a = a')); reflexivity.
Qed.

(** The effect of an accepted write on a well-formed store. *)
Lemma write_array_effect (a : attr) (o : oid) (values : list elt) (s s' : Store) :
  write_array a o values s = (s', Ok tt) ->
  wf_attr s a ->
  wf_attr s' a /\
  values_of s' o a = values /\
  (forall a', a' <> a -> array_of s' a' = array_of s a' /\ table_of s' a' = table_of s a') /\
  object_ids s' = object_ids s /\
  attributes s' = attributes s.
Proof.
  intros Hw Hwf.
  destruct (write_array_success _ _ _ _ _ Hw) as (_ & arr' & tbl' & Hs & Ha & Hi & Ho & Hb).
  destruct (stage_well_formed o values _ _ Hwf) as (arr2 & tbl2 & Hs2 & Hwf2 & Hread).
  rewrite Hs in Hs2. injection Hs2 as <- <-.
  pose proof (array_of_insert s s' a a arr' Ha) as Harr.
  pose proof (table_of_insert s s' a a tbl' Hi) as Htbl.
  destruct (decide (a = a)); [|congruence].
  split; [|split; [|split; [|split]]]; auto.
  - unfold wf_attr. rewrite Harr, Htbl. exact Hwf2.
  - unfold values_of, read_array, fetch_index. rewrite Harr, Htbl.
    destruct values as [|v values].
    + rewrite Hread. reflexivity.
    + destruct Hread as (off & Hl & Hsl). rewrite Hl. cbn [bind fst snd]. exact Hsl.
  - intros a' Hne.
    rewrite (array_of_insert s s' a a' arr' Ha), (table_of_insert s s' a a' tbl' Hi).
    destruct (decide (a = a')); [congruence|]. auto.
Qed.

Lemma write_array_wf_store (a : attr) (o : oid) (values : list elt) (s s' : Store) (r : result Error unit) :
  write_array a o values s = (s', r) ->
  wf_store s -> wf_store s'.
Proof.
  intros Hw Hwf. destruct r as [[]|e].
  - destruct (write_array_effect _ _ _ _ _ Hw (Hwf a)) as (H1 & _ & H3 & _).
    intros a'. destruct (decide (a' = a)) as [->|Hne]; [exact H1|].
    unfold wf_attr. destruct (H3 a' Hne) as [-> ->]. apply Hwf.
  - apply write_array_failure in Hw. subst. exact Hwf.
Qed.

(** On a well-formed attribute only the validation can refuse a write. *)
Lemma write_array_accepts (a : attr) (o : oid) (values : list elt) (s : Store) :
  wf_attr s a ->
  validate_write s a o values = Ok tt ->
  exists s', write_array a o values s = (s', Ok tt).
Proof.
  intros Hwf Hv. unfold write_array. rewrite Hv. cbn [bind].
  destruct (stage_well_formed o values _ _ Hwf) as (arr' & tbl' & Hs & _).
  rewrite Hs. eexists. reflexivity.
Qed.

End StoreFacts.

(** ** DepthMerger: the placement of the two-pointer scan *)

Section DepthMergeFacts.

Import Concat.

Variable t : Q.

Lemma depth_scan_nil (x : Q) (N : list Q) (i next : nat) :
  depth_scan t (x :: N) [] i next = next :: depth_scan t N [] i (S next).
Proof. reflexivity. Qed.

Lemma depth_scan_cons (x e : Q) (N E : list Q) (i next : nat) :
  depth_scan t (x :: N) (e :: E) i next =
  if within t x e then i :: depth_scan t N E (S i) next
  else if Qle_bool e x then depth_scan t (x :: N) E (S i) next
  else next :: depth_scan t N (e :: E) i (S next).
Proof. reflexivity. Qed.

Lemma within_spec (x e : Q) :
  within t x e = true <-> (- t <= x - e /\ x - e <= t)%Q.
Proof.
  unfold within. rewrite Qle_bool_iff. apply Qabs_Qle_condition.
Qed.

(** A row passed by the scan is out of reach of the later samples. *)
Lemma passed_row_unreachable (x x' e : Q) :
  within t x e = false -> Qle_bool e x = true -> (x <= x')%Q ->
  within t x' e = false.
Proof.
  intros Hw Hle Hx. apply Qle_bool_iff in Hle.
  destruct (within t x' e) eqn:Hw'; [|reflexivity].
  apply within_spec in Hw' as [H1 H2].
  assert (Hc : within t x e = true) by (apply within_spec; split; lra).
  congruence.
Qed.

(** A sample below the row under the pointer is out of reach of the later
    rows. *)
Lemma low_sample_unmatched (x e e' : Q) :
  within t x e = false -> Qle_bool e x = false -> (e <= e')%Q ->
  within t x e' = false.
Proof.
  intros Hw Hle He.
  assert (Hlt : (x < e)%Q).
  { apply Qnot_le_lt. intros H. apply Qle_bool_iff in H. congruence. }
  destruct (within t x e') eqn:Hw'; [|reflexivity].
  apply within_spec in Hw' as [H1 H2].
  assert (Hc : within t x e = true) by (apply within_spec; split; lra).
  congruence.
Qed.

(** The placement vector has one row per sample. *)
Lemma depth_scan_length (N : list Q) :
  forall E i next, length (depth_scan t N E i next) = length N.
Proof.
  induction N as [|x N IHN]; [reflexivity|].
  induction E as [|e E IHE]; intros i next.
  - rewrite depth_scan_nil. cbn. rewrite IHN. reflexivity.
  - rewrite depth_scan_cons.
    destruct (within t x e); [cbn; rewrite IHN; reflexivity|].
    destruct (Qle_bool e x); [apply IHE | cbn; rewrite IHN; reflexivity].
Qed.

(** Every row of the placement is a row of the existing support not yet
    passed, or a new row; no row is given twice. *)
Lemma depth_scan_rows (N : list Q) :
  forall E i next,
    i + length E <= next ->
    Forall (fun r => i <= r < i + length E \/ next <= r) (depth_scan t N E i next) /\
    List.NoDup (depth_scan t N E i next).
Proof.
  induction N as [|x N IHN]; [intros; split; constructor|].
  induction E as [|e E IHE]; intros i next Hle.
  - rewrite depth_scan_nil.
    destruct (IHN [] i (S next)) as [H1 H2]; [cbn in *; lia|].
    split.
    + constructor; [lia|]. eapply List.Forall_impl; [|exact H1]. cbn. intros; lia.
    + constructor; [|exact H2]. intros Hin.
      rewrite List.Forall_forall in H1. specialize (H1 _ Hin). cbn in H1. lia.
  - rewrite depth_scan_cons. cbn [length] in *.
    destruct (within t x e).
    + destruct (IHN E (S i) next) as [H1 H2]; [lia|]. split.
      * constructor; [lia|]. eapply List.Forall_impl; [|exact H1]. cbn. intros; lia.
      * constructor; [|exact H2]. intros Hin.
        rewrite List.Forall_forall in H1. specialize (H1 _ Hin). cbn in H1. lia.
    + destruct (Qle_bool e x).
      * destruct (IHE (S i) next) as [H1 H2]; [lia|]. split; [|exact H2].
        eapply List.Forall_impl; [|exact H1]. cbn. intros; lia.
      * destruct (IHN (e :: E) i (S next)) as [H1 H2]; [cbn; lia|]. split.
        -- constructor; [lia|]. eapply List.Forall_impl; [|exact H1]. cbn. intros; lia.
        -- constructor; [|exact H2]. intros Hin.
           rewrite List.Forall_forall in H1. specialize (H1 _ Hin). cbn in H1. lia.
Qed.

(** A sample placed on an existing row is within the tolerance of it. *)
Lemma depth_scan_matched (N : list Q) :
  forall E i next j r,
    i + length E <= next ->
    nth_error (depth_scan t N E i next) j = Some r ->
    r < next ->
    exists x e,
      nth_error N j = Some x /\ nth_error E (r - i) = Some e /\
      i <= r /\ within t x e = true.
Proof.
  induction N as [|x N IHN]; [intros E i next [|j] r _ H; discriminate|].
  induction E as [|e E IHE]; intros i next j r Hle.
  - rewrite depth_scan_nil. destruct j as [|j]; cbn [nth_error].
    + intros [= <-] Hlt. lia.
    + intros Hj Hlt.
      destruct (IHN [] i (S next) j r) as (x' & e' & _ & He & _); [cbn in *; lia | exact Hj | lia |].
      destruct (r - i); discriminate.
  - rewrite depth_scan_cons. cbn [length] in Hle.
    destruct (within t x e) eqn:Hw.
    + destruct j as [|j]; cbn [nth_error].
      * intros [= <-] _. exists x, e. rewrite Nat.sub_diag. cbn. auto.
      * intros Hj Hlt.
        destruct (IHN E (S i) next j r) as (x' & e' & Hx & He & Hi & Hwi); [lia|exact Hj|lia|].
        exists x', e'. replace (r - i) with (S (r - S i)) by lia. cbn. repeat split; auto. lia.
    + destruct (Qle_bool e x).
      * intros Hj Hlt.
        destruct (IHE (S i) next j r) as (x' & e' & Hx & He & Hi & Hwi); [lia|exact Hj|lia|].
        exists x', e'. replace (r - i) with (S (r - S i)) by lia. cbn. repeat split; auto. lia.
      * destruct j as [|j]; cbn [nth_error].
        -- intros [= <-] Hlt. lia.
        -- intros Hj Hlt.
           destruct (IHN (e :: E) i (S next) j r) as (x' & e' & Hx & He & Hi & Hwi);
             [cbn; lia | exact Hj | lia |].
           exists x', e'. auto.
Qed.

(** The unmatched samples take the new rows in the order of arrival. *)
Lemma depth_scan_unmatched (m : nat) (N : list Q) :
  forall E i next j r,
    i + length E = m -> m <= next ->
    nth_error (depth_scan t N E i next) j = Some r ->
    m <= r ->
    exists k, r = next + k /\
      nth_error (unmatched m N (depth_scan t N E i next)) k = nth_error N j /\
      nth_error N j <> None.
Proof.
  induction N as [|x N IHN]; [intros E i next [|j] r _ _ H; discriminate|].
  induction E as [|e E IHE]; intros i next j r Hm Hle.
  - rewrite depth_scan_nil. cbn [unmatched].
    assert (Hb : (m <=? next) = true) by (apply Nat.leb_le; lia). rewrite Hb.
    destruct j as [|j]; cbn [nth_error].
    + intros [= <-] _. exists 0. split; [lia|]. cbn. split; [reflexivity | discriminate].
    + intros Hj Hr.
      destruct (IHN [] i (S next) j r Hm ltac:(lia) Hj Hr) as (k & -> & Hk & Hn).
      exists (S k). split; [lia|]. cbn. auto.
  - rewrite depth_scan_cons. cbn [length] in Hm.
    destruct (within t x e).
    + cbn [unmatched].
      assert (Hb : (m <=? i) = false) by (apply Nat.leb_gt; lia). rewrite Hb.
      destruct j as [|j]; cbn [nth_error].
      * intros [= <-] Hr. lia.
      * intros Hj Hr. apply (IHN E (S i) next j r); auto. lia.
    + destruct (Qle_bool e x).
      * intros Hj Hr. apply (IHE (S i) next j r); auto. lia.
      * cbn [unmatched].
        assert (Hb : (m <=? next) = true) by (apply Nat.leb_le; lia). rewrite Hb.
        destruct j as [|j]; cbn [nth_error].
        -- intros [= <-] _. exists 0. split; [lia|]. cbn. split; [reflexivity | discriminate].
        -- intros Hj Hr.
           destruct (IHN (e :: E) i (S next) j r ltac:(cbn; lia) ltac:(lia) Hj Hr)
             as (k & -> & Hk & Hn).
           exists (S k). split; [lia|]. cbn. auto.
Qed.

End DepthMergeFacts.

Section DepthGreedyFacts.

Import Concat.

Variable t : Q.

Lemma sorted_head_le (x : Q) (N : list Q) (j : nat) (x' : Q) :
  StronglySorted Qle (x :: N) -> nth_error (x :: N) j = Some x' -> (x <= x')%Q.
Proof.
  intros Hs Hj. inversion Hs as [|? ? _ Hall]; subst.
  destruct j as [|j]; cbn in Hj.
  - injection Hj as <-. apply Qle_refl.
  - rewrite List.Forall_forall in Hall. apply Hall. eapply nth_error_In. exact Hj.
Qed.

(** The scan is greedy from the left: whenever a sample is within the
    tolerance of a row, either an earlier sample has taken that row or the
    sample takes a row at or before it. *)
Lemma depth_scan_greedy (N : list Q) :
  forall E i next,
    StronglySorted Qle N -> StronglySorted Qle E ->
    forall j x r e,
      nth_error N j = Some x -> nth_error E r = Some e ->
      within t x e = true ->
      (exists j', j' < j /\ nth_error (depth_scan t N E i next) j' = Some (i + r)) \/
      (exists r', r' <= r /\ nth_error (depth_scan t N E i next) j = Some (i + r')).
Proof.
  induction N as [|x0 N IHN]; [intros E i next _ _ [|j] x r e H; discriminate|].
  induction E as [|e0 E IHE]; intros i next HsN HsE j x r e Hx He Hw.
  - destruct r; discriminate.
  - rewrite depth_scan_cons.
    assert (HsN' : StronglySorted Qle N) by (inversion HsN; assumption).
    assert (HsE' : StronglySorted Qle E) by (inversion HsE; assumption).
    destruct (within t x0 e0) eqn:Hw0.
    + destruct j as [|j]; cbn [nth_error] in *.
      * right. exists 0. split; [lia|]. rewrite Nat.add_0_r. reflexivity.
      * destruct r as [|r]; cbn [nth_error] in He.
        -- left. exists 0. split; [lia|]. rewrite Nat.add_0_r. reflexivity.
        -- destruct (IHN E (S i) next HsN' HsE' j x r e Hx He Hw)
             as [(j' & Hlt & Hj')|(r' & Hle & Hr')].
           ++ left. exists (S j'). split; [lia|]. cbn.
              rewrite Hj'. f_equal. lia.
           ++ right. exists (S r'). split; [lia|]. rewrite Hr'. f_equal. lia.
    + destruct (Qle_bool e0 x0) eqn:Hle0.
      * destruct r as [|r]; cbn [nth_error] in He.
        -- injection He as <-.
           pose proof (sorted_head_le _ _ _ _ HsN Hx) as Hxx.
           rewrite (passed_row_unreachable t x0 x e0 Hw0 Hle0 Hxx) in Hw. discriminate.
        -- destruct (IHE (S i) next HsN HsE' j x r e Hx He Hw)
             as [(j' & Hlt & Hj')|(r' & Hle & Hr')].
           ++ left. exists j'. split; [lia|]. rewrite Hj'. f_equal. lia.
           ++ right. exists (S r'). split; [lia|]. rewrite Hr'. f_equal. lia.
      * destruct j as [|j]; cbn [nth_error] in *.
        -- injection Hx as <-.
           pose proof (sorted_head_le _ _ _ _ HsE He) as Hee.
           rewrite (low_sample_unmatched t x0 e0 e Hw0 Hle0 Hee) in Hw. discriminate.
        -- destruct (IHN (e0 :: E) i (S next) HsN' HsE j x r e Hx He Hw)
             as [(j' & Hlt & Hj')|(r' & Hle & Hr')].
           ++ left. exists (S j'). split; [lia|]. exact Hj'.
           ++ right. exists r'. split; [lia|]. exact Hr'.
Qed.

(** The rows of the combined support. *)
Lemma unmatched_length_le {A : Type} (m : nat) (N : list A) (place : list nat) :
  length (unmatched m N place) <= length N.
Proof.
  revert place. induction N as [|x N IH]; intros [|r place]; cbn; try lia.
  destruct (m <=? r); cbn; specialize (IH place); lia.
Qed.

Lemma unmatched_all_matched {A : Type} (m : nat) (N : list A) (place : list nat) :
  Forall (fun r => r < m) place -> unmatched m N place = [].
Proof.
  revert place. induction N as [|x N IH]; intros [|r place] H; cbn; try reflexivity.
  inversion H as [|? ? Hr Hrest]; subst.
  assert (Hb : (m <=? r) = false) by (apply Nat.leb_gt; lia).
  rewrite Hb. apply IH. exact Hrest.
Qed.

End DepthGreedyFacts.

(** ** ConcatenatedObject: the writes of [add_data] *)

Section ObjectFacts.

Import Concat.

Lemma nth_error_lookup {A : Type} (l : list A) (i : nat) : nth_error l i = l !! i.
Proof. revert i. induction l as [|x l IH]; intros [|i]; cbn; auto. Qed.

Lemma values_of_ext (s s' : Store) (o : oid) (a : attr) :
  array_of s' a = array_of s a -> table_of s' a = table_of s a ->
  values_of s' o a = values_of s o a.
Proof.
  intros Ha Ht. unfold values_of, read_array, fetch_index. rewrite Ha, Ht. reflexivity.
Qed.

Lemma then_write_Ok (s s' : Store) (w : Store -> Store * result Error unit) :
  then_write (Ok s) w = Ok s' <-> w s = (s', Ok tt).
Proof.
  unfold then_write. cbn [bind]. destruct (w s) as [s1 [[]|e]]; split; intros H;
    inversion H; reflexivity.
Qed.

(** The number of support rows, as the validation of a write sees it. *)
Lemma support_length_wf (s : Store) (o : oid) (k : SupportKind) (a : attr) :
  support_attr k = Some a -> wf_attr s a ->
  support_length s o k = Some (length (support_of s o k)).
Proof.
  intros Hk (Hc & Ht & _). unfold support_length, support_of. rewrite Hk.
  unfold values_of, read_array, fetch_index.
  destruct (IndexTable.lookup o (table_of s a)) as [[off cnt]|] eqn:Hl; cbn [bind fst snd].
  - destruct (contiguous_lookup _ _ _ _ _ Hc Hl) as (_ & Hle & _).
    unfold slice. rewrite List.length_firstn, List.length_skipn. f_equal. lia.
  - reflexivity.
Qed.

Lemma find_column_In (c0 : Column) (cols : list Column) :
  List.NoDup (map col_name cols) -> In c0 cols ->
  find_column (col_name c0) cols = Some c0.
Proof.
  unfold find_column.
  induction cols as [|c cols IH]; cbn; intros Hnd Hin; [tauto|].
  inversion Hnd as [|? ? Hnotin Hnd']; subst.
  destruct Hin as [->|Hin].
  - rewrite String.eqb_refl. reflexivity.
  - destruct (String.eqb (col_name c) (col_name c0)) eqn:E.
    + apply String.eqb_eq in E. exfalso. apply Hnotin. rewrite E.
      apply List.in_map. exact Hin.
    + apply IH; assumption.
Qed.

Lemma length_pad (len : nat) (values : list elt) :
  length values <= len -> length (pad len values) = len.
Proof.
  intros H. unfold pad. rewrite List.length_app, List.repeat_length. lia.
Qed.

Lemma pad_full (len : nat) (values : list elt) :
  len <= length values -> pad len values = values.
Proof.
  intros H. unfold pad. replace (len - length values) with 0 by lia.
  cbn. apply List.app_nil_r.
Qed.

(** Writing the values of a listed column of the right length. *)
Lemma write_column_accepts (s : Store) (o : oid) (blob : Blob) (c0 : Column)
    (a : attr) (values : list elt) :
  wf_store s ->
  registered s o = true ->
  attributes s !! o = Some blob ->
  List.NoDup (map col_name (columns blob)) ->
  In c0 (columns blob) ->
  support_attr (col_kind c0) = Some a ->
  length values = length (support_of s o (col_kind c0)) ->
  exists s', write_array (AData (col_name c0)) o values s = (s', Ok tt).
Proof.
  intros Hwf Hreg Hblob Hnd Hin Ha Hlen.
  apply write_array_accepts; [apply Hwf|].
  unfold validate_write, expected_length. rewrite Hreg, Hblob. cbn [negb].
  rewrite (find_column_In _ _ Hnd Hin).
  rewrite (support_length_wf _ _ _ _ Ha (Hwf a)).
  rewrite Hlen, Nat.eqb_refl. reflexivity.
Qed.

(** The loop over the columns that share the support: each is filled
    with the sentinel up to the new number of rows. *)
Lemma pad_siblings (o : oid) (blob : Blob) (k : SupportKind) (a : attr) (L : nat)
    (len : Store -> nat) (cs : list string) :
  support_attr k = Some a ->
  List.NoDup (map col_name (columns blob)) ->
  (forall c, In c cs -> exists c0, In c0 (columns blob) /\ col_name c0 = c /\ col_kind c0 = k) ->
  forall s,
    wf_store s ->
    registered s o = true ->
    attributes s !! o = Some blob ->
    length (support_of s o k) = L ->
    (forall s', array_of s' a = array_of s a -> table_of s' a = table_of s a -> len s' = L) ->
    (forall c, In c cs -> length (values_of s o (AData c)) <= L) ->
    exists s',
      fold_left (fun acc c => s' <- acc ;; then_write (Ok s') (pad_column o (len s') c))
                cs (Ok s) = Ok s' /\
      wf_store s' /\
      object_ids s' = object_ids s /\
      attributes s' = attributes s /\
      (forall a', (forall c, In c cs -> a' <> AData c) ->
         array_of s' a' = array_of s a' /\ table_of s' a' = table_of s a') /\
      (forall c, In c cs -> values_of s' o (AData c) = pad L (values_of s o (AData c))).
Proof.
  intros Ha Hnd. induction cs as [|c cs IH]; intros Hcols s Hwf Hreg Hblob HL Hlen Hle.
  - exists s. cbn. split; [reflexivity|]. split; [exact Hwf|].
    split; [reflexivity|]. split; [reflexivity|].
    split; [intros; split; reflexivity | intros c []].
  - cbn [fold_left bind].
    destruct (Hcols c (or_introl eq_refl)) as (c0 & Hin0 & Hname & Hkind).
    assert (Hlens : len s = L) by (apply Hlen; reflexivity).
    assert (Hw : exists s1, pad_column o (len s) c s = (s1, Ok tt)).
    { unfold pad_column. rewrite <- Hname.
      apply (write_column_accepts s o blob c0 a); auto.
      - rewrite Hkind. exact Ha.
      - rewrite Hkind, HL, Hlens, Hname. apply length_pad. apply Hle. left. reflexivity. }
    destruct Hw as [s1 Hw]. rewrite (proj2 (then_write_Ok _ _ _) Hw).
    pose proof Hw as Hw'. unfold pad_column in Hw'.
    destruct (write_array_effect _ _ _ _ _ Hw' (Hwf _)) as (_ & Hval & Hframe & Hids & Hattr).
    assert (Hwf1 : wf_store s1) by (eapply write_array_wf_store; eauto).
    assert (Hsup : array_of s1 a = array_of s a /\ table_of s1 a = table_of s a).
    { apply Hframe. intros ->. destruct k; discriminate. }
    destruct (IH (fun c' Hc' => Hcols c' (or_intror Hc')) s1 Hwf1) as
      (s' & Hfold & Hwf' & Hids' & Hattr' & Hframe' & Hvals').
    + unfold registered. rewrite Hids. exact Hreg.
    + rewrite Hattr. exact Hblob.
    + unfold support_of. rewrite Ha.
      rewrite (values_of_ext s s1 o a) by apply Hsup.
      unfold support_of in HL. rewrite Ha in HL. exact HL.
    + intros s2 H1 H2. apply Hlen; [rewrite H1|rewrite H2]; apply Hsup.
    + intros c' Hc'. destruct (string_dec c' c) as [->|Hne].
      * rewrite Hval, Hlens. rewrite length_pad; [lia|]. apply Hle. left. reflexivity.
      * rewrite (values_of_ext s s1 o (AData c')) by (apply Hframe; congruence).
        apply Hle. right. exact Hc'.
    + exists s'. split; [exact Hfold|]. split; [exact Hwf'|].
      split; [congruence|]. split; [congruence|]. split.
      * intros a' Hne.
        destruct (Hframe' a') as [H1 H2]; [intros c' Hc'; apply Hne; right; exact Hc'|].
        destruct (Hframe a') as [H3 H4]; [apply Hne; left; reflexivity|].
        split; congruence.
      * intros c' [<-|Hc'].
        -- destruct (List.in_dec string_dec c cs) as [Hin|Hnotin].
           ++ rewrite (Hvals' c Hin), Hval, Hlens.
              apply pad_full. rewrite length_pad; [lia|]. apply Hle. left. reflexivity.
           ++ rewrite (values_of_ext s1 s' o (AData c)).
              ** rewrite Hval, Hlens. reflexivity.
              ** apply Hframe'. intros c' Hc' [= ->]. contradiction.
              ** apply Hframe'. intros c' Hc' [= ->]. contradiction.
        -- rewrite (Hvals' c' Hc').
           destruct (string_dec c' c) as [->|Hne].
           ++ rewrite Hval, Hlens. apply pad_full.
              rewrite length_pad; [lia|]. apply Hle. left. reflexivity.
           ++ rewrite (values_of_ext s s1 o (AData c')) by (apply Hframe; congruence).
              reflexivity.
Qed.

End ObjectFacts.

(* ===================================================================== *)
(** * Further properties of the sources *)
(* ===================================================================== *)

(** ** PropertyGroup: keywords, setters and what they leave alone *)

Section PropertyGroupMore.

Import PropertyGroupModel.

Context {DataAssociationEnum UUID : Type}.
Variable VERTEX : DataAssociationEnum.
Variable enum_getattr_upper : string -> option DataAssociationEnum.
Variable uuid_of_string : string -> option UUID.

Abbreviation PyVal' := (@PyVal DataAssociationEnum UUID).
Abbreviation Instance' := (gmap string PyVal').
Abbreviation setattr' := (setattr enum_getattr_upper uuid_of_string).
Abbreviation set_properties' := (set_properties uuid_of_string).
Abbreviation init_step' := (init_step enum_getattr_upper uuid_of_string).
Abbreviation init_loop' := (init_loop enum_getattr_upper uuid_of_string).
Abbreviation init' := (__init__ VERTEX enum_getattr_upper uuid_of_string).
Abbreviation convert_uids' := (@convert_uids DataAssociationEnum UUID uuid_of_string).

(** The keys of the class attribute map are the five file keys. *)
Lemma class_map_cases (key : string) (v : PyVal') :
  assoc_get key class_attribute_map = Some v ->
  (key = "Association" /\ v = PStr "association") \/
  (key = "Group Name" /\ v = PStr "group_name") \/
  (key = "ID" /\ v = PStr "uid") \/
  (key = "Properties" /\ v = PStr "properties") \/
  (key = "Property Group Type" /\ v = PStr "property_group_type").
Proof.
  unfold class_attribute_map. cbn.
  destruct (String.eqb key "Association") eqn:E1;
    [apply String.eqb_eq in E1; intros [= <-]; auto|].
  destruct (String.eqb key "Group Name") eqn:E2;
    [apply String.eqb_eq in E2; intros [= <-]; auto|].
  destruct (String.eqb key "ID") eqn:E3;
    [apply String.eqb_eq in E3; intros [= <-]; auto 6|].
  destruct (String.eqb key "Properties") eqn:E4;
    [apply String.eqb_eq in E4; intros [= <-]; auto 6|].
  destruct (String.eqb key "Property Group Type") eqn:E5;
    [apply String.eqb_eq in E5; intros [= <-]; auto 8|].
  discriminate.
Qed.

(** A keyword given under its file key acts as the keyword given under the
    Python name the attribute map sends it to. *)
Theorem file_key_as_python_name
    (self : Instance') (key name : string) (item : PyVal') :
  self !! "_attribute_map"%string = None ->
  assoc_get key class_attribute_map = Some (PStr name : PyVal') ->
  init_step' self (key, item) = init_step' self (name, item).
Proof.
  intros Hm Hget.
  unfold PropertyGroupModel.init_step, _attribute_map. rewrite Hm, Hget.
  assert (Hn : assoc_get name class_attribute_map = @None PyVal').
  { destruct (class_map_cases _ _ Hget) as [[_ H]|[[_ H]|[[_ H]|[[_ H]|[_ H]]]]];
      injection H as ->; reflexivity. }
  rewrite Hn. reflexivity.
Qed.

(** Assignments to [properties] add up: the second assignment appends to
    what the first left, nothing is replaced. *)
Theorem properties_accumulate
    (self s1 s2 : Instance') (first second : list PyVal') :
  set_properties uuid_of_string self (PList first) = Ok s1 ->
  set_properties uuid_of_string s1 (PList second) = Ok s2 ->
  exists old c1 c2,
    self !! "_properties"%string = Some (PList old) /\
    convert_uids' first = Ok c1 /\
    convert_uids' second = Ok c2 /\
    length c1 = length first /\ length c2 = length second /\
    s2 !! "_properties"%string = Some (PList (old ++ c1 ++ c2)).
Proof.
  assert (Hlen : forall l c, convert_uids' l = Ok c -> length c = length l).
  { induction l as [|x l IH]; cbn; intros c.
    - intros [= <-]. reflexivity.
    - destruct (match x with PStr s => _ | _ => _ end) as [x'|]; cbn; [|discriminate].
      destruct (convert_uids' l) as [l'|]; cbn; [|discriminate].
      intros [= <-]. cbn. rewrite (IH l' eq_refl). reflexivity. }
  unfold PropertyGroupModel.set_properties. cbn [py_iter bind].
  destruct (convert_uids' first) as [c1|] eqn:H1; cbn [bind]; [|discriminate].
  destruct (self !! "_properties"%string) as [[]|] eqn:Hp; try discriminate.
  intros [= <-].
  destruct (convert_uids' second) as [c2|] eqn:H2; cbn [bind]; [|discriminate].
  rewrite lookup_insert_eq. intros [= <-].
  exists l, c1, c2. repeat split; eauto.
  rewrite lookup_insert_eq, <- List.app_assoc. reflexivity.
Qed.

(** The read-only [attribute_map] can be passed as a keyword: the
    [AttributeError] is caught and the instance stays as it is. *)
Theorem attribute_map_keyword_ignored (self : Instance') (item : PyVal') :
  self !! "_attribute_map"%string = None ->
  init_step enum_getattr_upper uuid_of_string self ("attribute_map"%string, item) = Ok self.
Proof.
  intros Hm. unfold PropertyGroupModel.init_step, _attribute_map. rewrite Hm.
  reflexivity.
Qed.


(** The entry of the instance dictionary an assignment may write. *)
Definition slot_written (attr : string) : string :=
  if String.eqb attr "parent" then "_parent"
  else if String.eqb attr "uid" then "_uid"
  else if String.eqb attr "group_name" then "_group_name"
  else if String.eqb attr "association" then "_association"
  else if String.eqb attr "properties" then "_properties"
  else if String.eqb attr "property_group_type" then "_property_group_type"
  else attr.

(** In the model an assignment that does not replace the instance
    dictionary leaves every entry but one as it is. *)
Lemma setattr_other_entries
    (self self' : Instance') (attr : string) (item : PyVal') (k : string) :
  attr <> "__dict__"%string ->
  setattr' self attr item = Ok self' ->
  k <> slot_written attr ->
  self' !! k = self !! k.
Proof.
  intros Hd. unfold PropertyGroupModel.setattr, slot_written.
  destruct (String.eqb attr "parent").
  { unfold set_parent. intros [= <-] Hk. apply lookup_insert_ne. congruence. }
  destruct (String.eqb attr "uid").
  { unfold set_uid. intros H Hk.
    destruct item; try (injection H as <-; apply lookup_insert_ne; congruence).
    destruct (uuid_of_string s); [|discriminate].
    injection H as <-. apply lookup_insert_ne. congruence. }
  destruct (String.eqb attr "group_name").
  { unfold set_group_name. intros [= <-] Hk. apply lookup_insert_ne. congruence. }
  destruct (String.eqb attr "association").
  { unfold PropertyGroupModel.set_association. intros H Hk.
    destruct (self !! "_association"%string) as [cur|]; [|discriminate].
    destruct cur; try (injection H as <-; reflexivity).
    destruct (match item with PStr s => _ | _ => _ end) as [v|]; cbn in H; [|discriminate].
    destruct v; try discriminate.
    injection H as <-. apply lookup_insert_ne. congruence. }
  destruct (String.eqb attr "properties").
  { unfold PropertyGroupModel.set_properties. intros H Hk.
    destruct (py_iter item) as [items|]; cbn in H; [|discriminate].
    destruct (convert_uids' items) as [props|]; cbn in H; [|discriminate].
    destruct (self !! "_properties"%string) as [[]|]; try discriminate.
    injection H as <-. apply lookup_insert_ne. congruence. }
  destruct (String.eqb attr "property_group_type").
  { unfold set_property_group_type. intros [= <-] Hk. apply lookup_insert_ne. congruence. }
  destruct (String.eqb attr "attribute_map"); [discriminate|].
  destruct (String.eqb attr "__dict__") eqn:E; [apply String.eqb_eq in E; congruence|].
  destruct (String.eqb attr "__class__"); [discriminate|].
  destruct (String.eqb attr "__weakref__"); [discriminate|].
  intros [= <-] Hk. apply lookup_insert_ne. congruence.
Qed.

(** An assignment rebinds at most one entry of the instance: the slot
    behind the property, or the entry of that very name. The two
    assignments that do more are left out: [__dict__] replaces every
    entry, and [properties] extends the list it finds in place, which any
    other holder of that list sees. *)
Theorem setattr_writes_one_slot
    (self self' : Instance') (attr : string) (item : PyVal') (k : string) :
  attr <> "__dict__"%string ->
  attr <> "properties"%string ->
  setattr enum_getattr_upper uuid_of_string self attr item = Ok self' ->
  k <> slot_written attr ->
  self' !! k = self !! k.
Proof.
  intros Hd _ Hset Hk. exact (setattr_other_entries _ _ _ _ _ Hd Hset Hk).
Qed.

(** The keywords that change which map the constructor reads, or which
    setter a name reaches: the entry that shadows the class attribute
    map, the instance dictionary as a whole, the class of the instance. *)
Definition replaces_map (key : string) : bool :=
  String.eqb key "_attribute_map" || String.eqb key "__dict__"
  || String.eqb key "__class__".

(** The keywords that reach the identifier. *)
Definition names_identifier (key : string) : bool :=
  String.eqb key "ID" || String.eqb key "uid" || String.eqb key "_uid"
  || replaces_map key.

Lemma slot_written_cases (attr : string) :
  slot_written attr = attr \/
  (attr = "parent" /\ slot_written attr = "_parent") \/
  (attr = "uid" /\ slot_written attr = "_uid") \/
  (attr = "group_name" /\ slot_written attr = "_group_name") \/
  (attr = "association" /\ slot_written attr = "_association") \/
  (attr = "properties" /\ slot_written attr = "_properties") \/
  (attr = "property_group_type" /\ slot_written attr = "_property_group_type").
Proof.
  unfold slot_written.
  destruct (String.eqb attr "parent") eqn:E1;
    [apply String.eqb_eq in E1; auto|].
  destruct (String.eqb attr "uid") eqn:E2;
    [apply String.eqb_eq in E2; auto 6|].
  destruct (String.eqb attr "group_name") eqn:E3;
    [apply String.eqb_eq in E3; auto 6|].
  destruct (String.eqb attr "association") eqn:E4;
    [apply String.eqb_eq in E4; auto 8|].
  destruct (String.eqb attr "properties") eqn:E5;
    [apply String.eqb_eq in E5; auto 10|].
  destruct (String.eqb attr "property_group_type") eqn:E6;
    [apply String.eqb_eq in E6; auto 10|].
  auto.
Qed.

(** One keyword that leaves the map alone, in a state where the class
    map is read: every entry the keyword does not write is kept. *)
Lemma init_step_other_entries (self self' : Instance') (kw : string * PyVal') (k : string) :
  replaces_map (fst kw) = false ->
  self !! "_attribute_map"%string = None ->
  init_step' self kw = Ok self' ->
  (forall attr, (attr = fst kw \/ assoc_get (fst kw) class_attribute_map = Some (PStr attr : PyVal')) ->
                k <> slot_written attr) ->
  self' !! k = self !! k.
Proof.
  destruct kw as [key item]. cbn [fst]. unfold replaces_map. intros Hn Hm.
  apply orb_false_iff in Hn as [Hn H3]. apply orb_false_iff in Hn as [H1 H2].
  apply String.eqb_neq in H1, H2, H3.
  unfold PropertyGroupModel.init_step, _attribute_map. rewrite Hm.
  assert (Hstep : forall attr,
    attr <> "__dict__"%string ->
    k <> slot_written attr ->
    (let body := setattr' self attr item in
     match body with
     | Err AttributeError => Ok self
     | r => r
     end) = Ok self' ->
    self' !! k = self !! k).
  { intros attr A1 A2 Hs. cbv zeta in Hs.
    destruct (setattr' self attr item) as [s1|e] eqn:Hset.
    - injection Hs as <-. exact (setattr_other_entries _ _ _ _ _ A1 Hset A2).
    - destruct e; try discriminate. injection Hs as <-. reflexivity. }
  destruct (assoc_get key class_attribute_map) as [v|] eqn:Hget.
  - intros Hs Hk.
    destruct (class_map_cases _ _ Hget) as [[_ ->]|[[_ ->]|[[_ ->]|[[_ ->]|[_ ->]]]]];
      (match type of Hs with
       | context [PropertyGroupModel.setattr _ _ self ?a item] =>
           refine (Hstep a _ _ Hs); [discriminate | apply Hk; right; reflexivity]
       end).
  - intros Hs Hk. refine (Hstep key _ _ Hs); [exact H2 | apply Hk; left; reflexivity].
Qed.

Lemma init_step_keeps_map (self self' : Instance') (kw : string * PyVal') :
  replaces_map (fst kw) = false ->
  self !! "_attribute_map"%string = None ->
  init_step' self kw = Ok self' ->
  self' !! "_attribute_map"%string = None.
Proof.
  intros Hn Hm Hs. rewrite <- Hm.
  apply (init_step_other_entries _ _ _ _ Hn Hm Hs).
  intros attr [->|Hget].
  - destruct (slot_written_cases (fst kw)) as [->|[[_ ->]|[[_ ->]|[[_ ->]|[[_ ->]|[[_ ->]|[_ ->]]]]]]];
      try discriminate.
    unfold replaces_map in Hn.
    apply orb_false_iff in Hn as [Hn _]. apply orb_false_iff in Hn as [Hn _].
    apply String.eqb_neq in Hn. congruence.
  - destruct (class_map_cases _ _ Hget) as [[_ H]|[[_ H]|[[_ H]|[[_ H]|[_ H]]]]];
      injection H as ->; discriminate.
Qed.



(** An assignment of one keyword that leaves the map and the identifier
    alone. *)
Lemma init_step_keeps_uid (self self' : Instance') (kw : string * PyVal') :
  names_identifier (fst kw) = false ->
  self !! "_attribute_map"%string = None ->
  init_step' self kw = Ok self' ->
  self' !! "_uid"%string = self !! "_uid"%string /\
  self' !! "_attribute_map"%string = None.
Proof.
  unfold names_identifier. intros Hn Hm Hs.
  apply orb_false_iff in Hn as [Hn Hr]. apply orb_false_iff in Hn as [Hn H3].
  apply orb_false_iff in Hn as [H1 H2].
  apply String.eqb_neq in H1, H2, H3.
  split; [|exact (init_step_keeps_map _ _ _ Hr Hm Hs)].
  apply (init_step_other_entries _ _ _ _ Hr Hm Hs).
  intros attr [->|Hget].
  - destruct (slot_written_cases (fst kw)) as [->|[[_ ->]|[[? _]|[[_ ->]|[[_ ->]|[[_ ->]|[_ ->]]]]]]];
      try discriminate; congruence.
  - destruct (class_map_cases _ _ Hget) as [[_ H]|[[_ H]|[[Hk _]|[[_ H]|[_ H]]]]];
      try (injection H as ->; discriminate). congruence.
Qed.

(** The constructor keeps the identifier it drew unless a keyword names
    the identifier, the attribute map, the instance dictionary or the
    class. *)
Theorem constructor_keeps_drawn_uid
    (uid4 : UUID) (kwargs : list (string * PyVal')) (g : Instance') :
  Forall (fun kw => names_identifier (fst kw) = false) kwargs ->
  __init__ VERTEX enum_getattr_upper uuid_of_string uid4 kwargs = Ok g ->
  g !! "_uid"%string = Some (PUuid uid4).
Proof.
  intros Hk. unfold PropertyGroupModel.__init__.
  set (self0 := <["_parent"%string := PNone]> _).
  assert (H0 : self0 !! "_uid"%string = Some (PUuid uid4 : PyVal') /\
               self0 !! "_attribute_map"%string = None) by (split; reflexivity).
  clearbody self0. revert self0 H0.
  induction Hk as [|kw rest Hkw Hrest IH]; intros self0 [Hu Hm]; cbn.
  - intros [= <-]. exact Hu.
  - destruct (init_step' self0 kw) as [s1|e] eqn:Hstep; cbn; [|discriminate].
    destruct (init_step_keeps_uid _ _ _ Hkw Hm Hstep) as [Hu1 Hm1].
    apply IH. split; [congruence | exact Hm1].
Qed.

End PropertyGroupMore.

Definition group_of_one_keyword : gmap string (@PropertyGroupModel.PyVal PropertyGroupModel.Association string) :=
  <["_properties"%string := PropertyGroupModel.PList []]> ∅.

Lemma file_key_as_python_name_witness :
  PropertyGroupModel.init_step PropertyGroupModel.association_by_name
    PropertyGroupModel.uuid_text group_of_one_keyword
    ("Group Name"%string, PropertyGroupModel.PStr "assays")
  = PropertyGroupModel.init_step PropertyGroupModel.association_by_name
      PropertyGroupModel.uuid_text group_of_one_keyword
      ("group_name"%string, PropertyGroupModel.PStr "assays").
Proof.
  apply (file_key_as_python_name PropertyGroupModel.association_by_name
           PropertyGroupModel.uuid_text group_of_one_keyword
           "Group Name" "group_name").
  - reflexivity.
  - reflexivity.
Defined.

Definition group_after_first : gmap string (@PropertyGroupModel.PyVal PropertyGroupModel.Association string) :=
  <["_properties"%string :=
      PropertyGroupModel.PList
        [PropertyGroupModel.PUuid "00000000-0000-0000-0000-00000000000a"%string]]>
    group_of_one_keyword.

Definition group_after_second : gmap string (@PropertyGroupModel.PyVal PropertyGroupModel.Association string) :=
  <["_properties"%string :=
      PropertyGroupModel.PList
        [PropertyGroupModel.PUuid "00000000-0000-0000-0000-00000000000a"%string;
         PropertyGroupModel.PUuid "00000000-0000-0000-0000-00000000000b"%string]]>
    group_after_first.

Lemma properties_accumulate_witness :
  exists old c1 c2,
    group_after_second !! "_properties"%string
      = Some (PropertyGroupModel.PList (old ++ c1 ++ c2)) /\
    length c1 = 1 /\ length c2 = 1.
Proof.
  assert (H1 : PropertyGroupModel.set_properties PropertyGroupModel.uuid_text
                 group_of_one_keyword
                 (PropertyGroupModel.PList
                    [PropertyGroupModel.PStr "00000000-0000-0000-0000-00000000000a"])
               = Ok group_after_first) by reflexivity.
  assert (H2 : PropertyGroupModel.set_properties PropertyGroupModel.uuid_text
                 group_after_first
                 (PropertyGroupModel.PList
                    [PropertyGroupModel.PUuid "00000000-0000-0000-0000-00000000000b"%string])
               = Ok group_after_second) by reflexivity.
  pose proof (properties_accumulate PropertyGroupModel.uuid_text _ _ _ _ _ H1 H2)
    as (old & c1 & c2 & _ & _ & _ & L1 & L2 & Hfinal).
  exists old, c1, c2. split; [exact Hfinal|]. split; assumption.
Defined.

Lemma attribute_map_keyword_ignored_witness :
  PropertyGroupModel.init_step PropertyGroupModel.association_by_name
    PropertyGroupModel.uuid_text group_of_one_keyword
    ("attribute_map"%string, PropertyGroupModel.PNone)
  = Ok group_of_one_keyword.
Proof.
  apply (attribute_map_keyword_ignored PropertyGroupModel.association_by_name
           PropertyGroupModel.uuid_text group_of_one_keyword).
  reflexivity.
Defined.

Definition name_keyword : list (string * @PropertyGroupModel.PyVal PropertyGroupModel.Association string) :=
  [("Group Name"%string, PropertyGroupModel.PStr "assays")].

Lemma name_keyword_run :
  PropertyGroupModel.__init__ PropertyGroupModel.VERTEX
    PropertyGroupModel.association_by_name PropertyGroupModel.uuid_text
    "00000000-0000-0000-0000-000000000001"%string name_keyword = Ok named_group.
Proof. reflexivity. Qed.


Lemma setattr_writes_one_slot_witness :
  exists g',
    PropertyGroupModel.setattr PropertyGroupModel.association_by_name
      PropertyGroupModel.uuid_text group_of_one_keyword "group_name"
      (PropertyGroupModel.PStr "assays") = Ok g' /\
    g' !! "_properties"%string = group_of_one_keyword !! "_properties"%string.
Proof.
  eexists. split; [reflexivity|].
  apply (setattr_writes_one_slot PropertyGroupModel.association_by_name
           PropertyGroupModel.uuid_text group_of_one_keyword _ "group_name"
           (PropertyGroupModel.PStr "assays")).
  - discriminate.
  - discriminate.
  - reflexivity.
  - discriminate.
Defined.

Lemma constructor_keeps_drawn_uid_witness :
  named_group !! "_uid"%string
    = Some (PropertyGroupModel.PUuid "00000000-0000-0000-0000-000000000001"%string).
Proof.
  apply (constructor_keeps_drawn_uid PropertyGroupModel.VERTEX
           PropertyGroupModel.association_by_name PropertyGroupModel.uuid_text
           "00000000-0000-0000-0000-000000000001"%string name_keyword named_group).
  - repeat constructor.
  - exact name_keyword_run.
Defined.

(** ** Curve: cells and parts *)

Section CurveGeomFacts.

Import CurveModel.
Import CurveGeom.

Variable promote_types : dtype -> dtype -> dtype.
Variable intp : dtype.
Variable default_int : dtype.
Hypothesis intp_integer : is_integer intp = true.
Hypothesis intp_promote : promote_types intp intp = intp.

(** The segments joining [n] vertices in a row. *)
Definition chain (n : nat) : list (Z * Z) :=
  map (fun i => (Z.of_nat i, (Z.of_nat i + 1)%Z)) (seq 0 (n - 1)).

Lemma combine_map_same {A B C : Type} (f : A -> B) (g : A -> C) (l : list A) :
  combine (map f l) (map g l) = map (fun x => (f x, g x)) l.
Proof. induction l as [|x l IH]; cbn; [reflexivity|]. rewrite IH. reflexivity. Qed.

Lemma arange_pairs (n : nat) :
  c_ (arange 0 (Z.of_nat n - 1)) (arange 1 (Z.of_nat n)) = Ok (chain n).
Proof.
  unfold c_, arange, chain.
  replace (Z.to_nat (Z.of_nat n - 1 - 0)) with (n - 1) by lia.
  replace (Z.to_nat (Z.of_nat n - 1)) with (n - 1) by lia.
  rewrite !List.length_map, !List.length_seq, Nat.eqb_refl. f_equal.
  rewrite combine_map_same. apply List.map_ext. intros i. f_equal; lia.
Qed.

Definition fits_int32 (r : Z * Z) : Prop :=
  (0 <= fst r < 2 ^ 31)%Z /\ (0 <= snd r < 2 ^ 31)%Z.

Lemma pairs_stored (rows : list (Z * Z)) :
  Forall fits_int32 rows ->
  astype_int32 (pairs_array intp rows) = pairs_array int32 rows /\
  astype_int32 (astype_uint32 (pairs_array intp rows)) = pairs_array int32 rows.
Proof.
  intros H. unfold astype_int32, astype_uint32, pairs_array. cbn.
  assert (H1 : map wrap_int32 (flat_map (fun r => [fst r; snd r]) rows)
               = flat_map (fun r => [fst r; snd r]) rows).
  { induction H as [|r rows [Hf Hs] _ IH]; cbn; [reflexivity|].
    rewrite IH, !wrap_int32_id by lia. reflexivity. }
  assert (H2 : map (fun z => (z mod 2 ^ 32)%Z) (flat_map (fun r => [fst r; snd r]) rows)
               = flat_map (fun r => [fst r; snd r]) rows).
  { clear H1. induction H as [|r rows [Hf Hs] _ IH]; cbn; [reflexivity|].
    rewrite IH, !Z.mod_small by lia. reflexivity. }
  split; [rewrite H1 | rewrite H2, H1]; reflexivity.
Qed.

Lemma chain_fits (n : nat) :
  (Z.of_nat n <= 2 ^ 31)%Z -> Forall fits_int32 (chain n).
Proof.
  intros Hn. unfold chain. apply List.Forall_forall. intros r Hr.
  apply List.in_map_iff in Hr as (i & <- & Hi). apply List.in_seq in Hi.
  unfold fits_int32. cbn. lia.
Qed.

(** Assigning an array of pairs of an integer type to a curve without
    cells. *)
Lemma assign_pairs (self : CurveObject) (a : ndarray) (k : nat) :
  _cells (core self) = None ->
  arr_shape a = [k; 2] ->
  is_integer (arr_dtype a) = true ->
  assign_cells promote_types self a
  = (with_core self {| _cells := Some (astype_int32 a);
                       _parts := None;
                       updated := "cells"%string :: updated (core self) |}, None).
Proof.
  intros Hc Hs Hi. unfold assign_cells, set_cells. cbn [bind].
  rewrite Hc. unfold shape_at. rewrite Hs. cbn [nth_error].
  cbn [Nat.eqb negb]. rewrite Hi. reflexivity.
Qed.

(** The getter on a curve defined by its vertices alone. *)
Lemma get_cells_chain (self : CurveObject) (n : nat) :
  _cells (core self) = None ->
  _parts (core self) = None ->
  on_file self = false ->
  n_vertices self = Some n ->
  (Z.of_nat n <= 2 ^ 31)%Z ->
  get_cells promote_types intp self
  = (with_core self {| _cells := Some (pairs_array int32 (chain n));
                       _parts := None;
                       updated := "cells"%string :: updated (core self) |},
     Ok (Some (pairs_array int32 (chain n)))).
Proof.
  intros Hc Hp Hf Hn Hfit.
  unfold get_cells. rewrite Hc, Hp, Hf, Hn, arange_pairs.
  rewrite (assign_pairs self _ (length (chain n))); try reflexivity; try assumption.
  rewrite (proj2 (pairs_stored _ (chain_fits n Hfit))). reflexivity.
Qed.

(** A curve defined by its vertices alone: the getter joins each vertex
    to the next, stores the segments as [int32] and returns them; there
    is one segment less than there are vertices. *)
Theorem cells_default_chain (self : CurveObject) (n : nat) :
  _cells (core self) = None ->
  _parts (core self) = None ->
  on_file self = false ->
  n_vertices self = Some n ->
  (Z.of_nat n <= 2 ^ 31)%Z ->
  get_cells promote_types intp self
  = (with_core self {| _cells := Some (pairs_array int32 (chain n));
                       _parts := None;
                       updated := "cells"%string :: updated (core self) |},
     Ok (Some (pairs_array int32 (chain n)))) /\
  length (chain n) = n - 1.
Proof.
  intros Hc Hp Hf Hn Hfit. split.
  - apply get_cells_chain; assumption.
  - unfold chain. rewrite List.length_map, List.length_seq. reflexivity.
Qed.

Lemma pair_up_flat (rows : list (Z * Z)) :
  pair_up (flat_map (fun r => [fst r; snd r]) rows) = rows.
Proof.
  induction rows as [|[a b] rows IH]; cbn; [reflexivity|]. rewrite IH. reflexivity.
Qed.

Lemma as_pairs_array (dt : dtype) (rows : list (Z * Z)) :
  as_pairs (pairs_array dt rows) = Some rows.
Proof.
  unfold as_pairs, pairs_array. cbn [arr_shape arr_data].
  assert (Hl : length (flat_map (fun r : Z * Z => [fst r; snd r]) rows) = 2 * length rows).
  { induction rows as [|r rows IH]; cbn; [reflexivity|]. cbn in IH. lia. }
  rewrite Hl, Nat.eqb_refl, pair_up_flat. reflexivity.
Qed.

Lemma assign_zero (n : nat) (i : Z) :
  (0 <= i < Z.of_nat n)%Z ->
  assign_at (repeat 0%Z n) i 0 = Ok (repeat 0%Z n).
Proof.
  intros Hi. unfold assign_at. rewrite List.repeat_length.
  assert (H1 : ((0 <=? i) && (i <? Z.of_nat n))%Z = true).
  { apply andb_true_intro. split; [apply Z.leb_le | apply Z.ltb_lt]; lia. }
  rewrite H1. f_equal.
  apply list_eq. intros j.
  destruct (decide (j = Z.to_nat i)) as [->|Hne].
  - rewrite list_lookup_insert_eq by (rewrite List.repeat_length; lia).
    symmetry. rewrite <- nth_error_lookup. apply List.nth_error_repeat. lia.
  - rewrite list_lookup_insert_ne by congruence. reflexivity.
Qed.

(** The segments of a chain follow one another: the loop never opens a
    second part. *)
Lemma fill_parts_chain (n : nat) (m : nat) :
  forall start : nat,
    start + m + 1 < n ->
    fill_parts (Z.of_nat start, (Z.of_nat start + 1)%Z)
      (map (fun i => (Z.of_nat i, (Z.of_nat i + 1)%Z)) (seq (S start) m))
      0 (repeat 0%Z n)
    = Ok (repeat 0%Z n).
Proof.
  induction m as [|m IH]; intros start Hlt; cbn [seq map fill_parts]; [reflexivity|].
  cbn [fst snd].
  replace (Z.of_nat (S start) =? Z.of_nat start + 1)%Z with true
    by (symmetry; apply Z.eqb_eq; lia).
  rewrite assign_zero by lia. cbn [bind].
  rewrite assign_zero by lia. cbn [bind].
  apply IH. lia.
Qed.

Lemma parts_of_chain (n : nat) :
  parts_of_cells n (chain n) = Ok (repeat 0%Z n).
Proof.
  unfold parts_of_cells, chain.
  destruct (n - 1) as [|m] eqn:Hm; cbn [seq map]; [reflexivity|].
  apply (fill_parts_chain n m 0). lia.
Qed.

(** A curve defined by its vertices alone is one part: the parts the
    getter computes are all 0, and the getter keeps them, beside the
    cells it had to compute. *)
Theorem parts_default_single (self : CurveObject) (n : nat) :
  _cells (core self) = None ->
  _parts (core self) = None ->
  on_file self = false ->
  n_vertices self = Some n ->
  (Z.of_nat n <= 2 ^ 31)%Z ->
  let parts := {| arr_dtype := default_int; arr_shape := [n]; arr_data := repeat 0%Z n |} in
  get_parts promote_types intp default_int self
  = (with_core self {| _cells := Some (pairs_array int32 (chain n));
                       _parts := Some parts;
                       updated := "cells"%string :: updated (core self) |},
     Ok (Some parts)).
Proof.
  intros Hc Hp Hf Hn Hfit parts.
  unfold get_parts. rewrite Hp, (get_cells_chain self n Hc Hp Hf Hn Hfit).
  unfold get_cells at 1. cbn [core with_core _cells n_vertices].
  rewrite Hn, as_pairs_array, parts_of_chain. reflexivity.
Qed.

End CurveGeomFacts.

(** ** Curve: cells from parts, removal of cells *)

Section CurveGeomMore.

Import CurveModel.
Import CurveGeom.

Variable promote_types : dtype -> dtype -> dtype.
Variable intp : dtype.
Hypothesis intp_integer : is_integer intp = true.
Hypothesis intp_promote : promote_types intp intp = intp.

(** The vertices of one part joined in order. *)
Definition joined (ind : list Z) : list (Z * Z) :=
  combine (firstn (length ind - 1) ind) (skipn 1 ind).

(** The segments of a curve given by its parts: part after part in the
    order of the identifiers, the vertices of a part in the order of
    their positions. *)
Definition segments (parts : list Z) : list (Z * Z) :=
  flat_map (fun part_id => joined (where_eq part_id parts 0)) (unique parts).

Lemma consecutive_joined (ind : list Z) : consecutive ind = Ok (joined ind).
Proof.
  unfold consecutive, c_, joined.
  rewrite List.length_firstn, List.length_skipn.
  replace (Init.Nat.min (length ind - 1) (length ind)) with (length ind - 1) by lia.
  rewrite Nat.eqb_refl. reflexivity.
Qed.

Lemma joined_cons (x y : Z) (t : list Z) :
  joined (x :: y :: t) = (x, y) :: joined (y :: t).
Proof.
  unfold joined. cbn [length skipn]. rewrite !Nat.sub_succ, !Nat.sub_0_r. reflexivity.
Qed.

Lemma joined_length (ind : list Z) : length (joined ind) = length ind - 1.
Proof.
  unfold joined. rewrite List.length_combine, List.length_firstn, List.length_skipn. lia.
Qed.

Lemma cells_of_parts_joined (ids parts : list Z) :
  cells_of_parts intp ids parts
  = Ok (map (fun part_id => pairs_array intp (joined (where_eq part_id parts 0))) ids).
Proof.
  induction ids as [|part_id ids IH]; cbn [cells_of_parts map]; [reflexivity|].
  rewrite consecutive_joined, IH. reflexivity.
Qed.

Lemma pairs_array_app (dt : dtype) (r1 r2 : list (Z * Z)) :
  {| arr_dtype := dt;
     arr_shape := [length r1 + length r2; 2];
     arr_data := arr_data (pairs_array dt r1) ++ arr_data (pairs_array dt r2) |}
  = pairs_array dt (r1 ++ r2).
Proof.
  unfold pairs_array. cbn [arr_data]. rewrite List.length_app, List.flat_map_app. reflexivity.
Qed.

Lemma stack_all_pairs (acc : list (Z * Z)) (rs : list (list (Z * Z))) :
  stack_all promote_types (pairs_array intp acc) (map (pairs_array intp) rs)
  = Ok (pairs_array intp (acc ++ concat rs)).
Proof using intp_promote.
  revert acc. induction rs as [|r rs IH]; intros acc; cbn [map stack_all concat].
  - rewrite List.app_nil_r. reflexivity.
  - unfold stack_two, atleast_2d. cbn [pairs_array arr_shape arr_dtype list_nat_eqb].
    unfold list_nat_eqb. rewrite decide_True by reflexivity.
    rewrite intp_promote. cbn [bind].
    change (flat_map (fun r0 : Z * Z => [fst r0; snd r0]) acc)
      with (arr_data (pairs_array intp acc)).
    change (flat_map (fun r0 : Z * Z => [fst r0; snd r0]) r)
      with (arr_data (pairs_array intp r)).
    rewrite pairs_array_app, IH, <- List.app_assoc. reflexivity.
Qed.

Lemma vstack_pairs (rs : list (list (Z * Z))) :
  rs <> [] ->
  vstack promote_types (map (pairs_array intp) rs) = Ok (pairs_array intp (concat rs)).
Proof using intp_promote.
  destruct rs as [|r rs]; [congruence|]. intros _.
  cbn [map vstack]. change (atleast_2d (pairs_array intp r)) with (pairs_array intp r).
  apply stack_all_pairs.
Qed.

(** [np.unique]: the values of the array, each once, in ascending order. *)
Lemma insert_unique_In (x y : Z) (l : list Z) :
  In y (insert_unique x l) <-> y = x \/ In y l.
Proof.
  induction l as [|z l IH]; cbn [insert_unique].
  - cbn. intuition congruence.
  - destruct (Z.ltb_spec x z); [cbn; intuition congruence|].
    destruct (Z.eqb_spec x z) as [->|Hne]; [cbn; intuition congruence|].
    cbn [In]. rewrite IH. intuition congruence.
Qed.

Lemma unique_In (y : Z) (l : list Z) : In y (unique l) <-> In y l.
Proof.
  induction l as [|x l IH]; cbn [unique fold_right]; [tauto|].
  rewrite insert_unique_In. fold (unique l). rewrite IH. cbn. intuition congruence.
Qed.

Lemma insert_unique_sorted (x : Z) (l : list Z) :
  StronglySorted Z.lt l -> StronglySorted Z.lt (insert_unique x l).
Proof.
  induction 1 as [|z l Hs IH Hz]; cbn [insert_unique].
  - repeat constructor.
  - destruct (Z.ltb_spec x z) as [Hlt|Hge].
    + constructor; [constructor; assumption|].
      constructor; [exact Hlt|].
      eapply List.Forall_impl; [|exact Hz]. cbn. intros; lia.
    + destruct (Z.eqb_spec x z) as [->|Hne]; [constructor; assumption|].
      constructor; [exact IH|].
      apply List.Forall_forall. intros y Hy. apply insert_unique_In in Hy as [->|Hy]; [lia|].
      rewrite List.Forall_forall in Hz. auto.
Qed.

Lemma unique_sorted (l : list Z) : StronglySorted Z.lt (unique l).
Proof.
  induction l as [|x l IH]; cbn [unique fold_right]; [constructor|].
  apply insert_unique_sorted, IH.
Qed.

Lemma sorted_NoDup (l : list Z) : StronglySorted Z.lt l -> List.NoDup l.
Proof.
  induction 1 as [|z l Hs IH Hz]; constructor; [|exact IH].
  intros Hin. rewrite List.Forall_forall in Hz. specialize (Hz _ Hin). lia.
Qed.

(** The positions [np.where] finds. *)
Lemma where_eq_length (part_id : Z) (parts : list Z) (i : Z) :
  length (where_eq part_id parts i) = count_occ Z.eq_dec parts part_id.
Proof.
  revert i. induction parts as [|p parts IH]; intros i; cbn [where_eq count_occ]; [reflexivity|].
  destruct (Z.eqb_spec p part_id) as [->|Hne].
  - destruct (Z.eq_dec part_id part_id); [|congruence]. cbn. rewrite IH. reflexivity.
  - destruct (Z.eq_dec p part_id); [congruence|]. apply IH.
Qed.

Lemma where_eq_In (part_id : Z) (parts : list Z) (i j : Z) :
  In j (where_eq part_id parts i) ->
  (i <= j < i + Z.of_nat (length parts))%Z /\
  parts !! Z.to_nat (j - i) = Some part_id.
Proof.
  revert i. induction parts as [|p parts IH]; intros i; cbn [where_eq]; [intros []|].
  assert (Hrest : In j (where_eq part_id parts (i + 1)) ->
                  (i <= j < i + Z.of_nat (length (p :: parts)))%Z /\
                  (p :: parts) !! Z.to_nat (j - i) = Some part_id).
  { intros H. apply IH in H as [Hr Hl]. split; [cbn [length]; lia|].
    replace (Z.to_nat (j - i)) with (S (Z.to_nat (j - (i + 1)))) by lia. exact Hl. }
  destruct (Z.eqb_spec p part_id) as [->|Hne]; [|exact Hrest].
  intros [<-|H]; [|exact (Hrest H)].
  split; [cbn [length]; lia|]. rewrite Z.sub_diag. reflexivity.
Qed.

Lemma where_eq_sorted (part_id : Z) (parts : list Z) (i : Z) :
  StronglySorted Z.lt (where_eq part_id parts i).
Proof.
  revert i. induction parts as [|p parts IH]; intros i; cbn [where_eq]; [constructor|].
  destruct (Z.eqb p part_id); [|apply IH].
  constructor; [apply IH|].
  apply List.Forall_forall. intros j Hj. apply where_eq_In in Hj. lia.
Qed.

(** Each segment of a part joins two of its vertices, the earlier one
    first. *)
Lemma joined_sorted (ind : list Z) :
  StronglySorted Z.lt ind ->
  Forall (fun r => (fst r < snd r)%Z /\ In (fst r) ind /\ In (snd r) ind) (joined ind).
Proof.
  induction 1 as [|x l Hs IH Hx]; [constructor|].
  destruct l as [|y t]; [constructor|].
  rewrite joined_cons. constructor.
  - cbn [fst snd]. inversion Hx; subst. repeat split; [assumption|left; reflexivity|right; left; reflexivity].
  - eapply List.Forall_impl; [|exact IH]. cbn beta. intros r (Hlt & H1 & H2).
    repeat split; [exact Hlt|right; exact H1|right; exact H2].
Qed.

Definition same_part (parts : list Z) (r : Z * Z) : Prop :=
  (0 <= fst r < snd r)%Z /\ (snd r < Z.of_nat (length parts))%Z /\
  parts !! Z.to_nat (fst r) = parts !! Z.to_nat (snd r).

Lemma segments_same_part (parts : list Z) : Forall (same_part parts) (segments parts).
Proof.
  unfold segments. apply List.Forall_flat_map, List.Forall_forall. intros part_id _.
  eapply List.Forall_impl; [|apply joined_sorted, where_eq_sorted].
  cbn beta. intros r (Hlt & H1 & H2).
  apply where_eq_In in H1 as [Hr1 Hl1]. apply where_eq_In in H2 as [Hr2 Hl2].
  rewrite Z.sub_0_r in Hl1, Hl2.
  unfold same_part. rewrite Hl1, Hl2. repeat split; lia.
Qed.

Lemma list_sum_cons (a : nat) (l : list nat) : list_sum (a :: l) = a + list_sum l.
Proof. reflexivity. Qed.

(** Counting the vertices part by part. *)
Lemma count_over_ids (ids parts : list Z) :
  List.NoDup ids -> (forall p, In p parts -> In p ids) ->
  list_sum (map (fun part_id => count_occ Z.eq_dec parts part_id) ids) = length parts.
Proof.
  intros Hnd. induction parts as [|p parts IH]; intros Hcover.
  - cbn [count_occ length]. clear. induction ids as [|i ids IHi]; cbn; [reflexivity|exact IHi].
  - assert (Hone : forall ids', List.NoDup ids' ->
      list_sum (map (fun part_id => count_occ Z.eq_dec (p :: parts) part_id) ids')
      = (if in_dec Z.eq_dec p ids' then 1 else 0)
        + list_sum (map (fun part_id => count_occ Z.eq_dec parts part_id) ids')).
    { clear. induction 1 as [|i ids' Hnotin Hnd' IH']; [reflexivity|].
      cbn [map]. rewrite !list_sum_cons, IH'. cbn [count_occ].
      destruct (Z.eq_dec p i) as [->|Hne].
      - destruct (in_dec Z.eq_dec i (i :: ids')) as [_|Hn]; [|exfalso; apply Hn; left; reflexivity].
        destruct (in_dec Z.eq_dec i ids'); [contradiction|]. lia.
      - destruct (in_dec Z.eq_dec p (i :: ids')) as [[Heq|Hin]|Hn].
        + congruence.
        + destruct (in_dec Z.eq_dec p ids'); [lia|contradiction].
        + destruct (in_dec Z.eq_dec p ids') as [Hin|_]; [exfalso; apply Hn; right; exact Hin|lia]. }
    rewrite (Hone ids Hnd).
    destruct (in_dec Z.eq_dec p ids) as [_|Hn]; [|exfalso; apply Hn, Hcover; left; reflexivity].
    rewrite IH; [reflexivity|]. intros q Hq. apply Hcover. right. exact Hq.
Qed.

Lemma segments_length (parts : list Z) :
  length (segments parts) + length (unique parts) = length parts.
Proof.
  unfold segments.
  pose proof (count_over_ids (unique parts) parts (sorted_NoDup _ (unique_sorted parts))
                (fun p Hp => proj2 (unique_In p parts) Hp)) as Hsum.
  assert (Hpos : Forall (fun part_id => 1 <= count_occ Z.eq_dec parts part_id) (unique parts)).
  { apply List.Forall_forall. intros q Hq. apply (proj1 (unique_In q parts)) in Hq.
    apply (count_occ_In Z.eq_dec) in Hq. cbn beta. lia. }
  revert Hsum Hpos. generalize (length parts). generalize (unique parts) as ids.
  induction ids as [|i ids IH]; intros n Hsum Hpos; cbn [flat_map map length] in *;
    rewrite ?list_sum_cons in Hsum.
  - cbn in Hsum. lia.
  - inversion Hpos as [|? ? Hi Hrest]; subst.
    rewrite List.length_app, joined_length, where_eq_length.
    specialize (IH (list_sum (map (fun part_id => count_occ Z.eq_dec parts part_id) ids))
                  eq_refl Hrest). lia.
Qed.

Lemma segments_fit (parts : list Z) :
  (Z.of_nat (length parts) <= 2 ^ 31)%Z -> Forall fits_int32 (segments parts).
Proof.
  intros Hn. eapply List.Forall_impl; [|apply segments_same_part].
  intros r (H1 & H2 & _). unfold fits_int32. lia.
Qed.

(** The getter on a curve whose parts were assigned. *)
Lemma get_cells_segments (self : CurveObject) (parts : ndarray) (l : list Z) :
  _cells (core self) = None ->
  _parts (core self) = Some parts ->
  as_vector parts = Some l ->
  l <> [] ->
  (Z.of_nat (length l) <= 2 ^ 31)%Z ->
  get_cells promote_types intp self
  = (with_core self {| _cells := Some (pairs_array int32 (segments l));
                       _parts := None;
                       updated := "cells"%string :: updated (core self) |},
     Ok (Some (pairs_array int32 (segments l)))).
Proof using intp_integer intp_promote.
  intros Hc Hp Hv Hne Hfit.
  unfold get_cells. rewrite Hc, Hp, Hv, cells_of_parts_joined. cbn [bind].
  rewrite <- (List.map_map (fun part_id => joined (where_eq part_id l 0)) (pairs_array intp)).
  rewrite vstack_pairs.
  2:{ destruct l as [|x l]; [congruence|].
      intros Hnil. apply List.map_eq_nil in Hnil.
      assert (Hin : In x (unique (x :: l))) by (apply unique_In; left; reflexivity).
      rewrite Hnil in Hin. exact Hin. }
  rewrite <- List.flat_map_concat_map. fold (segments l).
  rewrite (assign_pairs promote_types self _ (length (segments l)));
    [|exact Hc|reflexivity|exact intp_integer].
  rewrite (proj1 (pairs_stored intp _ (segments_fit l Hfit))). reflexivity.
Qed.

(** Reading the cells of a curve given by its parts: each part becomes
    the chain of its vertices, so there are as many segments as vertices
    less the number of parts; the parts that were assigned are dropped
    from the instance. *)
Theorem cells_from_parts (self : CurveObject) (parts : ndarray) (l : list Z) :
  _cells (core self) = None ->
  _parts (core self) = Some parts ->
  as_vector parts = Some l ->
  l <> [] ->
  (Z.of_nat (length l) <= 2 ^ 31)%Z ->
  get_cells promote_types intp self
  = (with_core self {| _cells := Some (pairs_array int32 (segments l));
                       _parts := None;
                       updated := "cells"%string :: updated (core self) |},
     Ok (Some (pairs_array int32 (segments l)))) /\
  length (segments l) = length l - length (unique l).
Proof using intp_integer intp_promote.
  intros Hc Hp Hv Hne Hfit. split.
  - exact (get_cells_segments self parts l Hc Hp Hv Hne Hfit).
  - pose proof (segments_length l). lia.
Qed.

(** The cells read from parts join only vertices of one part, the
    earlier vertex first. *)
Theorem cells_join_within_parts (self : CurveObject) (parts : ndarray) (l : list Z) :
  _cells (core self) = None ->
  _parts (core self) = Some parts ->
  as_vector parts = Some l ->
  l <> [] ->
  (Z.of_nat (length l) <= 2 ^ 31)%Z ->
  exists rows : list (Z * Z),
    snd (get_cells promote_types intp self) = Ok (Some (pairs_array int32 rows)) /\
    Forall (fun r => (0 <= fst r < snd r)%Z /\ (snd r < Z.of_nat (length l))%Z /\
                     l !! Z.to_nat (fst r) = l !! Z.to_nat (snd r)) rows.
Proof using intp_integer intp_promote.
  intros Hc Hp Hv Hne Hfit. exists (segments l). split.
  - rewrite (get_cells_segments self parts l Hc Hp Hv Hne Hfit). reflexivity.
  - exact (segments_same_part l).
Qed.

(** Assigning parts and then reading the cells: the cells the curve had
    are gone, whatever their number, the cells are those of the parts,
    and the parts are no longer held by the instance. *)
Theorem parts_replace_cells (self : CurveObject) (l : list Z) :
  n_vertices self = Some (length l) ->
  l <> [] ->
  forallb in_int32 l = true ->
  (Z.of_nat (length l) <= 2 ^ 31)%Z ->
  snd (set_parts self (PartsList l)) = None /\
  get_cells promote_types intp (fst (set_parts self (PartsList l)))
  = (with_core self {| _cells := Some (pairs_array int32 (segments l));
                       _parts := None;
                       updated := "cells"%string :: "cells"%string :: updated (core self) |},
     Ok (Some (pairs_array int32 (segments l)))).
Proof using intp_integer intp_promote.
  intros Hn Hne Hall Hfit.
  unfold set_parts, parts_as_int32. rewrite Hn, Hall. cbn [arr_shape].
  unfold list_nat_eqb. rewrite decide_True by reflexivity. cbn [fst snd].
  split; [reflexivity|].
  rewrite (get_cells_segments _ {| arr_dtype := int32; arr_shape := [length l]; arr_data := l |} l);
    try assumption; try reflexivity.
  unfold as_vector. cbn [arr_shape arr_data]. rewrite Nat.eqb_refl. reflexivity.
Qed.

(** *** Storing cells *)

Definition int32_row (r : Z * Z) : Prop :=
  (- 2 ^ 31 <= fst r < 2 ^ 31)%Z /\ (- 2 ^ 31 <= snd r < 2 ^ 31)%Z.

Lemma int32_rows_stored (dt : dtype) (rows : list (Z * Z)) :
  Forall int32_row rows -> astype_int32 (pairs_array dt rows) = pairs_array int32 rows.
Proof.
  intros H. unfold astype_int32, pairs_array. cbn [arr_shape arr_data]. f_equal.
  induction H as [|r rows [Hf Hs] _ IH]; cbn [flat_map map app]; [reflexivity|].
  rewrite IH, !wrap_int32_id by assumption. reflexivity.
Qed.

Lemma wrap_all_id (data : list Z) :
  map wrap_int32 data = data <-> Forall (fun z => (- 2 ^ 31 <= z < 2 ^ 31)%Z) data.
Proof.
  induction data as [|z data IH]; cbn [map].
  - split; [constructor|reflexivity].
  - split.
    + intros [= Hz Hrest]. constructor; [|apply IH, Hrest].
      pose proof (wrap_int32_range z) as Hr. rewrite Hz in Hr. exact Hr.
    + intros H. inversion H as [|? ? Hz Hrest]; subst.
      rewrite wrap_int32_id by exact Hz. f_equal. apply IH, Hrest.
Qed.

(** An accepted assignment keeps the shape of the array, and keeps its
    entries exactly when all of them are in the range of [int32]; an entry
    out of this range is stored as another number, without an error. *)
Theorem cells_kept_iff_int32 (self self' : Curve) (a : ndarray) :
  set_cells promote_types self (AArray a) = (self', None) ->
  exists stored : ndarray,
    _cells self' = Some stored /\
    arr_shape stored = arr_shape a /\
    (arr_data stored = arr_data a
     <-> Forall (fun z => (- 2 ^ 31 <= z < 2 ^ 31)%Z) (arr_data a)).
Proof.
  intros H. apply set_cells_accepted in H as (a' & Ha & _ & _ & Hc & _).
  destruct Ha as [[= <-]|(items & [=] & _)].
  exists (astype_int32 a). split; [exact Hc|]. split; [reflexivity|].
  apply wrap_all_id.
Qed.


(** *** Removing cells *)

(** The row an index of [np.delete] names. *)
Definition position (k : nat) (i : Z) : nat :=
  if (0 <=? i)%Z then Z.to_nat i else Z.to_nat (i + Z.of_nat k).

(** The rows from row [i] on that are not dropped. *)
Fixpoint kept_rows (dropped : list nat) (i : nat) (rows : list (Z * Z)) : list (Z * Z) :=
  match rows with
  | [] => []
  | r :: rows' =>
      if existsb (Nat.eqb i) dropped then kept_rows dropped (S i) rows'
      else r :: kept_rows dropped (S i) rows'
  end.

Definition valid_index (k : nat) (i : Z) : Prop :=
  (- Z.of_nat k <= i < Z.of_nat k)%Z.

Lemma normalize_valid (k : nat) (indices : list Z) :
  Forall (valid_index k) indices ->
  normalize_indices k indices = Ok (map (position k) indices).
Proof.
  induction 1 as [|i indices Hi _ IH]; cbn [normalize_indices map]; [reflexivity|].
  rewrite IH. unfold position, valid_index in *.
  destruct (Z.leb_spec 0 i) as [Hpos|Hneg].
  - replace (i <? Z.of_nat k)%Z with true by (symmetry; apply Z.ltb_lt; lia).
    reflexivity.
  - cbn [andb].
    replace (- Z.of_nat k <=? i)%Z with true by (symmetry; apply Z.leb_le; lia).
    replace (i <? 0)%Z with true by (symmetry; apply Z.ltb_lt; lia).
    reflexivity.
Qed.

Lemma normalize_error (k : nat) (indices : list Z) (e : PyExc) :
  normalize_indices k indices = Err e -> e = IndexError.
Proof.
  induction indices as [|i indices IH]; cbn [normalize_indices]; [discriminate|].
  destruct (_ && _); cbn [bind].
  - destruct (normalize_indices k indices); cbn [bind]; [discriminate|].
    intros [= <-]. apply IH. reflexivity.
  - destruct (_ && _); cbn [bind].
    + destruct (normalize_indices k indices); cbn [bind]; [discriminate|].
      intros [= <-]. apply IH. reflexivity.
    + intros [= <-]. reflexivity.
Qed.

Lemma fold_max_bound (rest : list Z) (i b : Z) :
  (i <= b)%Z -> Forall (fun j => (j <= b)%Z) rest -> (fold_left Z.max rest i <= b)%Z.
Proof.
  revert i. induction rest as [|j rest IH]; intros i Hi Hrest; cbn [fold_left]; [exact Hi|].
  inversion Hrest; subst. apply IH; [lia|assumption].
Qed.

Lemma np_max_valid (k : nat) (indices : list Z) :
  indices <> [] -> Forall (valid_index k) indices ->
  exists m, np_max indices = Ok m /\ (Z.of_nat k - 1 <? m)%Z = false.
Proof.
  destruct indices as [|i rest]; [congruence|]. intros _ H.
  inversion H as [|? ? Hi Hrest]; subst.
  exists (fold_left Z.max rest i). split; [reflexivity|].
  apply Z.ltb_ge.
  assert (fold_left Z.max rest i <= Z.of_nat k - 1)%Z; [|lia].
  apply fold_max_bound; [unfold valid_index in Hi; lia|].
  eapply List.Forall_impl; [|exact Hrest]. unfold valid_index. intros; lia.
Qed.

Lemma keep_rows_pairs (dropped : list nat) (rows : list (Z * Z)) (i : nat) :
  keep_rows 2 dropped i (length rows) (flat_map (fun r => [fst r; snd r]) rows)
  = flat_map (fun r => [fst r; snd r]) (kept_rows dropped i rows).
Proof.
  revert i. induction rows as [|r rows IH]; intros i; cbn [length keep_rows flat_map kept_rows];
    [reflexivity|].
  cbn [app firstn skipn]. rewrite IH.
  destruct (existsb (Nat.eqb i) dropped); reflexivity.
Qed.

Lemma count_kept_rows (dropped : list nat) (rows : list (Z * Z)) (i : nat) :
  count_kept dropped i (length rows) = length (kept_rows dropped i rows).
Proof.
  revert i. induction rows as [|r rows IH]; intros i; cbn [length count_kept kept_rows];
    [reflexivity|].
  rewrite IH. destruct (existsb (Nat.eqb i) dropped); reflexivity.
Qed.

Lemma np_delete_pairs (dt : dtype) (rows : list (Z * Z)) (indices : list Z) :
  Forall (valid_index (length rows)) indices ->
  np_delete (pairs_array dt rows) indices
  = Ok (pairs_array dt (kept_rows (map (position (length rows)) indices) 0 rows)).
Proof.
  intros H. unfold np_delete, pairs_array at 1. cbn [arr_shape arr_dtype arr_data].
  rewrite (normalize_valid _ _ H). cbn [bind].
  unfold stride. cbn [arr_shape List.tl fold_right Nat.mul].
  change (2 * 1) with 2.
  rewrite keep_rows_pairs, count_kept_rows. reflexivity.
Qed.

Lemma kept_rows_Forall (P : Z * Z -> Prop) (dropped : list nat) (rows : list (Z * Z)) (i : nat) :
  Forall P rows -> Forall P (kept_rows dropped i rows).
Proof.
  intros H. revert i. induction H as [|r rows Hr _ IH]; intros i; cbn [kept_rows]; [constructor|].
  destruct (existsb (Nat.eqb i) dropped); [apply IH|constructor; [exact Hr|apply IH]].
Qed.

(** The number of rows kept. *)
Lemma kept_rows_le (dropped : list nat) (rows : list (Z * Z)) (i : nat) :
  length (kept_rows dropped i rows) <= length rows.
Proof.
  revert i. induction rows as [|r rows IH]; intros i; cbn [kept_rows length]; [lia|].
  specialize (IH (S i)). destruct (existsb (Nat.eqb i) dropped); cbn [length]; lia.
Qed.

Lemma kept_rows_drops (dropped : list nat) (rows : list (Z * Z)) (i d : nat) :
  In d dropped -> i <= d < i + length rows ->
  length (kept_rows dropped i rows) < length rows.
Proof.
  intros Hd. revert i. induction rows as [|r rows IH]; intros i Hr; cbn [kept_rows length] in *; [lia|].
  destruct (existsb (Nat.eqb i) dropped) eqn:E.
  - pose proof (kept_rows_le dropped rows (S i)). lia.
  - cbn [length]. assert (i <> d).
    { intros ->. assert (existsb (Nat.eqb d) dropped = true); [|congruence].
      apply existsb_exists. exists d. split; [exact Hd|apply Nat.eqb_refl]. }
    specialize (IH (S i)). lia.
Qed.

Lemma from_filter_drop (dropped : list nat) (i : nat) :
  existsb (Nat.eqb i) dropped = true ->
  length (List.filter (fun d => S i <=? d) dropped)
  < length (List.filter (fun d => i <=? d) dropped).
Proof.
  intros H. apply existsb_exists in H as (d & Hd & E). apply Nat.eqb_eq in E. subst d.
  induction dropped as [|d dropped IH]; [destruct Hd|].
  assert (Hle : length (List.filter (fun d => S i <=? d) dropped)
                <= length (List.filter (fun d => i <=? d) dropped)).
  { clear. induction dropped as [|d dropped IH]; cbn [List.filter]; [lia|].
    destruct (Nat.leb_spec (S i) d), (Nat.leb_spec i d); cbn [length]; lia. }
  cbn [List.filter]. destruct Hd as [->|Hd].
  - rewrite Nat.leb_refl. replace (S i <=? i) with false by (symmetry; apply Nat.leb_gt; lia).
    cbn [length]. lia.
  - specialize (IH Hd).
    destruct (Nat.leb_spec (S i) d), (Nat.leb_spec i d); cbn [length]; lia.
Qed.

Lemma kept_rows_ge (dropped : list nat) (rows : list (Z * Z)) (i : nat) :
  length rows
  <= length (kept_rows dropped i rows) + length (List.filter (fun d => i <=? d) dropped).
Proof.
  revert i. induction rows as [|r rows IH]; intros i; cbn [kept_rows length]; [lia|].
  specialize (IH (S i)).
  destruct (existsb (Nat.eqb i) dropped) eqn:E.
  - pose proof (from_filter_drop dropped i E). lia.
  - cbn [length].
    assert (length (List.filter (fun d => S i <=? d) dropped)
            <= length (List.filter (fun d => i <=? d) dropped)); [|lia].
    clear. induction dropped as [|d dropped IH]; cbn [List.filter]; [lia|].
    destruct (Nat.leb_spec (S i) d), (Nat.leb_spec i d); cbn [length]; lia.
Qed.

Lemma position_valid (k : nat) (i : Z) : valid_index k i -> position k i < k.
Proof.
  unfold valid_index, position. intros H. destruct (Z.leb_spec 0 i); lia.
Qed.

(** Removing cells: the rows named by the indices (counted from the end
    when negative) leave the array, the rest is stored again, the parts
    are reset and the values of the children on these cells are removed.
    At least one row and at most as many rows as there are indices go:
    the method gets around the setter, which refuses fewer rows. *)
Theorem remove_cells_removes (self : CurveObject) (rows : list (Z * Z)) (indices : list Z) :
  _cells (core self) = Some (pairs_array int32 rows) ->
  Forall int32_row rows ->
  indices <> [] ->
  Forall (fun i => (- Z.of_nat (length rows) <= i < Z.of_nat (length rows))%Z) indices ->
  let remaining := kept_rows (map (position (length rows)) indices) 0 rows in
  remove_cells promote_types self indices
  = ({| core := {| _cells := Some (pairs_array int32 remaining);
                   _parts := None;
                   updated := "cells"%string :: updated (core self) |};
        n_vertices := n_vertices self;
        on_file := on_file self;
        file_cells := file_cells self;
        warnings := warnings self;
        removed_cell_values := indices :: removed_cell_values self |}, None) /\
  length remaining < length rows <= length remaining + length indices.
Proof.
  intros Hc Hrows Hne Hvalid remaining. split.
  - unfold remove_cells. rewrite Hc.
    destruct (np_max_valid (length rows) indices Hne Hvalid) as (m & -> & Hm).
    cbn [bind]. unfold shape_at. cbn [pairs_array arr_shape nth_error bind].
    rewrite Hm.
    change {| arr_dtype := int32; arr_shape := [length rows; 2];
              arr_data := flat_map (fun r => [fst r; snd r]) rows |}
      with (pairs_array int32 rows).
    rewrite (np_delete_pairs int32 rows indices Hvalid). fold remaining.
    rewrite (assign_pairs promote_types _ _ (length remaining)); try reflexivity.
    rewrite (int32_rows_stored int32 remaining (kept_rows_Forall _ _ _ _ Hrows)).
    reflexivity.
  - destruct indices as [|i rest]; [congruence|].
    inversion Hvalid as [|? ? Hi Hrest]; subst. split.
    + apply (kept_rows_drops _ rows 0 (position (length rows) i)).
      * left. reflexivity.
      * pose proof (position_valid (length rows) i Hi). lia.
    + pose proof (kept_rows_ge (map (position (length rows)) (i :: rest)) rows 0) as Hge.
      pose proof (List.filter_length_le (fun d => 0 <=? d)
                    (map (position (length rows)) (i :: rest))) as Hf.
      rewrite List.length_map in Hf. fold remaining in Hge. lia.
Qed.

(** A removal that is refused leaves the curve as it was: the indices
    are checked, and the rows computed, before the cells are cleared. The
    error is a [ValueError] (no index, or one past the last row) or an
    [IndexError] (a negative index before the first row). *)
Theorem remove_cells_refused_unchanged
    (self self' : CurveObject) (cells : ndarray) (k : nat) (indices : list Z) (e : Exc) :
  _cells (core self) = Some cells ->
  arr_shape cells = [k; 2] ->
  is_integer (arr_dtype cells) = true ->
  remove_cells promote_types self indices = (self', Some e) ->
  self' = self /\ (e = Py ValueError \/ e = Py IndexError).
Proof.
  intros Hc Hs Hi. unfold remove_cells. rewrite Hc.
  destruct (np_max indices) as [m|e0] eqn:Hm; cbn [bind].
  2:{ intros [= <- <-]. split; [reflexivity|left].
      destruct indices; [|discriminate]. injection Hm as <-. reflexivity. }
  unfold shape_at. rewrite Hs. cbn [nth_error bind].
  destruct (Z.of_nat k - 1 <? m)%Z.
  { intros [= <- <-]. split; [reflexivity|left; reflexivity]. }
  unfold np_delete. rewrite Hs.
  destruct (normalize_indices k indices) as [dropped|e0] eqn:Hn; cbn [bind].
  2:{ intros [= <- <-]. split; [reflexivity|right].
      rewrite (normalize_error _ _ _ Hn). reflexivity. }
  rewrite (assign_pairs promote_types _ _ (count_kept dropped 0 k)); try reflexivity.
  - discriminate.
  - exact Hi.
Qed.

End CurveGeomMore.

(** ** NoTypeObject.copy: the tree of the copy *)

Section CopyTree.

Import CopyModel.

Variable keeps_uid : uid -> bool.
Variable with_options : Options -> Entity -> Entity.

Abbreviation copy' := (CopyModel.copy keeps_uid with_options).
Abbreviation copy_loop' := (CopyModel.copy_loop keeps_uid with_options).

#[local] Set Default Proof Using "keeps_uid with_options".

Lemma well_formed_intro (u : uid) p n b a g (cs : list Entity) :
  List.NoDup (map e_uid cs) ->
  Forall (fun gr => Forall (fun v => In v (map e_uid cs)) (pg_properties gr)) g ->
  Forall well_formed cs ->
  well_formed (mk_Entity u p n b a g cs).
Proof using Type.
  intros Hnd Hg Hall. cbn. repeat split; auto.
  clear Hnd Hg. induction Hall as [|c cs Hc _ IH]; [exact I|split; assumption].
Qed.

(** The copies of the children hang under the copy. *)
Lemma copy_loop_parent (new : uid) (cs : list Entity) :
  forall (m0 : gmap uid uid) (n : uid) copies m n',
    copy_loop' new cs m0 n = (copies, m, n') ->
    Forall (fun cc => e_parent cc = Some new) copies.
Proof.
  induction cs as [|c cs IH]; intros m0 n copies m n'; cbn [CopyModel.copy_loop].
  - intros [= <- <- <-]. constructor.
  - destruct (copy' c new true default_options n) as [cc n1] eqn:Hcopy.
    destruct (copy_loop' new cs _ n1) as [[copies' m'] n2] eqn:Hl.
    intros [= <- <- <-]. constructor; [|exact (IH _ _ _ _ _ Hl)].
    destruct (copy_head_all keeps_uid with_options c _ _ _ _ Hcopy) as (_ & Hp & _).
    exact Hp.
Qed.

(** In a copy made with its children, the copy hangs under the target
    parent and every copied child under the copy. *)
Theorem copy_children_under_copy (e : Entity) (p n : uid) :
  let c := fst (copy keeps_uid with_options e p true default_options n) in
  e_parent c = Some p /\
  Forall (fun child_copy => e_parent child_copy = Some (e_uid c)) (e_children c).
Proof.
  cbn zeta. rewrite copy_unfold.
  destruct (copy_loop' _ (e_children e) ∅ (S n)) as [[copies m] k] eqn:Hl.
  cbn [fst e_parent e_children e_uid]. split; [reflexivity|].
  exact (copy_loop_parent _ _ _ _ _ _ _ Hl).
Qed.

(** The copies of distinct children are distinct. *)
Lemma copy_loop_NoDup (new : uid) (cs : list Entity) :
  forall (m0 : gmap uid uid) (n : uid) copies m n' (bound : uid),
    copy_loop' new cs m0 n = (copies, m, n') ->
    bound <= n ->
    List.NoDup (map e_uid cs) ->
    Forall (fun v => keeps_uid v = true -> v < bound) (map e_uid cs) ->
    List.NoDup (map e_uid copies).
Proof.
  induction cs as [|c cs IH]; intros m0 n copies m n' bound; cbn [CopyModel.copy_loop].
  - intros [= <- <- <-] _ _ _. constructor.
  - destruct (copy' c new true default_options n) as [cc n1] eqn:Hcopy.
    destruct (copy_loop' new cs _ n1) as [[copies' m'] n2] eqn:Hl.
    intros [= <- <- <-] Hb Hnd Hkeep. cbn [map] in *.
    inversion Hnd as [|? ? Hnotin Hnd']; subst.
    inversion Hkeep as [|? ? Hkc Hkeep']; subst.
    destruct (copy_head_all keeps_uid with_options c _ _ _ _ Hcopy) as (_ & _ & Hlt).
    constructor.
    + exact (copy_loop_apart keeps_uid with_options _ _ _ _ _ _ _ _ _ _ bound
               Hcopy Hl Hb Hnotin Hkc Hkeep').
    + apply (IH _ _ _ _ _ bound Hl); [lia|exact Hnd'|exact Hkeep'].
Qed.

(** The identifiers of a copy and of its descendants: kept from the
    original, or drawn from the supply of the copy. *)
Definition copy_uids_from (e : Entity) : Prop :=
  forall (p n : uid) (c : Entity) (n' : uid),
    copy' e p true default_options n = (c, n') ->
    Forall (fun w => (In w (uids e) /\ keeps_uid w = true) \/ n <= w < n') (uids c).

Lemma copy_loop_uids_from (new : uid) (cs : list Entity) :
  Forall copy_uids_from cs ->
  forall (m0 : gmap uid uid) (n : uid) copies m n',
    copy_loop' new cs m0 n = (copies, m, n') ->
    Forall (fun w => (In w (flat_map uids cs) /\ keeps_uid w = true) \/ n <= w < n')
           (flat_map uids copies).
Proof.
  induction 1 as [|c cs Hc _ IH]; intros m0 n copies m n'; cbn [CopyModel.copy_loop].
  - intros [= <- <- <-]. constructor.
  - destruct (copy' c new true default_options n) as [cc n1] eqn:Hcopy.
    destruct (copy_loop' new cs _ n1) as [[copies' m'] n2] eqn:Hl.
    intros [= <- <- <-]. cbn [flat_map].
    destruct (copy_head_all keeps_uid with_options c _ _ _ _ Hcopy) as (_ & _ & Hlt).
    pose proof (copy_loop_grows keeps_uid with_options _ _
                  (copy_head_children keeps_uid with_options cs) _ _ _ _ _ Hl) as Hle.
    apply Forall_app. split.
    + eapply List.Forall_impl; [|exact (Hc _ _ _ _ Hcopy)]. cbn beta.
      intros w [[Hin Hk]|Hr]; [left; split; [apply List.in_or_app; left; exact Hin|exact Hk]|right; lia].
    + eapply List.Forall_impl; [|exact (IH _ _ _ _ _ Hl)]. cbn beta.
      intros w [[Hin Hk]|Hr]; [left; split; [apply List.in_or_app; right; exact Hin|exact Hk]|right; lia].
Qed.

Lemma copy_uids_from_all (e : Entity) : copy_uids_from e.
Proof.
  induction e as [u p0 nm b a g cs IH] using Entity_children_ind.
  intros p n c n'. rewrite copy_unfold.
  cbn [e_children e_name e_blob e_arrays e_property_groups].
  destruct (copy_loop' _ cs ∅ (S n)) as [[copies m] k] eqn:Hl.
  intros [= <- <-]. cbn [uids].
  pose proof (copy_loop_grows keeps_uid with_options _ _
                (copy_head_children keeps_uid with_options cs) _ _ _ _ _ Hl) as Hle.
  constructor.
  - unfold CopyModel.new_uid. cbn [e_uid].
    destruct (keeps_uid u) eqn:Hk; [left; split; [left; reflexivity|exact Hk]|right; lia].
  - eapply List.Forall_impl; [|exact (copy_loop_uids_from _ _ IH _ _ _ _ _ Hl)]. cbn beta.
    intros w [[Hin Hk]|Hr]; [left; split; [right; exact Hin|exact Hk]|right; lia].
Qed.

(** A well-formed entity whose kept identifiers were drawn before the
    copy can be compared with its copy. *)
Lemma well_formed_copyable (e : Entity) :
  forall bound,
    well_formed e ->
    Forall (fun u => keeps_uid u = true -> u < bound) (uids e) ->
    copyable keeps_uid bound e.
Proof using keeps_uid.
  induction e as [u p0 nm b a g cs IH] using Entity_children_ind.
  intros bound Hwf Hk. apply well_formed_children in Hwf as (Hnd & Hg & Hwfs).
  cbn [uids] in Hk. inversion Hk as [|? ? _ Hk']; subst.
  apply copyable_intro; [exact Hnd| | |].
  - apply List.Forall_forall. intros v Hv.
    apply List.in_map_iff in Hv as (c & <- & Hc).
    rewrite List.Forall_forall in Hk'. apply Hk'.
    apply List.in_flat_map. exists c. split; [exact Hc|apply uid_in_uids].
  - eapply List.Forall_impl; [|exact Hg]. cbn beta. intros gr Hgr.
    eapply List.Forall_impl; [|exact Hgr]. cbn beta. intros v Hv. left. exact Hv.
  - apply List.Forall_forall. intros c Hc.
    rewrite List.Forall_forall in IH, Hwfs. apply (IH c Hc); [exact (Hwfs c Hc)|].
    apply List.Forall_forall. intros v Hv.
    rewrite List.Forall_forall in Hk'. apply Hk'.
    apply List.in_flat_map. exists c. split; assumption.
Qed.

Definition keeps_well_formed (e : Entity) : Prop :=
  forall (p n : uid) (c : Entity) (n' bound : uid),
    copy' e p true default_options n = (c, n') ->
    bound <= n ->
    well_formed e ->
    Forall (fun u => keeps_uid u = true -> u < bound) (uids e) ->
    well_formed c.

Lemma copy_loop_well_formed (new : uid) (cs : list Entity) :
  Forall keeps_well_formed cs ->
  forall (m0 : gmap uid uid) (n : uid) copies m n' (bound : uid),
    copy_loop' new cs m0 n = (copies, m, n') ->
    bound <= n ->
    Forall well_formed cs ->
    Forall (fun u => keeps_uid u = true -> u < bound) (flat_map uids cs) ->
    Forall well_formed copies.
Proof.
  induction 1 as [|c cs Hc _ IH]; intros m0 n copies m n' bound; cbn [CopyModel.copy_loop].
  - intros [= <- <- <-] _ _ _. constructor.
  - destruct (copy' c new true default_options n) as [cc n1] eqn:Hcopy.
    destruct (copy_loop' new cs _ n1) as [[copies' m'] n2] eqn:Hl.
    intros [= <- <- <-] Hb Hwf Hk. inversion Hwf as [|? ? Hwc Hwcs]; subst.
    cbn [flat_map] in Hk. apply Forall_app in Hk as [Hkc Hkcs].
    destruct (copy_head_all keeps_uid with_options c _ _ _ _ Hcopy) as (_ & _ & Hlt).
    constructor; [exact (Hc _ _ _ _ bound Hcopy Hb Hwc Hkc)|].
    apply (IH _ _ _ _ _ bound Hl); [lia|exact Hwcs|exact Hkcs].
Qed.

Lemma copy_keeps_well_formed (e : Entity) : keeps_well_formed e.
Proof.
  induction e as [u p0 nm b a g cs IH] using Entity_children_ind.
  intros p n c n' bound. rewrite copy_unfold.
  cbn [e_children e_name e_blob e_arrays e_property_groups].
  destruct (copy_loop' _ cs ∅ (S n)) as [[copies m] k] eqn:Hl.
  intros [= <- <-] Hb Hwf Hk.
  pose proof (well_formed_copyable _ bound Hwf Hk) as Hc.
  apply copyable_children in Hc as (_ & Hkc & _ & _).
  apply well_formed_children in Hwf as (Hnd & Hg & Hwfs).
  cbn [uids] in Hk. inversion Hk as [|? ? _ Hk']; subst.
  apply well_formed_intro.
  - exact (copy_loop_NoDup _ _ _ _ _ _ _ bound Hl ltac:(lia) Hnd Hkc).
  - assert (Hall : Forall (fun gr => Forall (fun v => In v (map e_uid copies)) (pg_properties gr))
                     (copy_property_groups g m)); [|destruct g; [constructor|exact Hall]].
    unfold copy_property_groups. apply List.Forall_forall. intros gr Hgr.
    apply List.in_map_iff in Hgr as (gr0 & <- & Hgr0). cbn [pg_properties].
    apply List.Forall_forall. intros v Hv.
    apply List.in_map_iff in Hv as (v0 & <- & Hv0).
    rewrite List.Forall_forall in Hg. specialize (Hg _ Hgr0).
    rewrite List.Forall_forall in Hg. specialize (Hg _ Hv0).
    destruct (index_of_In _ _ Hg) as [i Hi].
    apply (index_of_Some_In _ _ i).
    rewrite (copy_loop_index keeps_uid with_options _ _ _ _ _ _ _ bound Hl
               ltac:(lia) Hnd Hkc v0 (or_introl Hg)).
    exact Hi.
  - exact (copy_loop_well_formed _ _ IH _ _ _ _ _ bound Hl ltac:(lia) Hwfs Hk').
Qed.

(** A copy can be copied again: the copy of a well-formed entity is
    well formed (its children are distinct and its property groups list
    its own children), and the copy of the copy is the original up to
    identity. Where identifiers are kept, they were drawn before the
    copy; where none is kept, this asks nothing. *)
Theorem copy_of_copy_same_shape (e : Entity) (p n p2 : uid) :
  well_formed e ->
  Forall (fun u => keeps_uid u = true -> u < n) (uids e) ->
  let c := fst (copy keeps_uid with_options e p true default_options n) in
  let next := snd (copy keeps_uid with_options e p true default_options n) in
  well_formed c /\
  erase (fst (copy keeps_uid with_options c p2 true default_options next)) = erase e.
Proof.
  intros Hwf Hk. cbn zeta.
  destruct (copy' e p true default_options n) as [c n'] eqn:Hcopy. cbn [fst snd].
  pose proof (copy_keeps_well_formed e _ _ _ _ n Hcopy (Nat.le_refl n) Hwf Hk) as Hwfc.
  split; [exact Hwfc|].
  destruct (copy' c p2 true default_options n') as [c2 n2] eqn:Hcopy2. cbn [fst].
  assert (Hk2 : Forall (fun u => keeps_uid u = true -> u < n') (uids c)).
  { destruct (copy_head_all keeps_uid with_options e _ _ _ _ Hcopy) as (_ & _ & Hlt).
    eapply List.Forall_impl; [|exact (copy_uids_from_all e _ _ _ _ Hcopy)]. cbn beta.
    intros w [[Hin Hkw]|Hr] _; [|lia].
    rewrite List.Forall_forall in Hk. specialize (Hk _ Hin Hkw). lia. }
  rewrite (copy_shape_all keeps_uid with_options c _ _ _ _ n' Hcopy2 (Nat.le_refl n')
             (well_formed_copyable c n' Hwfc Hk2)).
  exact (copy_shape_all keeps_uid with_options e _ _ _ _ n Hcopy (Nat.le_refl n)
           (well_formed_copyable e n Hwf Hk)).
Qed.

End CopyTree.

(** ** Instances *)

(** A promotion table for arrays of one element type. *)
Definition promote_left (a b : CurveModel.dtype) : CurveModel.dtype := a.

(** A curve of four vertices, neither cells nor parts assigned. *)
Definition four_vertices : CurveGeom.CurveObject :=
  CurveGeom.mk_CurveObject (CurveModel.mk_Curve None None []) (Some 4) false None [] [].

Lemma cells_default_chain_witness :
  CurveGeom.get_cells promote_left CurveModel.int64 four_vertices
  = (CurveGeom.with_core four_vertices
       {| CurveModel._cells := Some (CurveGeom.pairs_array CurveModel.int32 (chain 4));
          CurveModel._parts := None;
          CurveModel.updated := ["cells"%string] |},
     Ok (Some (CurveGeom.pairs_array CurveModel.int32 (chain 4)))) /\
  length (chain 4) = 3.
Proof.
  apply (cells_default_chain promote_left CurveModel.int64 four_vertices 4);
    try reflexivity.
  cbn. lia.
Defined.

Lemma parts_default_single_witness :
  snd (CurveGeom.get_parts promote_left CurveModel.int64 CurveModel.int64 four_vertices)
  = Ok (Some (CurveModel.mk_ndarray CurveModel.int64 [4] [0; 0; 0; 0]%Z)).
Proof.
  refine (f_equal snd
    (parts_default_single promote_left CurveModel.int64 CurveModel.int64 four_vertices 4
       eq_refl eq_refl eq_refl eq_refl _)).
  cbn. lia.
Defined.

(** Three vertices in two parts. *)
Definition parts_0_0_1 : CurveModel.ndarray :=
  CurveModel.mk_ndarray CurveModel.int32 [3] [0; 0; 1]%Z.

Definition two_parts : CurveGeom.CurveObject :=
  CurveGeom.mk_CurveObject (CurveModel.mk_Curve None (Some parts_0_0_1) []) (Some 3)
    false None [] [].

Lemma cells_from_parts_witness :
  snd (CurveGeom.get_cells promote_left CurveModel.int64 two_parts)
  = Ok (Some (CurveGeom.pairs_array CurveModel.int32 [(0, 1)%Z])) /\
  length (segments [0; 0; 1]%Z) = 3 - 2.
Proof.
  destruct (cells_from_parts promote_left CurveModel.int64 eq_refl eq_refl
              two_parts parts_0_0_1 [0; 0; 1]%Z eq_refl eq_refl eq_refl
              ltac:(discriminate) ltac:(cbn; lia)) as [Hget Hlen].
  split; [exact (f_equal snd Hget) | exact Hlen].
Defined.

Lemma cells_join_within_parts_witness :
  exists rows : list (Z * Z),
    snd (CurveGeom.get_cells promote_left CurveModel.int64 two_parts)
    = Ok (Some (CurveGeom.pairs_array CurveModel.int32 rows)) /\
    Forall (fun r => (0 <= fst r < snd r)%Z /\ (snd r < 3)%Z /\
                     [0; 0; 1]%Z !! Z.to_nat (fst r) = [0; 0; 1]%Z !! Z.to_nat (snd r)) rows.
Proof.
  apply (cells_join_within_parts promote_left CurveModel.int64 eq_refl eq_refl
           two_parts parts_0_0_1 [0; 0; 1]%Z); try reflexivity.
  - discriminate.
  - cbn. lia.
Defined.

(** A curve of four vertices joined in a row. *)
Definition three_segments : CurveGeom.CurveObject :=
  CurveGeom.mk_CurveObject
    (CurveModel.mk_Curve
       (Some (CurveGeom.pairs_array CurveModel.int32 [(0, 1); (1, 2); (2, 3)]%Z)) None [])
    (Some 4) false None [] [].

Lemma parts_replace_cells_witness :
  snd (CurveGeom.set_parts three_segments (CurveGeom.PartsList [0; 0; 1; 1]%Z)) = None /\
  snd (CurveGeom.get_cells promote_left CurveModel.int64
         (fst (CurveGeom.set_parts three_segments (CurveGeom.PartsList [0; 0; 1; 1]%Z))))
  = Ok (Some (CurveGeom.pairs_array CurveModel.int32 [(0, 1); (2, 3)]%Z)).
Proof.
  destruct (parts_replace_cells promote_left CurveModel.int64 eq_refl eq_refl
              three_segments [0; 0; 1; 1]%Z eq_refl ltac:(discriminate) eq_refl
              ltac:(cbn; lia)) as [Hset Hget].
  split; [exact Hset | exact (f_equal snd Hget)].
Defined.

(** An array of one row with an entry above the range of [int32]. *)
Definition wide_cells : CurveModel.ndarray :=
  CurveModel.mk_ndarray CurveModel.uint32 [1; 2] [0; 4294967295]%Z.

Lemma cells_kept_iff_int32_witness :
  exists stored : CurveModel.ndarray,
    Some (CurveModel.astype_int32 wide_cells) = Some stored /\
    CurveModel.arr_shape stored = [1; 2] /\
    (CurveModel.arr_data stored = [0; 4294967295]%Z
     <-> Forall (fun z => (- 2 ^ 31 <= z < 2 ^ 31)%Z) [0; 4294967295]%Z).
Proof.
  apply (cells_kept_iff_int32 promote_left (CurveModel.mk_Curve None None [])
           (CurveModel.mk_Curve (Some (CurveModel.astype_int32 wide_cells)) None
              ["cells"%string])
           wide_cells).
  reflexivity.
Defined.


Lemma remove_cells_removes_witness :
  fst (CurveGeom.remove_cells promote_left three_segments [-1]%Z)
  = CurveGeom.mk_CurveObject
      (CurveModel.mk_Curve
         (Some (CurveGeom.pairs_array CurveModel.int32 [(0, 1); (1, 2)]%Z)) None
         ["cells"%string])
      (Some 4) false None [] [[-1]%Z].
Proof.
  refine (f_equal fst (proj1
    (remove_cells_removes promote_left three_segments [(0, 1); (1, 2); (2, 3)]%Z [-1]%Z
       eq_refl _ ltac:(discriminate) _))).
  - repeat (constructor; [split; cbn; lia|]). constructor.
  - repeat (constructor; [cbn; lia|]). constructor.
Defined.

Lemma remove_cells_refused_unchanged_witness :
  fst (CurveGeom.remove_cells promote_left three_segments [3]%Z) = three_segments.
Proof.
  refine (proj1
    (remove_cells_refused_unchanged promote_left three_segments _
       (CurveGeom.pairs_array CurveModel.int32 [(0, 1); (1, 2); (2, 3)]%Z) 3 [3]%Z
       (CurveGeom.Py CurveModel.ValueError) eq_refl eq_refl eq_refl _)).
  reflexivity.
Defined.

Lemma copy_of_copy_same_shape_witness :
  CopyModel.erase
    (fst (CopyModel.copy same_workspace no_option
            (fst (CopyModel.copy same_workspace no_option well_with_log 0 true
                    CopyModel.default_options 10))
            0 true CopyModel.default_options
            (snd (CopyModel.copy same_workspace no_option well_with_log 0 true
                    CopyModel.default_options 10))))
  = CopyModel.erase well_with_log.
Proof.
  refine (proj2 (copy_of_copy_same_shape same_workspace no_option well_with_log 0 10 0 _ _)).
  - cbn. repeat split.
    + constructor; [intros [] | constructor].
    + repeat constructor.
    + constructor.
    + repeat constructor.
  - repeat constructor; discriminate.
Defined.
